(** * Polymarket trading bot: the trading pipeline, embedded and verified

    A shallow embedding of the TypeScript sources of the bot
    (core/events.ts, core/store.ts, core/engine.ts,
    services/risk-manager.ts, services/order-manager.ts,
    services/market-data.ts, services/gamma.ts, strategies/base.ts and
    strategies/bregman-arb.ts) together with the properties the
    specification states about them and further properties read off
    the code.

    Conventions of the embedding.
    - A JavaScript [number] is a real number ([R]): IEEE-754 rounding
      and NaN are abstracted away.  [+Infinity] is modelled where the
      code can produce it, as the result of [Math.min()] without
      arguments and of a division by zero ([Math_min_spread],
      [Number_div]).  Comparisons are the decidable order of [R]
      ([Rlt_dec] and friends).
    - Mutable objects (the SQLite tables, the risk manager's latch, the
      strategy counters) are explicit state passed in and returned.
    - [events.emit(type, data)] issued by a service is recorded, in
      order, in the list of emissions the service function returns.  The
      bus itself ([EventBus.emit], with its live handler set) is embedded
      in module [EventBus].
    - Logging ([ILogger]) has no effect on any state modelled here and is
      left out, apart from [console.error] in the bus.
    - Functions of the JavaScript runtime and of SQLite that the code
      calls but does not define (number formatting, [JSON.parse],
      SQLite's [DATE]) are fields of the record [Builtins]; the clock
      ([Date.now()], [new Date()]) is a field of [Clock]. *)

From Stdlib Require Import Reals Lra ZArith String List.
From Stdlib Require OrderedTypeEx.
From stdpp Require Import base option gmap strings list fin_maps pretty.

Local Open Scope R_scope.

(* ===================================================================== *)
(** * JavaScript runtime                                                  *)
(* ===================================================================== *)

(** [Math.min] of a non-empty argument list.  [Math.min()] with no
    argument is [+Infinity]; callers below fold it away explicitly. *)
Definition Math_min2 (a b : R) : R := Rmin a b.
Definition Math_min3 (a b c : R) : R := Rmin (Rmin a b) c.
Definition Math_abs (a : R) : R := Rabs a.

(** [Math.min(...xs)] : [None] stands for [+Infinity] (empty spread). *)
Definition Math_min_spread (xs : list R) : option R :=
  match xs with
  | [] => None
  | x :: rest => Some (fold_left Rmin rest x)
  end.

(** [Math.min(a, m)] where [m] may be [+Infinity]. *)
Definition Math_min_with_inf (a : R) (m : option R) : R :=
  match m with
  | None => a
  | Some b => Rmin a b
  end.

(** The order and equality of numbers are decidable. *)
#[global] Instance R_eq_dec : EqDecision R := Req_dec_T.
#[global] Instance Rlt_decision (a b : R) : Decision (a < b) := Rlt_dec a b.
#[global] Instance Rle_decision (a b : R) : Decision (a <= b) := Rle_dec a b.
#[global] Instance Rgt_decision (a b : R) : Decision (a > b) := Rgt_dec a b.
#[global] Instance Rge_decision (a b : R) : Decision (a >= b) := Rge_dec a b.

(** [a / b].  A division by zero does not throw: a positive number
    over zero is [+Infinity], for which [None] stands.  Zero over zero
    is NaN and a negative number over zero is [-Infinity], which this
    model of numbers does not have: the quotient is then the one of
    [R].  Where the strategy divides, the dividend has passed a test
    of being at least the divisor, so that it is not negative over a
    zero divisor. *)
Definition Number_div (a b : R) : option R :=
  if decide (b = 0 ∧ a > 0) then None else Some (a / b).

(** [Math.min(q, b)] where [q] may be [+Infinity]. *)
Definition Math_min_inf (q : option R) (b : R) : R :=
  match q with
  | None => b
  | Some a => Rmin a b
  end.

(** What the runtime supplies. *)
Record Builtins := {
  (** [String(x)] / template-literal interpolation of a number *)
  Number_toString : R → string;
  (** [x.toFixed(digits)] *)
  Number_toFixed : R → nat → string;
  (** [JSON.parse(raw)] at the type the code declares for it
      ([string[]]); [None] when it throws *)
  JSON_parse : string → option (list string);
  (** SQLite's [DATE(text)]; [None] is SQL NULL *)
  sqlite_DATE : string → option string
}.

Record Clock := {
  (** [Date.now()] in milliseconds *)
  Date_now : Z;
  (** [new Date().toISOString().split("T")[0]] *)
  isoDay : string
}.

(* ===================================================================== *)
(** * types/index.ts                                                      *)
(* ===================================================================== *)

Inductive Side := BUY | SELL.
Inductive OrderType := GTC | GTD.

#[global] Instance Side_eq_dec : EqDecision Side.
Proof. solve_decision. Defined.

Module Position.
Record t := mk {
  tokenId : string;
  market : string;
  size : R;
  avgEntryPrice : R;
  currentPrice : R;
  unrealizedPnl : R;
  realizedPnl : R;
  side : Side
}.
End Position.

Module OrderRequest.
Record t := mk {
  tokenId : string;
  side : Side;
  price : R;
  size : R;
  type : OrderType;
  expiration : option Z
}.
End OrderRequest.

Module OrderResult.
Record t := mk {
  success : bool;
  orderId : option string;
  error : option string;
  filledSize : option R;
  avgFillPrice : option R
}.
End OrderResult.

Module TradeSignal.
Record t := mk {
  tokenId : string;
  side : Side;
  confidence : R;
  targetPrice : R;
  size : R;
  reason : string
}.
End TradeSignal.

Module RiskLimits.
Record t := mk {
  maxPositionSize : R;
  maxTotalExposure : R;
  maxLossPerTrade : R;
  maxDailyLoss : R;
  maxOpenOrders : R
}.
End RiskLimits.

Module MarketGroup.
Record t := mk {
  conditionId : string;
  tokenIds : list string
}.
End MarketGroup.

Module PriceLevel.
Record t := mk { price : R; size : R }.
End PriceLevel.

Module OrderBook.
Record t := mk {
  tokenId : string;
  bids : list PriceLevel.t;
  asks : list PriceLevel.t;
  spread : R;
  midPrice : R;
  (** [timestamp.getTime()] *)
  timestamp : Z
}.
End OrderBook.

Inductive EventType :=
| orderbook_update | trade_executed | order_filled | order_cancelled
| position_changed | strategy_signal | risk_breach | market_update
| market_groups_updated.

#[global] Instance EventType_eq_dec : EqDecision EventType.
Proof. solve_decision. Defined.

(** The payloads the services of this development pass to [emit]. *)
Inductive EventData :=
| OrderFilledData (orderId : string) (order : OrderRequest.t)
    (result : OrderResult.t)
| OrderCancelledData (orderId : string)
| PositionChangedData (tokenId : string) (position : Position.t)
| RiskBreachData (reason : string) (timestamp : Z)
| MarketGroupsUpdatedData (groups : list MarketGroup.t).

(** One call [events.emit(type, data)]. *)
Definition Emission : Type := EventType * EventData.

Definition emitted_types (es : list Emission) : list EventType := es.*1.

(* ===================================================================== *)
(** * core/events.ts : EventBus                                           *)
(* ===================================================================== *)

Definition EventType_code (ty : EventType) : nat :=
  match ty with
  | orderbook_update => 0 | trade_executed => 1 | order_filled => 2
  | order_cancelled => 3 | position_changed => 4 | strategy_signal => 5
  | risk_breach => 6 | market_update => 7 | market_groups_updated => 8
  end%nat.

Definition EventType_decode (n : nat) : option EventType :=
  match n with
  | 0 => Some orderbook_update | 1 => Some trade_executed
  | 2 => Some order_filled | 3 => Some order_cancelled
  | 4 => Some position_changed | 5 => Some strategy_signal
  | 6 => Some risk_breach | 7 => Some market_update
  | 8 => Some market_groups_updated | _ => None
  end%nat.

#[global] Instance EventType_countable : Countable EventType.
Proof.
  apply (inj_countable EventType_code EventType_decode).
  by intros [].
Defined.

Module EventBus.

(** A handler is a closure; the bus holds it by reference.  Closures
    are named by numbers, and what calling one does is given by a table
    ([call], below).  A closure may reach the bus it is registered on
    (to subscribe, unsubscribe or emit) and the rest of the application
    state, so it transforms both; it returns or throws. *)
Abbreviation HandlerId := nat.

(** A JavaScript [Set]: its entries in insertion order.  [delete]
    leaves a hole in place of the entry, so that the position of a
    running iterator stays valid; [add] appends unless the value is
    present. *)
Abbreviation HandlerSet := (list (option HandlerId)).

Definition Set_has (s : HandlerSet) (h : HandlerId) : bool :=
  bool_decide (Some h ∈ s).

Definition Set_add (s : HandlerSet) (h : HandlerId) : HandlerSet :=
  if Set_has s h then s else s ++ [Some h].

Definition Set_delete (s : HandlerSet) (h : HandlerId) : HandlerSet :=
  (λ entry, if decide (entry = Some h) then None else entry) <$> s.

(** The values an iteration over an unchanging set visits, in order. *)
Definition Set_values (s : HandlerSet) : list HandlerId :=
  omap (λ entry, entry) s.

(** [private handlers = new Map<EventType, Set<EventHandler>>()] *)
Record Bus := mkBus { handlers : gmap EventType HandlerSet }.

Definition create : Bus := mkBus ∅.

Definition on (b : Bus) (ty : EventType) (h : HandlerId) : Bus :=
  let b1 :=
    match handlers b !! ty with
    | Some _ => b
    | None => mkBus (<[ty := []]> (handlers b))
    end in
  mkBus (alter (λ s, Set_add s h) ty (handlers b1)).

Definition off (b : Bus) (ty : EventType) (h : HandlerId) : Bus :=
  mkBus (alter (λ s, Set_delete s h) ty (handlers b)).


Section Dispatch.
Variables Data App Err : Type.

Record BotEvent := mkEvent {
  type : EventType;
  timestamp : Z;
  data : Data
}.

(** What handlers can reach. *)
Record World := mkWorld { bus : Bus; app : App }.

(** How a piece of code ends, and the state it leaves. *)
Inductive Completion (S : Type) :=
| Normal (s : S)
| Throw (err : Err) (s : S).

(** The state of one [emit]: the world, what was written with
    [console.error], and (for the statements below) the calls made
    to handlers, in order. *)
Record Run := mkRun {
  world : World;
  console : list (EventType * Err);
  invoked : list (HandlerId * BotEvent)
}.

(** The closures: what calling handler [h] with an event does. *)
Variable call : HandlerId → BotEvent → World → Completion World.

(** [handler(event)] *)
Definition invoke (h : HandlerId) (event : BotEvent) (r : Run)
  : Completion Run :=
  let r' w := mkRun w (console r) (invoked r ++ [(h, event)]) in
  match call h event (world r) with
  | Normal _ w => Normal _ (r' w)
  | Throw _ err w => Throw _ err (r' w)
  end.

(** [console.error(`Event handler error for ${type}:`, err)] *)
Definition console_error (ty : EventType) (err : Err) (r : Run)
  : Completion Run :=
  Normal _ (mkRun (world r) (console r ++ [(ty, err)]) (invoked r)).

(** [try { body } catch (err) { handler }] *)
Definition try_catch {S : Type} (body : Completion S)
    (handler : Err → S → Completion S) : Completion S :=
  match body with
  | Normal _ s => Normal _ s
  | Throw _ err s => handler err s
  end.

(** [for (const handler of typeHandlers) { try {...} catch {...} }]
    from position [index] of the set on.  The set is read afresh at
    every step, as a Set iterator does: entries added during the
    iteration are visited, holes are skipped.  A handler that keeps
    adding handlers keeps the loop going, hence the fuel; [None] is
    a loop still running when the fuel is spent. *)
Fixpoint iterate (fuel : nat) (ty : EventType) (event : BotEvent)
    (index : nat) (r : Run) : option (Completion Run) :=
  match fuel with
  | O => None
  | S fuel' =>
    match default [] (handlers (bus (world r)) !! ty) !! index with
    | None => Some (Normal _ r)
    | Some None => iterate fuel' ty event (S index) r
    | Some (Some handler) =>
      match try_catch (invoke handler event r) (console_error ty) with
      | Normal _ r' => iterate fuel' ty event (S index) r'
      | Throw _ err r' => Some (Throw _ err r')
      end
    end
  end.

Definition emit (fuel : nat) (ty : EventType) (payload : Data) (now : Z)
    (r : Run) : option (Completion Run) :=
  let event := mkEvent ty now payload in
  match handlers (bus (world r)) !! ty with
  | Some _ => iterate fuel ty event 0 r
  | None => Some (Normal _ r)
  end.

(** The world a completion leaves. *)
Definition after {S : Type} (c : Completion S) : S :=
  match c with Normal _ s => s | Throw _ _ s => s end.

(** The same closures with every exception turned into a normal
    return: what they do to the world is unchanged. *)
Definition quiet (h : HandlerId) (event : BotEvent) (w : World)
  : Completion World :=
  Normal _ (after (call h event w)).

(** Two dispatches that called the same handlers with the same events
    and left the same world (what was logged apart). *)
Definition same_dispatch (a b : option (Completion Run)) : Prop :=
  match a, b with
  | Some (Normal _ r1), Some (Normal _ r2) =>
    world r1 = world r2 ∧ invoked r1 = invoked r2
  | None, None => True
  | _, _ => False
  end.

(** [once(type, handler)] registers a wrapper closure that first
    unsubscribes itself and then calls the handler; [self] names the
    wrapper.  This is what calling the wrapper does. *)
Definition onceWrapper (ty : EventType) (self handler : HandlerId)
    (event : BotEvent) (w : World) : Completion World :=
  call handler event (mkWorld (off (bus w) ty self) (app w)).

(** Handlers that, called with [event], leave the set of handlers of
    its type as it is (they neither subscribe nor unsubscribe a
    handler of that type). *)
Definition keeps_handlers (ty : EventType) (event : BotEvent) : Prop :=
  ∀ h w, handlers (bus (after (call h event w))) !! ty
         = handlers (bus w) !! ty.

(** Handlers that, called with [event], change the set of handlers of
    its type at most by unsubscribing themselves, as the wrapper of
    [once] does. *)
Definition unsubscribes_only_itself (ty : EventType) (event : BotEvent)
  : Prop :=
  ∀ h w s, handlers (bus w) !! ty = Some s →
    handlers (bus (after (call h event w))) !! ty = Some s
    ∨ handlers (bus (after (call h event w))) !! ty = Some (Set_delete s h).

End Dispatch.

Arguments mkEvent {Data} _ _ _.
Arguments type {Data} _.
Arguments timestamp {Data} _.
Arguments data {Data} _.
Arguments mkWorld {App} _ _.
Arguments bus {App} _.
Arguments app {App} _.
Arguments Normal {Err S} _.
Arguments Throw {Err S} _ _.
Arguments mkRun {Data App Err} _ _ _.
Arguments world {Data App Err} _.
Arguments console {Data App Err} _.
Arguments invoked {Data App Err} _.
Arguments invoke {Data App Err} _ _ _ _.
Arguments console_error {Data App Err} _ _ _.
Arguments try_catch {Err S} _ _.
Arguments iterate {Data App Err} _ _ _ _ _ _.
Arguments emit {Data App Err} _ _ _ _ _ _.
Arguments after {Err S} _.
Arguments keeps_handlers {Data App Err} _ _ _.
Arguments unsubscribes_only_itself {Data App Err} _ _ _.
Arguments onceWrapper {Data App Err} _ _ _ _ _ _.
Arguments quiet {Data App Err} _ _ _ _.
Arguments same_dispatch {Data App Err} _ _.

End EventBus.

(* ===================================================================== *)
(** * core/store.ts : SQLiteStore                                         *)
(* ===================================================================== *)

Module Store.

(** A row of table [orders]: an order request with its id and status. *)
Record OrderRow := mkOrder {
  orderId : string;
  request : OrderRequest.t;
  status : string
}.

(** A row of table [trades], the columns [getDailyPnl] reads. *)
Record TradeRow := mkTrade {
  id : string;
  strategyId : string;
  trade_side : Side;
  trade_size : R;
  trade_price : R;
  match_time : string
}.

(** The three tables, each keyed by its PRIMARY KEY. *)
Record t := mk {
  positions : gmap string Position.t;
  orders : gmap string OrderRow;
  trades : gmap string TradeRow
}.

Definition empty : t := mk ∅ ∅ ∅.

(** INSERT OR REPLACE INTO positions, keyed by token_id. *)
Definition savePosition (s : t) (p : Position.t) : t :=
  mk (<[Position.tokenId p := p]> (positions s)) (orders s) (trades s).

(** SELECT * FROM positions WHERE token_id = ? *)
Definition getPosition (s : t) (tokenId : string) : option Position.t :=
  positions s !! tokenId.

(** SELECT * FROM positions WHERE size != 0 *)
Definition getAllPositions (s : t) : list Position.t :=
  filter (λ p, Position.size p ≠ 0) (map_to_list (positions s)).*2.

(** INSERT OR REPLACE INTO orders, keyed by order_id. *)
Definition saveOrder (s : t) (o : OrderRow) : t :=
  mk (positions s) (<[orderId o := o]> (orders s)) (trades s).

(** UPDATE orders SET status = ? WHERE order_id = ? *)
Definition updateOrderStatus (s : t) (oid status' : string) : t :=
  mk (positions s)
     (alter (λ o, mkOrder (orderId o) (request o) status') oid (orders s))
     (trades s).

Definition isLive (o : OrderRow) : bool :=
  bool_decide (status o = "pending"%string ∨ status o = "open"%string).

(** SELECT * FROM orders WHERE status IN ('pending', 'open') *)
Definition getOpenOrders (s : t) : list OrderRow :=
  filter (λ o, isLive o = true) (map_to_list (orders s)).*2.

(** INSERT OR REPLACE INTO trades, keyed by id. *)
Definition saveTrade (s : t) (tr : TradeRow) : t :=
  mk (positions s) (orders s) (<[id tr := tr]> (trades s)).

(** CASE WHEN side = 'BUY' THEN -(size * price) ELSE (size * price) END *)
Definition tradeCashFlow (tr : TradeRow) : R :=
  match trade_side tr with
  | BUY => - (trade_size tr * trade_price tr)
  | SELL => trade_size tr * trade_price tr
  end.

(** SELECT COALESCE(SUM(...), 0) FROM trades WHERE DATE(match_time) = ? *)
Definition getDailyPnl (B : Builtins) (s : t) (dateStr : string) : R :=
  foldr Rplus 0
    (tradeCashFlow <$>
       filter (λ tr, sqlite_DATE B (match_time tr) = Some dateStr)
              (map_to_list (trades s)).*2).

End Store.

(* ===================================================================== *)
(** * services/risk-manager.ts : RiskManager                              *)
(* ===================================================================== *)

Module RiskManager.

(** The mutable fields of the class; [store] and [events] are shared
    objects and are passed to each method. *)
Record t := mk {
  limits : RiskLimits.t;
  halted : bool;
  haltReason : option string
}.

Definition create (limits : RiskLimits.t) : t := mk limits false None.

Record CheckResult := mkCheck {
  allowed : bool;
  reason : option string
}.

Definition isHalted (rm : t) : bool := halted rm.

(** [`${this.haltReason}`] : an unset reason prints as "undefined". *)
Definition haltReasonText (rm : t) : string :=
  default "undefined"%string (haltReason rm).

Definition positionValue (pos : Position.t) : R :=
  Math_abs (Position.size pos * Position.currentPrice pos).

Definition orderValueOf (o : Store.OrderRow) : R :=
  OrderRequest.price (Store.request o) * OrderRequest.size (Store.request o).

(** The two loops of [getExposure], on the accumulator
    [(total, byToken)]. *)
Definition addPosition (acc : R * gmap string R) (pos : Position.t)
  : R * gmap string R :=
  let value := positionValue pos in
  (acc.1 + value, <[Position.tokenId pos := value]> acc.2).

Definition addOpenOrder (acc : R * gmap string R) (o : Store.OrderRow)
  : R * gmap string R :=
  let value := orderValueOf o in
  let tok := OrderRequest.tokenId (Store.request o) in
  let current := default 0 (acc.2 !! tok) in
  (acc.1 + value, <[tok := current + value]> acc.2).

Definition getExposure (store : Store.t) : R * gmap string R :=
  let afterPositions :=
    fold_left addPosition (Store.getAllPositions store) (0, ∅) in
  fold_left addOpenOrder (Store.getOpenOrders store) afterPositions.

Definition getDailyPnl (B : Builtins) (clk : Clock) (store : Store.t) : R :=
  Store.getDailyPnl B store (isoDay clk).

Definition halt (clk : Clock) (rm : t) (why : string)
  : t * list Emission :=
  (mk (limits rm) true (Some why),
   [(risk_breach, RiskBreachData why (Date_now clk))]).

Definition resume (rm : t) : t := mk (limits rm) false None.

Definition updateLimits (rm : t) (l : RiskLimits.t) : t :=
  mk l (halted rm) (haltReason rm).

Definition checkOrder (B : Builtins) (clk : Clock) (rm : t)
    (store : Store.t) (order : OrderRequest.t)
  : CheckResult * t * list Emission :=
  let L := limits rm in
  if halted rm then
    (mkCheck false (Some ("Trading halted: " +:+ haltReasonText rm)), rm, [])
  else
    let orderValue := OrderRequest.price order * OrderRequest.size order in
    if decide (orderValue > RiskLimits.maxPositionSize L) then
      (mkCheck false
         (Some ("Order value " +:+ Number_toString B orderValue
                +:+ " exceeds max position size "
                +:+ Number_toString B (RiskLimits.maxPositionSize L))),
       rm, [])
    else
      let exposure := getExposure store in
      if decide (exposure.1 + orderValue > RiskLimits.maxTotalExposure L) then
        (mkCheck false
           (Some ("Would exceed max total exposure "
                  +:+ Number_toString B (RiskLimits.maxTotalExposure L))),
         rm, [])
      else
        let openOrders := Store.getOpenOrders store in
        if decide (INR (length openOrders) >= RiskLimits.maxOpenOrders L) then
          (mkCheck false
             (Some ("Max open orders ("
                    +:+ Number_toString B (RiskLimits.maxOpenOrders L)
                    +:+ ") reached")),
           rm, [])
        else
          let dailyPnl := getDailyPnl B clk store in
          if decide (dailyPnl < - RiskLimits.maxDailyLoss L) then
            let '(rm', es) := halt clk rm "Daily loss limit exceeded" in
            (mkCheck false
               (Some ("Daily loss limit ("
                      +:+ Number_toString B (RiskLimits.maxDailyLoss L)
                      +:+ ") exceeded")),
             rm', es)
          else
            (mkCheck true None, rm, []).

End RiskManager.

(* ===================================================================== *)
(** * services/order-manager.ts : OrderManager                            *)
(* ===================================================================== *)

Module OrderManager.

(** The exchange client is an external collaborator: its answers are
    inputs, and the calls made to it are recorded. *)
Record Client := mkClient {
  placeOrder : OrderRequest.t → OrderResult.t;
  cancelOrder_remote : string → bool;
  cancelAllOrders_remote : bool;
  getOpenOrders_remote : list string
}.

Inductive ClientCall :=
| PlaceOrderCall (order : OrderRequest.t)
| CancelOrderCall (orderId : string)
| CancelAllCall
| GetOpenOrdersCall.

(** The objects an order manager holds references to and may change. *)
Record World := mkWorld {
  store : Store.t;
  riskManager : RiskManager.t
}.

(** What a method leaves behind: its return value, the objects after
    the call, the events emitted and the client calls made, in order. *)
Record Outcome (A : Type) := mkOutcome {
  value : A;
  world : World;
  emitted : list Emission;
  called : list ClientCall
}.
Arguments mkOutcome {A} _ _ _ _.
Arguments value {A} _.
Arguments world {A} _.
Arguments emitted {A} _.
Arguments called {A} _.

(** [side === Side.BUY ? size : -size] *)
Definition signedFill (side : Side) (size : R) : R :=
  match side with BUY => size | SELL => - size end.

(** The position [updatePosition] computes, before it sets
    [unrealizedPnl]. *)
Definition nextPosition (existing : option Position.t)
    (tokenId : string) (side : Side) (size price : R) : Position.t :=
  let opened :=
    Position.mk tokenId EmptyString (signedFill side size) price price 0 0 side in
  match existing with
  | None => opened
  | Some ex =>
    if decide (Position.size ex = 0) then opened
    else
      let isSameSide :=
        bool_decide (Position.side ex = BUY ∧ side = BUY) ||
        bool_decide (Position.side ex = SELL ∧ side = SELL) in
      if isSameSide then
        let totalSize := Position.size ex + signedFill side size in
        let totalCost :=
          Position.size ex * Position.avgEntryPrice ex + size * price in
        Position.mk (Position.tokenId ex) (Position.market ex)
          totalSize
          (totalCost / Math_abs totalSize)
          price
          (Position.unrealizedPnl ex)
          (Position.realizedPnl ex)
          (Position.side ex)
      else
        let netSize := Position.size ex + signedFill side size in
        let realizedPnl :=
          Position.realizedPnl ex
          + (size * (price - Position.avgEntryPrice ex))
            * (match Position.side ex with BUY => 1 | SELL => -1 end) in
        Position.mk (Position.tokenId ex) (Position.market ex)
          netSize
          (Position.avgEntryPrice ex)
          price
          (Position.unrealizedPnl ex)
          realizedPnl
          (if decide (netSize >= 0) then BUY else SELL)
  end.

(** [newPosition.unrealizedPnl = (currentPrice - avgEntryPrice) * size] *)
Definition markUnrealized (p : Position.t) : Position.t :=
  Position.mk (Position.tokenId p) (Position.market p) (Position.size p)
    (Position.avgEntryPrice p) (Position.currentPrice p)
    ((Position.currentPrice p - Position.avgEntryPrice p) * Position.size p)
    (Position.realizedPnl p) (Position.side p).

Definition updatePosition (st : Store.t)
    (tokenId : string) (side : Side) (size price : R)
  : Store.t * list Emission :=
  let existing := Store.getPosition st tokenId in
  let newPosition :=
    markUnrealized (nextPosition existing tokenId side size price) in
  (Store.savePosition st newPosition,
   [(position_changed, PositionChangedData tokenId newPosition)]).

(** [result.success && result.orderId] : an id that is set and not the
    empty string. *)
Definition placedId (result : OrderResult.t) : option string :=
  if OrderResult.success result then
    match OrderResult.orderId result with
    | Some oid => if decide (oid = EmptyString) then None else Some oid
    | None => None
    end
  else None.

(** [result.filledSize && result.filledSize > 0] *)
Definition filledAmount (result : OrderResult.t) : option R :=
  match OrderResult.filledSize result with
  | Some f => if decide (f > 0) then Some f else None
  | None => None
  end.

Definition submitOrder (B : Builtins) (clk : Clock) (dryRun : bool)
    (client : Client) (w : World) (order : OrderRequest.t)
  : Outcome OrderResult.t :=
  let '(riskCheck, rm', riskEvents) :=
    RiskManager.checkOrder B clk (riskManager w) (store w) order in
  let w1 := mkWorld (store w) rm' in
  if negb (RiskManager.allowed riskCheck) then
    mkOutcome
      (OrderResult.mk false None (RiskManager.reason riskCheck) None None)
      w1 riskEvents []
  else if dryRun then
    let orderId := ("dry-" +:+ pretty (Date_now clk))%string in
    mkOutcome (OrderResult.mk true (Some orderId) None None None)
      w1 riskEvents []
  else
    let result := placeOrder client order in
    match placedId result with
    | Some oid =>
      let st1 := Store.saveOrder (store w1) (Store.mkOrder oid order "open") in
      let ev1 := [(order_filled, OrderFilledData oid order result)] in
      match filledAmount result with
      | Some filled =>
        let '(st2, ev2) :=
          updatePosition st1 (OrderRequest.tokenId order)
            (OrderRequest.side order) filled
            (default (OrderRequest.price order)
                     (OrderResult.avgFillPrice result)) in
        mkOutcome result (mkWorld st2 rm') (riskEvents ++ ev1 ++ ev2)
          [PlaceOrderCall order]
      | None =>
        mkOutcome result (mkWorld st1 rm') (riskEvents ++ ev1)
          [PlaceOrderCall order]
      end
    | None => mkOutcome result w1 riskEvents [PlaceOrderCall order]
    end.

Definition cancelOrder (dryRun : bool) (client : Client) (w : World)
    (orderId : string) : Outcome bool :=
  if dryRun then mkOutcome true w [] []
  else
    let success := cancelOrder_remote client orderId in
    if success then
      mkOutcome true
        (mkWorld (Store.updateOrderStatus (store w) orderId "cancelled")
                 (riskManager w))
        [(order_cancelled, OrderCancelledData orderId)]
        [CancelOrderCall orderId]
    else mkOutcome false w [] [CancelOrderCall orderId].

Definition cancelAllOrders (dryRun : bool) (client : Client) (w : World)
  : Outcome bool :=
  if dryRun then mkOutcome true w [] []
  else
    let success := cancelAllOrders_remote client in
    if success then
      let st' :=
        fold_left
          (λ st o, Store.updateOrderStatus st (Store.orderId o) "cancelled")
          (Store.getOpenOrders (store w)) (store w) in
      mkOutcome true (mkWorld st' (riskManager w)) [] [CancelAllCall]
    else mkOutcome false w [] [CancelAllCall].

Definition syncOrders (client : Client) (w : World) : Outcome unit :=
  let remoteIds := getOpenOrders_remote client in
  let st' :=
    fold_left
      (λ st local,
         if bool_decide (Store.orderId local ∈ remoteIds) then st
         else Store.updateOrderStatus st (Store.orderId local)
                "filled_or_cancelled")
      (Store.getOpenOrders (store w)) (store w) in
  mkOutcome tt (mkWorld st' (riskManager w)) [] [GetOpenOrdersCall].

(** The view [getOpenOrders] gives of the live rows. *)
Definition getOpenOrders (w : World)
  : list (string * string * Side * R * R) :=
  (λ o, (Store.orderId o,
         OrderRequest.tokenId (Store.request o),
         OrderRequest.side (Store.request o),
         OrderRequest.price (Store.request o),
         OrderRequest.size (Store.request o)))
    <$> Store.getOpenOrders (store w).

Definition getPosition (w : World) (tokenId : string) : option Position.t :=
  Store.getPosition (store w) tokenId.

Definition getAllPositions (w : World) : list Position.t :=
  Store.getAllPositions (store w).

End OrderManager.

(* ===================================================================== *)
(** * services/gamma.ts : GammaService                                    *)
(* ===================================================================== *)

Module Gamma.

Record GammaMarket := mkMarket {
  conditionId : string;
  question : string;
  (** JSON text of an array of token ids *)
  clobTokenIds : string;
  active : bool;
  closed : bool
}.

(** [markets] is [None] when the field is absent from the payload
    (the code tests [!event.markets]). *)
Record GammaEvent := mkEvent {
  id : string;
  title : string;
  slug : string;
  negRisk : bool;
  markets : option (list GammaMarket)
}.

(** try { return JSON.parse(raw) } catch { return [] } *)
Definition parseClobTokenIds (B : Builtins) (raw : string) : list string :=
  default [] (JSON_parse B raw).

(** The inner loop of the neg-risk branch: the first parsed token of
    every sub-market that has one. *)
Fixpoint yesTokens (B : Builtins) (ms : list GammaMarket) : list string :=
  match ms with
  | [] => []
  | market :: rest =>
    match parseClobTokenIds B (clobTokenIds market) with
    | yes :: _ => yes :: yesTokens B rest
    | [] => yesTokens B rest
    end
  end.

(** One iteration of the loop over events: the group pushed, if any. *)
Definition extractGroup (B : Builtins) (event : GammaEvent)
  : option MarketGroup.t :=
  match markets event with
  | None => None
  | Some [] => None
  | Some ((first :: _) as ms) =>
    if negRisk event && bool_decide (1 < length ms)%nat then
      let tokenIds := yesTokens B ms in
      if decide (2 ≤ length tokenIds)%nat
      then Some (MarketGroup.mk (conditionId first) tokenIds)
      else None
    else if decide (length ms = 1%nat) then
      let clobTokenIds := parseClobTokenIds B (clobTokenIds first) in
      if decide (length clobTokenIds = 2%nat)
      then Some (MarketGroup.mk (conditionId first) clobTokenIds)
      else None
    else None
  end.

Definition extractMarketGroups (B : Builtins) (events : list GammaEvent)
  : list MarketGroup.t :=
  omap (extractGroup B) events.

(** [Array.prototype.sort()] with the default comparator on strings
    (order of code units), as an insertion sort. *)
Fixpoint insertSorted (x : string) (l : list string) : list string :=
  match l with
  | [] => [x]
  | y :: rest =>
    if String.leb x y then x :: l else y :: insertSorted x rest
  end.

Definition Array_sort (l : list string) : list string :=
  foldr insertSorted [] l.

(** [Array.prototype.join(sep)] *)
Definition Array_join (sep : string) (l : list string) : string :=
  String.concat sep l.

(** groups.map(g => `${g.conditionId}:${g.tokenIds.join(",")}`)
          .sort().join(";") *)
Definition serialize (groups : list MarketGroup.t) : string :=
  Array_join ";"
    (Array_sort
       ((λ g, MarketGroup.conditionId g +:+ ":"
              +:+ Array_join "," (MarketGroup.tokenIds g)) <$> groups)).

(** The service's mutable field. *)
Record t := mk { currentGroups : list MarketGroup.t }.

Definition create : t := mk [].

Definition hasChanged (svc : t) (newGroups : list MarketGroup.t) : bool :=
  if decide (length newGroups ≠ length (currentGroups svc)) then true
  else bool_decide (serialize newGroups ≠ serialize (currentGroups svc)).

(** What [fetch(url)] followed by [response.json()] came to. *)
Inductive FetchResult :=
| NetworkFailure (message : string)
| HttpError (status : Z) (statusText : string)
| MalformedBody (message : string)
| Body (events : list GammaEvent).

(** [None] : the promise rejects. *)
Definition fetchMarketGroups (B : Builtins) (r : FetchResult)
  : option (list MarketGroup.t) :=
  match r with
  | Body events => Some (extractMarketGroups B events)
  | _ => None
  end.

Definition fetchAndUpdate (B : Builtins) (svc : t) (r : FetchResult)
  : t * list Emission :=
  match fetchMarketGroups B r with
  | Some groups =>
    if hasChanged svc groups then
      (mk groups, [(market_groups_updated, MarketGroupsUpdatedData groups)])
    else (svc, [])
  | None => (svc, [])
  end.

Definition getMarketGroups (svc : t) : list MarketGroup.t :=
  currentGroups svc.

(** Two refreshes in a row that receive the same catalog. *)
Definition refreshTwice (B : Builtins) (svc : t) (events : list GammaEvent)
  : t * list Emission :=
  let '(svc1, es1) := fetchAndUpdate B svc (Body events) in
  let '(svc2, es2) := fetchAndUpdate B svc1 (Body events) in
  (svc2, es1 ++ es2).

(** How many times [market_groups_updated] occurs among emissions. *)
Definition updatesEmitted (es : list Emission) : nat :=
  length (filter (λ e, e.1 = market_groups_updated) es).

End Gamma.

(* ===================================================================== *)
(** * strategies/bregman-arb.ts : BregmanArbStrategy                      *)
(* ===================================================================== *)

Module BregmanArb.

Record Config := mkConfig {
  divergenceThreshold : R;
  orderSize : R;
  maxPositionSize : R;
  minEdge : R;
  feeRate : R;
  maxStalenessMs : R;
  statsIntervalMs : R
}.

(** The defaults of the constructor. *)
Definition defaultConfig : Config :=
  mkConfig 0.05 10 50 0.01 0.02 5000 30000.

Record Stats := mkStats {
  evaluations : nat;
  skippedNoGroup : nat;
  skippedMissingBook : nat;
  skippedStaleBook : nat;
  simpleArbSignals : nat;
  bregmanArbSignals : nat;
  noArbFound : nat
}.

Definition noStats : Stats := mkStats 0 0 0 0 0 0 0.

(** The mutable fields of the strategy. *)
Record t := mk {
  enabled : bool;
  config : Config;
  marketGroups : list MarketGroup.t;
  tokenToGroup : gmap string MarketGroup.t;
  stats : Stats
}.

(** for (const group of groups)
      for (const tokenId of group.tokenIds)
        this.tokenToGroup.set(tokenId, group) *)
Definition indexGroup (index : gmap string MarketGroup.t)
    (group : MarketGroup.t) : gmap string MarketGroup.t :=
  fold_left (λ idx tokenId, <[tokenId := group]> idx)
    (MarketGroup.tokenIds group) index.

Definition indexGroups (groups : list MarketGroup.t)
  : gmap string MarketGroup.t :=
  fold_left indexGroup groups ∅.

Definition create (groups : list MarketGroup.t) (cfg : Config) : t :=
  mk true cfg groups (indexGroups groups) noStats.

Definition updateMarketGroups (st : t) (groups : list MarketGroup.t) : t :=
  mk (enabled st) (config st) groups (indexGroups groups) (stats st).

Definition withStats (st : t) (s : Stats) : t :=
  mk (enabled st) (config st) (marketGroups st) (tokenToGroup st) s.

(** What the strategy reads through its context: the order-book cache
    of the market data service and the positions of the order manager
    (which reads them from the store). *)
Record Context := mkContext {
  orderBooks : gmap string OrderBook.t;
  store : Store.t
}.

(** [position?.size ?? 0] *)
Definition currentSizeOf (ctx : Context) (tokenId : string) : R :=
  match Store.getPosition (store ctx) tokenId with
  | Some position => Position.size position
  | None => 0
  end.

(** The first loop of [evaluate]. *)
Inductive Gathered :=
| MissingBook (sibling : string)
| StaleBook (sibling : string)
| Books (books : gmap string OrderBook.t).

Fixpoint gatherBooks (cfg : Config) (ctx : Context) (now : Z)
    (tokenId : string) (orderBook : OrderBook.t)
    (siblings : list string) (books : gmap string OrderBook.t) : Gathered :=
  match siblings with
  | [] => Books books
  | siblingId :: rest =>
    let found :=
      if decide (siblingId = tokenId) then Some orderBook
      else orderBooks ctx !! siblingId in
    match found with
    | None => MissingBook siblingId
    | Some book =>
      let staleness := IZR (now - OrderBook.timestamp book) in
      if decide (staleness > maxStalenessMs cfg) then StaleBook siblingId
      else gatherBooks cfg ctx now tokenId orderBook rest
             (<[siblingId := book]> books)
    end
  end.

(** The first loop of [checkSimpleArb], on
    [(askSum, askPrices, askSizes)]. *)
Inductive AskScan :=
| NoSuchBook       (** [books.get(tokenId)!] on a missing key *)
| EmptyAsks        (** [return []] *)
| Asks (askSum : R) (askPrices askSizes : gmap string R).

Fixpoint scanAsks (books : gmap string OrderBook.t) (tokenIds : list string)
    (askSum : R) (askPrices askSizes : gmap string R) : AskScan :=
  match tokenIds with
  | [] => Asks askSum askPrices askSizes
  | tokenId :: rest =>
    match books !! tokenId with
    | None => NoSuchBook
    | Some book =>
      match OrderBook.asks book with
      | [] => EmptyAsks
      | bestAsk :: _ =>
        scanAsks books rest
          (askSum + PriceLevel.price bestAsk)
          (<[tokenId := PriceLevel.price bestAsk]> askPrices)
          (<[tokenId := PriceLevel.size bestAsk]> askSizes)
      end
    end
  end.

(** The second loop of [checkSimpleArb]: the cap by the remaining
    capacity of every token. *)
Definition capByPositions (cfg : Config) (ctx : Context)
    (tokenIds : list string) (size : R) : R :=
  fold_left
    (λ size tokenId,
       let currentSize := currentSizeOf ctx tokenId in
       let remaining := maxPositionSize cfg - currentSize in
       Math_min2 size remaining)
    tokenIds size.

(** A method's result is [None] when the code would leave its typed
    domain (a property read on [undefined]); the statements below show
    that this does not happen on the states the strategy builds. *)
Definition checkSimpleArb (B : Builtins) (cfg : Config) (ctx : Context)
    (group : MarketGroup.t) (books : gmap string OrderBook.t)
  : option (list TradeSignal.t) :=
  match scanAsks books (MarketGroup.tokenIds group) 0 ∅ ∅ with
  | NoSuchBook => None
  | EmptyAsks => Some []
  | Asks askSum askPrices askSizes =>
    let totalCost := askSum * (1 + feeRate cfg) in
    let edge := 1 - totalCost in
    if decide (edge < minEdge cfg) then Some []
    else
      let minLiquidity := Math_min_spread (map_to_list askSizes).*2 in
      let size := Math_min_with_inf (orderSize cfg) minLiquidity in
      let size := capByPositions cfg ctx (MarketGroup.tokenIds group) size in
      if decide (size <= 0) then Some []
      else
        mapM (λ tokenId,
                targetPrice ← askPrices !! tokenId;
                Some (TradeSignal.mk tokenId BUY
                        (Math_min_inf (Number_div edge (minEdge cfg)) 1)
                        targetPrice size
                        ("Simple arb: askSum=" +:+ Number_toFixed B askSum 4
                         +:+ " edge=" +:+ Number_toFixed B (edge * 100) 2
                         +:+ "%")))
             (MarketGroup.tokenIds group)
  end.

(** The loop computing [klDiv]; [None] is the [return []] on a
    degenerate probability. *)
Fixpoint klLoop (uniform : R) (impliedProbs : list R) (klDiv : R)
  : option R :=
  match impliedProbs with
  | [] => Some klDiv
  | q :: rest =>
    if decide (q <= 0) then None
    else klLoop uniform rest (klDiv + uniform * ln (uniform / q))
  end.

(** for (let i = 1; i < n; i++)
      if (impliedProbs[i] < impliedProbs[minProbIdx]) minProbIdx = i *)
Definition findMinProbIdx (impliedProbs : list R) : nat :=
  fold_left
    (λ minProbIdx i,
       if decide (nth i impliedProbs 0 < nth minProbIdx impliedProbs 0)
       then i else minProbIdx)
    (seq 1 (length impliedProbs - 1)) 0%nat.

Definition checkBregmanArb (B : Builtins) (cfg : Config) (ctx : Context)
    (group : MarketGroup.t) (books : gmap string OrderBook.t)
  : option (list TradeSignal.t) :=
  let tokenIds := MarketGroup.tokenIds group in
  let n := length tokenIds in
  midPrices ← mapM (λ id, OrderBook.midPrice <$> books !! id) tokenIds;
  let priceSum := fold_left Rplus midPrices 0 in
  if decide (priceSum = 0) then Some []
  else
    let impliedProbs := (λ p, p / priceSum) <$> midPrices in
    let uniform := 1 / INR n in
    match klLoop uniform impliedProbs 0 with
    | None => Some []
    | Some klDiv =>
      if decide (klDiv < divergenceThreshold cfg) then Some []
      else
        let minProbIdx := findMinProbIdx impliedProbs in
        targetTokenId ← tokenIds !! minProbIdx;
        book ← books !! targetTokenId;
        let currentSize := currentSizeOf ctx targetTokenId in
        if decide (currentSize >= maxPositionSize cfg) then Some []
        else
          let sizeMultiplier :=
            Math_min_inf (Number_div klDiv (divergenceThreshold cfg)) 2 in
          let availableLiquidity :=
            match OrderBook.asks book with
            | best :: _ => PriceLevel.size best
            | [] => 0
            end in
          let remainingCapacity := maxPositionSize cfg - currentSize in
          let size :=
            Math_min3 (orderSize cfg * sizeMultiplier)
              availableLiquidity remainingCapacity in
          if decide (size <= 0) then Some []
          else
            let targetPrice :=
              match OrderBook.asks book with
              | best :: _ => PriceLevel.price best
              | [] => OrderBook.midPrice book
              end in
            let confidence :=
              Math_min_inf
                (Number_div klDiv (divergenceThreshold cfg * 2)) 1 in
            Some [TradeSignal.mk targetTokenId BUY confidence targetPrice
                    size
                    ("Bregman projection: KL=" +:+ Number_toFixed B klDiv 4
                     +:+ " underpriced=" +:+ substring 0 8 targetTokenId)]
    end.

Definition countEvaluation (s : Stats) : Stats :=
  mkStats (S (evaluations s)) (skippedNoGroup s) (skippedMissingBook s)
    (skippedStaleBook s) (simpleArbSignals s) (bregmanArbSignals s)
    (noArbFound s).
Definition countNoGroup (s : Stats) : Stats :=
  mkStats (evaluations s) (S (skippedNoGroup s)) (skippedMissingBook s)
    (skippedStaleBook s) (simpleArbSignals s) (bregmanArbSignals s)
    (noArbFound s).
Definition countMissingBook (s : Stats) : Stats :=
  mkStats (evaluations s) (skippedNoGroup s) (S (skippedMissingBook s))
    (skippedStaleBook s) (simpleArbSignals s) (bregmanArbSignals s)
    (noArbFound s).
Definition countStaleBook (s : Stats) : Stats :=
  mkStats (evaluations s) (skippedNoGroup s) (skippedMissingBook s)
    (S (skippedStaleBook s)) (simpleArbSignals s) (bregmanArbSignals s)
    (noArbFound s).
Definition countSimpleArb (k : nat) (s : Stats) : Stats :=
  mkStats (evaluations s) (skippedNoGroup s) (skippedMissingBook s)
    (skippedStaleBook s) (simpleArbSignals s + k) (bregmanArbSignals s)
    (noArbFound s).
Definition countBregmanArb (k : nat) (s : Stats) : Stats :=
  mkStats (evaluations s) (skippedNoGroup s) (skippedMissingBook s)
    (skippedStaleBook s) (simpleArbSignals s) (bregmanArbSignals s + k)
    (noArbFound s).
Definition countNoArb (s : Stats) : Stats :=
  mkStats (evaluations s) (skippedNoGroup s) (skippedMissingBook s)
    (skippedStaleBook s) (simpleArbSignals s) (bregmanArbSignals s)
    (S (noArbFound s)).

Definition evaluate (B : Builtins) (ctx : Context) (now : Z) (st : t)
    (tokenId : string) (orderBook : OrderBook.t)
  : option (list TradeSignal.t * t) :=
  let s1 := countEvaluation (stats st) in
  if negb (enabled st) then Some ([], withStats st s1)
  else
    match tokenToGroup st !! tokenId with
    | None => Some ([], withStats st (countNoGroup s1))
    | Some group =>
      match gatherBooks (config st) ctx now tokenId orderBook
              (MarketGroup.tokenIds group) ∅ with
      | MissingBook _ => Some ([], withStats st (countMissingBook s1))
      | StaleBook _ => Some ([], withStats st (countStaleBook s1))
      | Books books =>
        simpleArbSignals ← checkSimpleArb B (config st) ctx group books;
        if decide (0 < length simpleArbSignals)%nat then
          Some (simpleArbSignals,
                withStats st (countSimpleArb (length simpleArbSignals) s1))
        else
          bregmanSignals ← checkBregmanArb B (config st) ctx group books;
          if decide (0 < length bregmanSignals)%nat then
            Some (bregmanSignals,
                  withStats st
                    (countBregmanArb (length bregmanSignals) s1))
          else Some (bregmanSignals, withStats st (countNoArb s1))
      end
    end.

End BregmanArb.


(* ===================================================================== *)
(** * strategies/base.ts : BaseStrategy                                   *)
(* ===================================================================== *)

Module BaseStrategy.

Record StrategyMetrics := mkMetrics {
  totalTrades : nat;
  winningTrades : nat;
  losingTrades : nat;
  totalPnl : R;
  sharpeRatio : R;
  maxDrawdown : R
}.

(** The mutable fields of the class. *)
Record t := mk {
  enabled : bool;
  metrics : StrategyMetrics;
  pnlHistory : list R;
  peakPnl : R
}.

(** The field initialisers. *)
Definition create : t := mk true (mkMetrics 0 0 0 0 0 0) [] 0.

Definition onOrderFilled (st : t) : t :=
  let m := metrics st in
  mk (enabled st)
     (mkMetrics (S (totalTrades m)) (winningTrades m) (losingTrades m)
        (totalPnl m) (sharpeRatio m) (maxDrawdown m))
     (pnlHistory st) (peakPnl st).

Definition updateSharpe (st : t) : t :=
  if decide (length (pnlHistory st) < 2)%nat then st
  else
    let n := INR (length (pnlHistory st)) in
    let mean := fold_left (λ a b, a + b) (pnlHistory st) 0 / n in
    let variance :=
      fold_left (λ sum p, sum + (p - mean) ^ 2) (pnlHistory st) 0 / n in
    let stdDev := sqrt variance in
    let m := metrics st in
    mk (enabled st)
       (mkMetrics (totalTrades m) (winningTrades m) (losingTrades m)
          (totalPnl m)
          (if decide (stdDev > 0) then mean / stdDev else 0)
          (maxDrawdown m))
       (pnlHistory st) (peakPnl st).

Definition recordPnl (st : t) (pnl : R) : t :=
  let m := metrics st in
  let history := pnlHistory st ++ [pnl] in
  let total := totalPnl m + pnl in
  let winning :=
    if decide (pnl > 0) then S (winningTrades m) else winningTrades m in
  let losing :=
    if decide (pnl > 0) then losingTrades m
    else if decide (pnl < 0) then S (losingTrades m) else losingTrades m in
  let peak := if decide (total > peakPnl st) then total else peakPnl st in
  let drawdown := peak - total in
  let deepest :=
    if decide (drawdown > maxDrawdown m) then drawdown else maxDrawdown m in
  updateSharpe
    (mk (enabled st)
        (mkMetrics (totalTrades m) winning losing total (sharpeRatio m)
           deepest)
        history peak).

Definition getMetrics (st : t) : StrategyMetrics := metrics st.

Definition enable (st : t) : t :=
  mk true (metrics st) (pnlHistory st) (peakPnl st).

Definition disable (st : t) : t :=
  mk false (metrics st) (pnlHistory st) (peakPnl st).

End BaseStrategy.

(* ===================================================================== *)
(** * services/market-data.ts : MarketDataService                         *)
(* ===================================================================== *)

Module MarketData.

(** [subscriptions] is a Set of token ids, held here as its values in
    insertion order; [orderBooks] is the cache. *)
Record t := mk {
  subscriptions : list string;
  orderBooks : gmap string OrderBook.t
}.

Definition create : t := mk [] ∅.

Definition Set_add (s : list string) (x : string) : list string :=
  if bool_decide (x ∈ s) then s else s ++ [x].

Definition Set_delete (s : list string) (x : string) : list string :=
  filter (λ y, y ≠ x) s.

Definition subscribe (md : t) (tokenIds : list string) : t :=
  mk (fold_left Set_add tokenIds (subscriptions md)) (orderBooks md).

Definition unsubscribe (md : t) (tokenIds : list string) : t :=
  fold_left
    (λ md tokenId,
       mk (Set_delete (subscriptions md) tokenId)
          (delete tokenId (orderBooks md)))
    tokenIds md.

Definition getOrderBook (md : t) (tokenId : string) : option OrderBook.t :=
  orderBooks md !! tokenId.

(** One request of [poll] settling: the book that came back is cached
    and announced with [orderbook_update]; a failed request is logged
    and changes nothing.  [fetch] is what the exchange answers, [None]
    for a rejected promise. *)
Definition settle (fetch : string → option OrderBook.t)
    (acc : t * list (string * OrderBook.t)) (tokenId : string)
  : t * list (string * OrderBook.t) :=
  match fetch tokenId with
  | Some orderBook =>
    (mk (subscriptions acc.1) (<[tokenId := orderBook]> (orderBooks acc.1)),
     acc.2 ++ [(tokenId, orderBook)])
  | None => acc
  end.

(** [poll]: the requests for the subscribed tokens are issued together
    and settle in an order the service does not control, given here by
    [settleOrder].  The result is the service afterwards and the
    payloads of the [orderbook_update] emissions, in order. *)
Definition poll (fetch : string → option OrderBook.t)
    (settleOrder : list string → list string) (md : t)
  : t * list (string * OrderBook.t) :=
  let tokens := subscriptions md in
  if decide (length tokens = 0%nat) then (md, [])
  else fold_left (settle fetch) (settleOrder tokens) (md, []).

End MarketData.

(* ===================================================================== *)
(** * core/engine.ts : TradingBot                                         *)
(* ===================================================================== *)

Module TradingBot.

(** A registered strategy as the engine uses it: its [enabled] flag and
    what [evaluate] answers for a token and a book, [None] when it
    throws.  What the call does to the strategy's own state is not
    the engine's concern. *)
Record Strategy := mkStrategy {
  name : string;
  enabled : bool;
  evaluate : string → OrderBook.t → option (list TradeSignal.t)
}.

(** The fields of the bot that the methods below use; [strategies] is
    the Map of strategies as its values in insertion order. *)
Record t := mk {
  strategies : list Strategy;
  running : bool;
  tokenIds : list string
}.

(** [this.strategies.set(strategy.name, strategy)] *)
Fixpoint Map_set (m : list Strategy) (s : Strategy) : list Strategy :=
  match m with
  | [] => [s]
  | x :: rest =>
    if decide (name x = name s) then s :: rest else x :: Map_set rest s
  end.

Definition registerStrategy (bot : t) (s : Strategy) : t :=
  mk (Map_set (strategies bot) s) (running bot) (tokenIds bot).

Definition setTokens (bot : t) (md : MarketData.t) (ids : list string)
  : t * MarketData.t :=
  (mk (strategies bot) (running bot) ids, MarketData.subscribe md ids).

Definition addTokens (bot : t) (md : MarketData.t) (ids : list string)
  : t * MarketData.t :=
  let newTokens := filter (λ id, id ∉ tokenIds bot) ids in
  if decide (length newTokens = 0%nat) then (bot, md)
  else
    (mk (strategies bot) (running bot) (tokenIds bot ++ newTokens),
     MarketData.subscribe md newTokens).

(** The first loop of [evaluateStrategies]: the signals of the enabled
    strategies, in order, that pass the confidence gate; a strategy
    that throws contributes nothing. *)
Definition collectSignals (strategies : list Strategy)
    (tokenId : string) (orderBook : OrderBook.t) : list TradeSignal.t :=
  strategies ≫= λ strategy,
    if enabled strategy then
      match evaluate strategy tokenId orderBook with
      | Some strategySignals =>
        filter (λ signal, TradeSignal.confidence signal > 0.5) strategySignals
      | None => []
      end
    else [].

(** The order [executeSignal] submits for a signal. *)
Definition orderOf (signal : TradeSignal.t) : OrderRequest.t :=
  OrderRequest.mk (TradeSignal.tokenId signal) (TradeSignal.side signal)
    (TradeSignal.targetPrice signal) (TradeSignal.size signal) GTC None.

(** What the engine makes happen: the [strategy_signal] it emits, and
    the events of the services it calls. *)
Inductive Announcement :=
| SignalAnnounced (signal : TradeSignal.t)
| ServiceEvent (e : Emission).

Record Trace := mkTrace {
  world : OrderManager.World;
  announced : list Announcement;
  called : list OrderManager.ClientCall
}.

(** [executeSignal]; [clk] is the clock as the order manager and the
    risk manager read it during the call. *)
Definition executeSignal (B : Builtins) (clk : Clock) (dryRun : bool)
    (client : OrderManager.Client) (tr : Trace) (signal : TradeSignal.t)
  : Trace :=
  let out :=
    OrderManager.submitOrder B clk dryRun client (world tr) (orderOf signal) in
  mkTrace (OrderManager.world out)
    (announced tr ++ [SignalAnnounced signal]
     ++ (ServiceEvent <$> OrderManager.emitted out))
    (called tr ++ OrderManager.called out).

(** The second loop of [evaluateStrategies]; [clockAt i] is the clock
    during the execution of the signal at position [i]. *)
Fixpoint executeSignals (B : Builtins) (clockAt : nat → Clock)
    (dryRun : bool) (client : OrderManager.Client) (i : nat)
    (signals : list TradeSignal.t) (tr : Trace) : Trace :=
  match signals with
  | [] => tr
  | signal :: rest =>
    executeSignals B clockAt dryRun client (S i) rest
      (executeSignal B (clockAt i) dryRun client tr signal)
  end.

(** One run of [evaluateStrategies], taken on its own. *)
Definition evaluateStrategies (B : Builtins) (clockAt : nat → Clock)
    (dryRun : bool) (client : OrderManager.Client) (bot : t)
    (w : OrderManager.World) (tokenId : string) (orderBook : OrderBook.t)
  : Trace :=
  if RiskManager.isHalted (OrderManager.riskManager w) then mkTrace w [] []
  else
    executeSignals B clockAt dryRun client 0
      (collectSignals (strategies bot) tokenId orderBook)
      (mkTrace w [] []).

End TradingBot.
(* ===================================================================== *)
(** * Specification-level notions for positions                           *)
(* ===================================================================== *)

Module PositionSpec.
Import OrderManager.

(** The size-weighted average entry price the specification gives for
    a fill on the side of the position [P]:
    [(|P.size| * P.avg_entry + size * price) / |new_size|]. *)
Definition weightedAverage (P : Position.t) (size price : R) (newSize : R) : R :=
  (Rabs (Position.size P) * Position.avgEntryPrice P + size * price)
  / Rabs newSize.

(** The row [updatePosition] writes for a fill, given the row it read. *)
Definition filled (existing : option Position.t)
    (tok : string) (side : Side) (size price : R) : Position.t :=
  markUnrealized (nextPosition existing tok side size price).

(** SELL 10 @ 0.40 on a token without position ... *)
Definition short10 : Position.t := filled None "tok" SELL 10 0.40.
(** ... followed by SELL 10 @ 0.60. *)
Definition short20 : Position.t := filled (Some short10) "tok" SELL 10 0.60.

End PositionSpec.

(* ===================================================================== *)
(** * Specification-level notions for the risk gate                       *)
(* ===================================================================== *)

Module RiskSpec.
Import RiskManager.

(** A run of admission checks on one risk manager, each call with its
    own clock reading and view of the store, and no [resume] between
    them: the results, the final manager, every emission in order. *)
Fixpoint checkOrders (B : Builtins) (rm : t)
    (calls : list (Clock * Store.t * OrderRequest.t))
  : list CheckResult * t * list Emission :=
  match calls with
  | [] => ([], rm, [])
  | (clk, store, order) :: rest =>
    let '(res, rm1, es1) := checkOrder B clk rm store order in
    let '(ress, rm2, es2) := checkOrders B rm1 rest in
    (res :: ress, rm2, es1 ++ es2)
  end.

(** The state the daily-loss breach latches. *)
Definition haltedByDailyLoss (rm : t) : t :=
  mk (limits rm) true (Some "Daily loss limit exceeded"%string).

(** The answer of a manager halted by the daily-loss breach. *)
Definition haltedAnswer : CheckResult :=
  mkCheck false (Some "Trading halted: Daily loss limit exceeded"%string).

End RiskSpec.

(* ===================================================================== *)
(** * Specification-level notions for the arbitrage strategy              *)
(* ===================================================================== *)

Module ArbSpec.
Import BregmanArb.

(** Sum and minimum of a collection of numbers. *)
Definition Rsum (l : list R) : R := foldr Rplus 0 l.
Definition Rmin_list (x : R) (l : list R) : R := foldr Rmin x l.

(** A chain of lower bounds under repeated squaring: each number is
    at most the square of the one before it. *)
Fixpoint squares_below (a : R) (l : list R) : Prop :=
  match l with
  | [] => True
  | b :: rest => 0 <= a ∧ b <= a * a ∧ squares_below b rest
  end.

Section Evaluation.
(** One call [evaluate(trigger, triggerBook)] at time [now]. *)
Variables (cfg : Config) (ctx : Context) (now : Z).
Variables (trigger : string) (triggerBook : OrderBook.t).

(** The book the evaluation uses for a token of the group: the
    trigger's own book, or the one cached for a sibling. *)
Definition bookFor (tokenId : string) : option OrderBook.t :=
  if decide (tokenId = trigger) then Some triggerBook
  else orderBooks ctx !! tokenId.

Definition isFresh (book : OrderBook.t) : Prop :=
  ¬ (IZR (now - OrderBook.timestamp book) > maxStalenessMs cfg).

(** Every token of the group has a book, and none is stale. *)
Definition booksUsable (group : MarketGroup.t) : Prop :=
  ∀ tokenId, tokenId ∈ MarketGroup.tokenIds group →
    ∃ book, bookFor tokenId = Some book ∧ isFresh book.

(** A map of gathered books agrees with [bookFor] on some tokens. *)
Definition agreesOn (books : gmap string OrderBook.t)
    (tokenIds : list string) : Prop :=
  ∀ tokenId, tokenId ∈ tokenIds → books !! tokenId = bookFor tokenId.

Definition bestAskOf (tokenId : string) : option PriceLevel.t :=
  bookFor tokenId ≫= λ book, head (OrderBook.asks book).

(** Every token of the group has a non-empty ask side. *)
Definition allHaveAsks (group : MarketGroup.t) : Prop :=
  ∀ tokenId, tokenId ∈ MarketGroup.tokenIds group →
    is_Some (bestAskOf tokenId).

Definition askPriceOf (tokenId : string) : R :=
  default 0 (PriceLevel.price <$> bestAskOf tokenId).

Definition askSizeOf (tokenId : string) : R :=
  default 0 (PriceLevel.size <$> bestAskOf tokenId).

Definition midOf (tokenId : string) : R :=
  default 0 (OrderBook.midPrice <$> bookFor tokenId).

(** S = sum of the best ask prices, E = 1 - S * (1 + fee_rate). *)
Definition askSumOf (group : MarketGroup.t) : R :=
  Rsum (askPriceOf <$> MarketGroup.tokenIds group).

Definition simpleEdge (group : MarketGroup.t) : R :=
  1 - askSumOf group * (1 + feeRate cfg).

Definition remainingCapacity (tokenId : string) : R :=
  maxPositionSize cfg - currentSizeOf ctx tokenId.

(** min(base size, best-ask sizes of the group, remaining capacities
    of the group). *)
Definition basketSize (group : MarketGroup.t) : R :=
  Rmin_list (orderSize cfg)
    ((askSizeOf <$> MarketGroup.tokenIds group)
     ++ (remainingCapacity <$> MarketGroup.tokenIds group)).

(** q_i = mid_i / sum of mids. *)
Definition impliedProb (group : MarketGroup.t) (tokenId : string) : R :=
  midOf tokenId / Rsum (midOf <$> MarketGroup.tokenIds group).

(** D = sum over outcomes of u * ln (u / q_i), with u = 1 / n. *)
Definition klDivergence (group : MarketGroup.t) : R :=
  let u := 1 / INR (length (MarketGroup.tokenIds group)) in
  Rsum ((λ tokenId, u * ln (u / impliedProb group tokenId))
          <$> MarketGroup.tokenIds group).

(** min(base * min(D / threshold, 2), best ask size, remaining
    capacity) for the target token. *)
Definition bregmanSize (group : MarketGroup.t) (tokenId : string) : R :=
  Math_min3
    (orderSize cfg
     * Rmin (klDivergence group / divergenceThreshold cfg) 2)
    (askSizeOf tokenId) (remainingCapacity tokenId).

(** The signal of the simple-arbitrage path for one token. *)
Definition simpleArbSignal (B : Builtins) (group : MarketGroup.t)
    (tokenId : string) : TradeSignal.t :=
  TradeSignal.mk tokenId BUY
    (Rmin (simpleEdge group / minEdge cfg) 1)
    (askPriceOf tokenId)
    (basketSize group)
    ("Simple arb: askSum=" +:+ Number_toFixed B (askSumOf group) 4
     +:+ " edge=" +:+ Number_toFixed B (simpleEdge group * 100) 2
     +:+ "%").

(** The implied probabilities of the group, in its order. *)
Definition impliedProbs (group : MarketGroup.t) : list R :=
  impliedProb group <$> MarketGroup.tokenIds group.

(** The signal of the Bregman path on a target token. *)
Definition bregmanSignal (B : Builtins) (group : MarketGroup.t)
    (tokenId : string) : TradeSignal.t :=
  TradeSignal.mk tokenId BUY
    (Rmin (klDivergence group / (2 * divergenceThreshold cfg)) 1)
    (askPriceOf tokenId)
    (bregmanSize group tokenId)
    ("Bregman projection: KL=" +:+ Number_toFixed B (klDivergence group) 4
     +:+ " underpriced=" +:+ substring 0 8 tokenId).

End Evaluation.

(** The reverse index sends a token to a group that lists it, as the
    index built by the constructor and [updateMarketGroups] does. *)
Definition indexSound (st : t) : Prop :=
  ∀ tokenId group,
    tokenToGroup st !! tokenId = Some group →
    tokenId ∈ MarketGroup.tokenIds group.

End ArbSpec.

(* ===================================================================== *)
(** * Sample data                                                         *)
(* ===================================================================== *)

Module Sample.

(** The double-quote character. *)
Definition dq : string := String (Ascii.ascii_of_nat 34) EmptyString.

(** The text of the JSON array of the two strings token-a, token-b. *)
Definition tokenPairJson : string :=
  "[" +:+ dq +:+ "token-a" +:+ dq +:+ "," +:+ dq +:+ "token-b" +:+ dq +:+ "]".

(** A runtime for the examples: ISO timestamps, whose first ten
    characters are the day; numbers print as a placeholder; a payload
    is either the one well-formed array above or unparseable. *)
Definition builtins : Builtins := {|
  Number_toString := λ _, "#"%string;
  Number_toFixed := λ _ _, "#"%string;
  JSON_parse := λ raw,
    if decide (raw = tokenPairJson) then Some ["token-a"; "token-b"]%string
    else None;
  sqlite_DATE := λ s, Some (substring 0 10 s)
|}.

Definition clock : Clock :=
  {| Date_now := 1700000000000; isoDay := "2023-11-14" |}.

(** The limits of the risk manager's test suite. *)
Definition limits : RiskLimits.t :=
  RiskLimits.mk 100 500 10 50 5.

Definition order : OrderRequest.t :=
  OrderRequest.mk "token-1" BUY 0.5 10 GTC None.

(** One trade today, BUY 100 @ 0.60: a daily PnL of -60. *)
Definition losingTrade : Store.TradeRow :=
  Store.mkTrade "trade-1" "s" BUY 100 0.6 "2023-11-14T22:13:20.000Z".

Definition losingStore : Store.t := Store.saveTrade Store.empty losingTrade.

Definition client : OrderManager.Client :=
  OrderManager.mkClient
    (λ _, OrderResult.mk true (Some "mock-1"%string) None None None)
    (λ _, true) true [].

Definition freshWorld : OrderManager.World :=
  OrderManager.mkWorld Store.empty (RiskManager.create limits).

Definition losingWorld : OrderManager.World :=
  OrderManager.mkWorld losingStore (RiskManager.create limits).

(** Two handlers of [risk_breach]: the first throws, the second counts
    its calls in the application state. *)
Definition handlerTable (h : EventBus.HandlerId)
    (event : EventBus.BotEvent string) (w : EventBus.World nat)
  : EventBus.Completion string (EventBus.World nat) :=
  match h with
  | O => EventBus.Throw "boom"%string w
  | _ => EventBus.Normal
           (EventBus.mkWorld (EventBus.bus w) (S (EventBus.app w)))
  end.

(** The same, the first handler being registered with [once]: it
    unsubscribes itself (handler 0 of [risk_breach]) before it throws. *)
Definition onceTable (h : EventBus.HandlerId)
    (event : EventBus.BotEvent string) (w : EventBus.World nat)
  : EventBus.Completion string (EventBus.World nat) :=
  match h with
  | O => EventBus.onceWrapper handlerTable risk_breach 0 0 event w
  | _ => handlerTable h event w
  end.

(** Two handlers of [risk_breach]: the first unsubscribes the second
    ([off] of handler 1) and returns, the second counts its calls in
    the application state. *)
Definition cuttingTable (h : EventBus.HandlerId)
    (event : EventBus.BotEvent string) (w : EventBus.World nat)
  : EventBus.Completion string (EventBus.World nat) :=
  match h with
  | O => EventBus.Normal
           (EventBus.mkWorld (EventBus.off (EventBus.bus w) risk_breach 1%nat)
              (EventBus.app w))
  | _ => EventBus.Normal
           (EventBus.mkWorld (EventBus.bus w) (S (EventBus.app w)))
  end.

Definition wiredBus : EventBus.Bus :=
  EventBus.on (EventBus.on EventBus.create risk_breach 0%nat) risk_breach 1%nat.

Definition idleRun : EventBus.Run string nat string :=
  EventBus.mkRun (EventBus.mkWorld wiredBus 0%nat) [] [].

(** A book with one bid and one ask level, as the strategy's test
    suite builds them. *)
Definition book (tokenId : string) (bestBid bestAsk askSize : R) (at_ : Z)
  : OrderBook.t :=
  OrderBook.mk tokenId [PriceLevel.mk bestBid 100]
    [PriceLevel.mk bestAsk askSize] (bestAsk - bestBid)
    ((bestBid + bestAsk) / 2) at_.

(** Three outcomes, each asked at 0.25 for 30. *)
Definition threeWay : MarketGroup.t :=
  MarketGroup.mk "cond-3way" ["token-a"; "token-b"; "token-c"]%string.

Definition bookA : OrderBook.t := book "token-a" 0.24 0.25 30 1700000000000.
Definition bookB : OrderBook.t := book "token-b" 0.24 0.25 30 1700000000000.
Definition bookC : OrderBook.t := book "token-c" 0.24 0.25 30 1700000000000.

Definition threeWayContext : BregmanArb.Context :=
  BregmanArb.mkContext
    (<["token-a"%string := bookA]>
       (<["token-b"%string := bookB]> (<["token-c"%string := bookC]> ∅)))
    Store.empty.

Definition threeWayStrategy : BregmanArb.t :=
  BregmanArb.create [threeWay] BregmanArb.defaultConfig.

(** A binary market: yes at 0.79/0.81, no at 0.19/0.21. *)
Definition yesNo : MarketGroup.t :=
  MarketGroup.mk "cond-1" ["token-yes"; "token-no"]%string.

Definition yesBook : OrderBook.t :=
  book "token-yes" 0.79 0.81 100 1700000000000.
Definition noBook : OrderBook.t :=
  book "token-no" 0.19 0.21 100 1700000000000.

Definition yesNoContext : BregmanArb.Context :=
  BregmanArb.mkContext
    (<["token-yes"%string := yesBook]> (<["token-no"%string := noBook]> ∅))
    Store.empty.

Definition yesNoStrategy : BregmanArb.t :=
  BregmanArb.create [yesNo] BregmanArb.defaultConfig.

(** A negative-risk event with a single sub-market (from the test
    suite of the discovery service). *)
Definition singleNegRisk : Gamma.GammaEvent :=
  Gamma.mkEvent "5" "Single neg-risk" "single-neg" true
    (Some [Gamma.mkMarket "cond-single" "Only one?" tokenPairJson true false]).

End Sample.

(* ===================================================================== *)
(** * Specification-level notions for the store                           *)
(* ===================================================================== *)

Module StoreSpec.
Import Store.

(** Every row is held under the value of its PRIMARY KEY column. *)
Definition keyed (s : t) : Prop :=
  (∀ k p, positions s !! k = Some p → Position.tokenId p = k)
  ∧ (∀ k o, orders s !! k = Some o → orderId o = k)
  ∧ (∀ k tr, trades s !! k = Some tr → id tr = k).

(** What a row of [trades], if there is one, adds to the daily PnL of
    [dateStr]. *)
Definition contribution (B : Builtins) (dateStr : string)
    (row : option TradeRow) : R :=
  match row with
  | Some tr =>
    if decide (sqlite_DATE B (match_time tr) = Some dateStr)
    then tradeCashFlow tr else 0
  | None => 0
  end.

End StoreSpec.

(* ===================================================================== *)
(** * Specification-level notions for exposure                            *)
(* ===================================================================== *)

Module ExposureSpec.
Import RiskManager.

(** The value of the position held on a token: nothing when there is no
    row or the row is flat. *)
Definition heldValue (s : Store.t) (tokenId : string) : R :=
  match Store.getPosition s tokenId with
  | Some pos =>
    if decide (Position.size pos ≠ 0) then positionValue pos else 0
  | None => 0
  end.

(** The notional of the open orders on a token. *)
Definition openValue (s : Store.t) (tokenId : string) : R :=
  ArbSpec.Rsum
    (orderValueOf <$>
       filter (λ o, OrderRequest.tokenId (Store.request o) = tokenId)
              (Store.getOpenOrders s)).

End ExposureSpec.

(* ===================================================================== *)
(** * Specification-level notions for fills                               *)
(* ===================================================================== *)

Module FillSpec.

(** The side recorded on a position agrees with the sign of its size:
    BUY with a size that is not negative, SELL with a negative size. *)
Definition sideMatchesSign (p : Position.t) : Prop :=
  (Position.side p = BUY ∧ Position.size p >= 0)
  ∨ (Position.side p = SELL ∧ Position.size p < 0).

(** A store whose rows sit under their keys and whose positions all
    have a side that matches the sign of their size. *)
Definition consistent (s : Store.t) : Prop :=
  StoreSpec.keyed s
  ∧ ∀ tokenId p, Store.getPosition s tokenId = Some p → sideMatchesSign p.

(** The price a fill is booked at: [result.avgFillPrice ?? order.price]. *)
Definition fillPrice (order : OrderRequest.t) (result : OrderResult.t) : R :=
  default (OrderRequest.price order) (OrderResult.avgFillPrice result).

(** The rows whose status a sweep over the open orders rewrites: those
    the sweep does not keep. *)
Definition swept (keep : Store.OrderRow → bool) (l : list Store.OrderRow)
  : list string :=
  Store.orderId <$> filter (λ o, keep o = false) l.

End FillSpec.

(* ===================================================================== *)
(** * More sample data                                                    *)
(* ===================================================================== *)

Module Scenario.

(** An exchange that fills every order in full at its limit price. *)
Definition fillingClient : OrderManager.Client :=
  OrderManager.mkClient
    (λ order, OrderResult.mk true (Some "mock-1"%string) None
                (Some (OrderRequest.size order)) None)
    (λ _, true) true [].

(** An exchange that refuses every request. *)
Definition refusingClient : OrderManager.Client :=
  OrderManager.mkClient
    (λ _, OrderResult.mk false None (Some "refused"%string) None None)
    (λ _, false) false [].

Definition openOrder : Store.OrderRow :=
  Store.mkOrder "o-1" Sample.order "open".

Definition oneOrderStore : Store.t := Store.saveOrder Store.empty openOrder.

Definition oneOrderWorld : OrderManager.World :=
  OrderManager.mkWorld oneOrderStore (RiskManager.create Sample.limits).

(** The store of the exposure test of the risk manager's test suite:
    a position of 100 at 0.5 and an open order of 50 at 0.4. *)
Definition exposedStore : Store.t :=
  Store.saveOrder
    (Store.savePosition Store.empty
       (Position.mk "token-1" "m1" 100 0.5 0.5 0 0 BUY))
    (Store.mkOrder "order-1"
       (OrderRequest.mk "token-2" BUY 0.4 50 GTC None) "open").

(** A long position of 10 bought at 0.40. *)
(** Two binary events of the catalog, and the groups they yield. *)
Definition binaryEvent (eventId cond : string) : Gamma.GammaEvent :=
  Gamma.mkEvent eventId "A binary market" "binary" false
    (Some [Gamma.mkMarket cond "Yes or no?" Sample.tokenPairJson true false]).

Definition pairGroup (cond : string) : MarketGroup.t :=
  MarketGroup.mk cond ["token-a"; "token-b"]%string.

Definition twoEvents : list Gamma.GammaEvent :=
  [binaryEvent "1" "cond-1"; binaryEvent "2" "cond-2"].

(** A market data service subscribed to two tokens, an exchange that
    knows the book of the first only, and requests that settle in the
    reverse of the order in which they were issued. *)
Definition twoTokens : MarketData.t :=
  MarketData.subscribe MarketData.create ["token-a"; "token-b"]%string.

Definition fetchA (tokenId : string) : option OrderBook.t :=
  if decide (tokenId = "token-a"%string) then Some Sample.bookA else None.

(** A bot with one strategy, which answers every book with two
    signals on token-1: one of confidence 0.9 and one of 0.5. *)
Definition twoSignals : list TradeSignal.t :=
  [TradeSignal.mk "token-1" BUY 0.9 0.5 10 "sure";
   TradeSignal.mk "token-1" BUY 0.5 0.5 10 "unsure"]%string.

Definition oneStrategyBot : TradingBot.t :=
  TradingBot.mk [TradingBot.mkStrategy "fixed" true (λ _ _, Some twoSignals)]
    true [].



Definition long10 : Position.t :=
  PositionSpec.filled None "tok" BUY 10 0.40.

Definition longStore : Store.t := Store.savePosition Store.empty long10.

End Scenario.

(* ===================================================================== *)
(** * Specification-level notions for the event bus                       *)
(* ===================================================================== *)

Module BusSpec.
Import EventBus.

(** The handlers subscribed to a type, in registration order. *)
Definition registered (b : Bus) (ty : EventType) : list HandlerId :=
  Set_values (default [] (handlers b !! ty)).


Section InOrder.
Context {Data App Err : Type}.
Variable call : HandlerId → BotEvent Data → World App
                → Completion Err (World App).

(** The world left by the handlers [hs] called one after the other
    with [event], each on the world the one before it left, whether
    it returned or threw. *)
Definition calledInOrder (event : BotEvent Data) (hs : list HandlerId)
    (w : World App) : World App :=
  fold_left (λ w h, after (call h event w)) hs w.

(** What they throw on the way, in order, as [console.error] gets it. *)
Fixpoint thrownInOrder (ty : EventType) (event : BotEvent Data)
    (hs : list HandlerId) (w : World App) : list (EventType * Err) :=
  match hs with
  | [] => []
  | h :: rest =>
    match call h event w with
    | Normal w' => thrownInOrder ty event rest w'
    | Throw err w' => (ty, err) :: thrownInOrder ty event rest w'
    end
  end.

End InOrder.

End BusSpec.

(* ===================================================================== *)
(** * Specification-level notions for market discovery                    *)
(* ===================================================================== *)

Module GammaSpec.
Import Gamma.

(** A run of refreshes, in the order in which their fetches complete:
    the final service and every emission, in order. *)
Fixpoint refreshAll (B : Builtins) (svc : t) (rs : list FetchResult)
  : t * list Emission :=
  match rs with
  | [] => (svc, [])
  | r :: rest =>
    let '(svc1, es1) := fetchAndUpdate B svc r in
    let '(svc2, es2) := refreshAll B svc1 rest in
    (svc2, es1 ++ es2)
  end.

(** The groups carried by the last emission, if there is one. *)
Definition lastAnnounced (es : list Emission) : option (list MarketGroup.t) :=
  match last es with
  | Some (_, MarketGroupsUpdatedData groups) => Some groups
  | _ => None
  end.

(** The fetches of a run that came back with a catalog. *)
(** An emission of [market_groups_updated] with its payload. *)
Definition isUpdate (e : Emission) : Prop :=
  ∃ groups, e = (market_groups_updated, MarketGroupsUpdatedData groups).

Definition isBody (r : FetchResult) : bool :=
  match r with Body _ => true | _ => false end.

Definition bodies (rs : list FetchResult) : list FetchResult :=
  filter (λ r, isBody r = true) rs.

End GammaSpec.

(* ===================================================================== *)
(** * Specification-level notions for the strategy's signals              *)
(* ===================================================================== *)

Module SignalSpec.
Import BregmanArb.

(** The evaluations counted as ending without a signal. *)
Definition silentCount (s : Stats) : nat :=
  (skippedNoGroup s + skippedMissingBook s + skippedStaleBook s
   + noArbFound s)%nat.

(** The signals counted. *)
Definition signalCount (s : Stats) : nat :=
  (simpleArbSignals s + bregmanArbSignals s)%nat.

(** A signal that buys a token of the group, a positive amount that
    the position limit leaves room for, with a confidence of at most
    one. *)
Definition withinCapacity (cfg : Config) (ctx : Context)
    (group : MarketGroup.t) (s : TradeSignal.t) : Prop :=
  TradeSignal.side s = BUY
  ∧ TradeSignal.size s > 0
  ∧ TradeSignal.tokenId s ∈ MarketGroup.tokenIds group
  ∧ currentSizeOf ctx (TradeSignal.tokenId s) + TradeSignal.size s
    <= maxPositionSize cfg
  ∧ TradeSignal.confidence s <= 1.

(** The group a token is evaluated against: the last group of the
    list that names it. *)
Definition groupOf (groups : list MarketGroup.t) (tokenId : string)
  : option MarketGroup.t :=
  last (filter (λ g, tokenId ∈ MarketGroup.tokenIds g) groups).

End SignalSpec.

(* ===================================================================== *)
(** * Specification-level notions for strategy metrics                    *)
(* ===================================================================== *)

Module MetricsSpec.
Import BaseStrategy.

(** A strategy, newly constructed, after recording these PnLs in
    order. *)
Definition replay (pnls : list R) : t := fold_left recordPnl pnls create.

End MetricsSpec.

(* ===================================================================== *)
(** * Specification-level notions for market data                         *)
(* ===================================================================== *)

Module MarketDataSpec.

(** What the exchange answers for a token, as the payload of the
    [orderbook_update] it leads to. *)
Definition answered (fetch : string → option OrderBook.t) (tokenId : string)
  : option (string * OrderBook.t) :=
  pair tokenId <$> fetch tokenId.

End MarketDataSpec.

(* ===================================================================== *)
(** * Specification-level notions for the engine                          *)
(* ===================================================================== *)

Module EngineSpec.
Import TradingBot.

(** The signals announced with [strategy_signal], in order. *)
Definition signalsAnnounced (l : list Announcement) : list TradeSignal.t :=
  omap (λ a, match a with
             | SignalAnnounced signal => Some signal
             | ServiceEvent _ => None
             end) l.

(** The orders the exchange was asked to place, in order. *)
Definition ordersPlaced (calls : list OrderManager.ClientCall)
  : list OrderRequest.t :=
  omap (λ c, match c with
             | OrderManager.PlaceOrderCall order => Some order
             | _ => None
             end) calls.

(** A signal that an enabled strategy of the bot returned for the
    token and the book, with a confidence above one half. *)
Definition confidentSignal (bot : t) (tokenId : string)
    (orderBook : OrderBook.t) (signal : TradeSignal.t) : Prop :=
  TradeSignal.confidence signal > 0.5
  ∧ ∃ strategy strategySignals,
      strategy ∈ strategies bot ∧ enabled strategy = true
      ∧ evaluate strategy tokenId orderBook = Some strategySignals
      ∧ signal ∈ strategySignals.

End EngineSpec.

(* ===================================================================== *)
(** * Order manager: positions                                            *)
(* ===================================================================== *)

Section PositionScenarios.
Import OrderManager PositionSpec.

Lemma nextPosition_same_side (ex : Position.t) tok side size price :
  Position.size ex ≠ 0 →
  Position.side ex = side →
  nextPosition (Some ex) tok side size price =
    Position.mk (Position.tokenId ex) (Position.market ex)
      (Position.size ex + signedFill side size)
      ((Position.size ex * Position.avgEntryPrice ex + size * price)
       / Rabs (Position.size ex + signedFill side size))
      price (Position.unrealizedPnl ex) (Position.realizedPnl ex)
      (Position.side ex).
Proof.
  intros Hnz <-. unfold nextPosition.
  destruct (decide (Position.size ex = 0)) as [|_]; [done|].
  destruct (Position.side ex); simpl;
    rewrite ?bool_decide_eq_true_2 by done; done.
Qed.

Lemma nextPosition_opens tok side size price :
  nextPosition None tok side size price =
    Position.mk tok EmptyString (signedFill side size) price price 0 0 side.
Proof. done. Qed.

Lemma nextPosition_opposite_side (ex : Position.t) tok side size price :
  Position.size ex ≠ 0 →
  Position.side ex ≠ side →
  nextPosition (Some ex) tok side size price =
    Position.mk (Position.tokenId ex) (Position.market ex)
      (Position.size ex + signedFill side size)
      (Position.avgEntryPrice ex)
      price (Position.unrealizedPnl ex)
      (Position.realizedPnl ex
       + (size * (price - Position.avgEntryPrice ex))
         * (match Position.side ex with BUY => 1 | SELL => -1 end))
      (if decide (Position.size ex + signedFill side size >= 0)
       then BUY else SELL).
Proof.
  intros Hnz Hne. unfold nextPosition.
  destruct (decide (Position.size ex = 0)) as [|_]; [done|].
  destruct (Position.side ex), side; simpl; done.
Qed.

Lemma updatePosition_store st tok side size price :
  (updatePosition st tok side size price).1 =
  Store.savePosition st (filled (Store.getPosition st tok) tok side size price).
Proof. done. Qed.

Lemma filled_tokenId existing tok side size price :
  (∀ ex, existing = Some ex → Position.tokenId ex = tok) →
  Position.tokenId (filled existing tok side size price) = tok.
Proof.
  intros Hkey. unfold filled, nextPosition.
  destruct existing as [ex|]; [|done].
  specialize (Hkey ex eq_refl).
  repeat (case_decide || case_match); simpl; done.
Qed.

(** Reading back the row of the token just filled. *)
Lemma getPosition_updatePosition st tok side size price :
  (∀ ex, Store.getPosition st tok = Some ex → Position.tokenId ex = tok) →
  Store.getPosition (updatePosition st tok side size price).1 tok
  = Some (filled (Store.getPosition st tok) tok side size price).
Proof.
  intros Hkey. rewrite updatePosition_store.
  unfold Store.getPosition, Store.savePosition in *. cbn [Store.positions].
  rewrite filled_tokenId by done. apply lookup_insert_eq.
Qed.

(** The unrealized PnL of the row written by any fill. *)
Lemma filled_unrealized existing tok side size price :
  let p := filled existing tok side size price in
  Position.unrealizedPnl p
  = (Position.currentPrice p - Position.avgEntryPrice p) * Position.size p.
Proof. done. Qed.

Lemma short20_fields :
  Position.size short20 = -20 ∧ Position.avgEntryPrice short20 = 0.10
  ∧ Position.currentPrice short20 = 0.60
  ∧ Position.realizedPnl short20 = Position.realizedPnl short10.
Proof.
  unfold short20, filled.
  rewrite nextPosition_same_side; [|simpl; lra|done].
  simpl. repeat split; try lra.
  rewrite Rabs_left by lra.
  replace (- (- (10) + - (10))) with 20 by lra. lra.
Qed.

(** C1 (the code departs from the specification on SELL-side
    positions).  A short position opened by SELL 10 @ 0.40 and
    increased by SELL 10 @ 0.60: [updatePosition] sets the size to
    [P.size] plus the signed fill (-20), the current price to the fill
    price and leaves the realized PnL alone, but the average entry
    price it stores is 0.10, whereas the size-weighted average
    [(|P.size| * P.avg_entry + size * price) / |new_size|] is 0.50: the
    cost of the existing position enters with the sign of [P.size]. *)
Theorem same_side_short_fill_average :
  let st0 := (updatePosition Store.empty "tok" SELL 10 0.40).1 in
  let st1 := (updatePosition st0 "tok" SELL 10 0.60).1 in
  Store.getPosition st0 "tok" = Some short10
  ∧ Position.side short10 = SELL
  ∧ Position.size short10 = -10
  ∧ Position.avgEntryPrice short10 = 0.40
  ∧ Store.getPosition st1 "tok" = Some short20
  ∧ Position.size short20 = Position.size short10 + signedFill SELL 10
  ∧ Position.currentPrice short20 = 0.60
  ∧ Position.realizedPnl short20 = Position.realizedPnl short10
  ∧ Position.avgEntryPrice short20 = 0.10
  ∧ weightedAverage short10 10 0.60 (Position.size short20) = 0.50.
Proof.
  intros st0 st1.
  assert (H0 : Store.getPosition st0 "tok" = Some short10).
  { unfold st0. rewrite getPosition_updatePosition; [done|].
    intros ex Hex. unfold Store.getPosition in Hex. simpl in Hex.
    by rewrite lookup_empty in Hex. }
  assert (H1 : Store.getPosition st1 "tok" = Some short20).
  { unfold st1. rewrite getPosition_updatePosition.
    - by rewrite H0.
    - intros ex Hex. rewrite H0 in Hex. by injection Hex as <-. }
  destruct short20_fields as (Hsz & Havg & Hcur & Hreal).
  assert (Hsz0 : Position.size short10 = -10) by (simpl; lra).
  repeat split; try done.
  - rewrite Hsz, Hsz0. simpl. lra.
  - unfold weightedAverage. rewrite Hsz, Hsz0.
    rewrite !Rabs_left by lra. simpl.
    replace (- -20) with 20 by lra. lra.
Qed.

(** The part of C1 that the code does satisfy: on a long (BUY-side)
    position a BUY fill gives the size-weighted average. *)
Lemma same_side_long_fill (st : Store.t) (tok : string) (P : Position.t)
    (size price : R) :
  Store.getPosition st tok = Some P →
  Position.tokenId P = tok →
  Position.side P = BUY → Position.size P > 0 →
  ∃ P', Store.getPosition (updatePosition st tok BUY size price).1 tok = Some P'
    ∧ Position.size P' = Position.size P + signedFill BUY size
    ∧ Position.avgEntryPrice P'
      = weightedAverage P size price (Position.size P')
    ∧ Position.currentPrice P' = price
    ∧ Position.realizedPnl P' = Position.realizedPnl P.
Proof.
  intros Hget Hkey Hside Hpos. eexists. split.
  { apply getPosition_updatePosition. intros ex. rewrite Hget.
    by intros [= <-]. }
  rewrite Hget. unfold filled.
  rewrite nextPosition_same_side by (lra || done). simpl.
  unfold weightedAverage. rewrite (Rabs_pos_eq (Position.size P)) by lra.
  done.
Qed.

(** What the code computes on a short (SELL-side) position instead: the
    cost of the position enters negatively. *)
Lemma same_side_short_fill (P : Position.t) (tok : string) (size price : R) :
  Position.side P = SELL → Position.size P < 0 →
  Position.avgEntryPrice (filled (Some P) tok SELL size price)
  = (- (Rabs (Position.size P) * Position.avgEntryPrice P) + size * price)
    / Rabs (Position.size P - size).
Proof.
  intros Hside Hneg. unfold filled.
  rewrite nextPosition_same_side by (lra || done).
  cbn [markUnrealized Position.avgEntryPrice signedFill].
  rewrite (Rabs_left (Position.size P)) by lra.
  unfold Math_abs. f_equal. lra.
Qed.

(** C2.  From no position on a token, BUY 10 @ 0.40 then BUY 10 @ 0.60
    leaves size 20 at average entry 0.50; SELL 10 @ 0.70 then adds
    10 * (0.70 - 0.50) = 2 to the realized PnL and leaves size 10 on
    side BUY.  After every update (these three and any other) the row
    written, which is also the payload of the [position_changed]
    event, has unrealized PnL (current - average entry) * size. *)
Theorem position_pnl_scenario (st : Store.t) (tok : string) :
  Store.getPosition st tok = None →
  let st1 := (updatePosition st tok BUY 10 0.40).1 in
  let st2 := (updatePosition st1 tok BUY 10 0.60).1 in
  let st3 := (updatePosition st2 tok SELL 10 0.70).1 in
  (∃ p1 p2 p3,
      Store.getPosition st1 tok = Some p1
      ∧ Store.getPosition st2 tok = Some p2
      ∧ Store.getPosition st3 tok = Some p3
      ∧ Position.size p2 = 20
      ∧ Position.avgEntryPrice p2 = 0.50
      ∧ Position.realizedPnl p3
        = Position.realizedPnl p2 + 10 * (0.70 - 0.50)
      ∧ Position.realizedPnl p3 - Position.realizedPnl p2 = 2
      ∧ Position.size p3 = 10
      ∧ Position.side p3 = BUY
      ∧ Forall (λ p, Position.unrealizedPnl p
                     = (Position.currentPrice p - Position.avgEntryPrice p)
                       * Position.size p) [p1; p2; p3])
  ∧ (∀ st' tok' side size price,
      ∃ p, (updatePosition st' tok' side size price).2
           = [(position_changed, PositionChangedData tok' p)]
        ∧ Store.getPosition (updatePosition st' tok' side size price).1
            (Position.tokenId p) = Some p
        ∧ Position.unrealizedPnl p
          = (Position.currentPrice p - Position.avgEntryPrice p)
            * Position.size p).
Proof.
  intros Hnone st1 st2 st3. split.
  - set (p1 := filled None tok BUY 10 0.40).
    set (p2 := filled (Some p1) tok BUY 10 0.60).
    set (p3 := filled (Some p2) tok SELL 10 0.70).
    assert (H1 : Store.getPosition st1 tok = Some p1).
    { unfold st1. rewrite getPosition_updatePosition.
      - by rewrite Hnone.
      - intros ex. by rewrite Hnone. }
    assert (H2 : Store.getPosition st2 tok = Some p2).
    { unfold st2. rewrite getPosition_updatePosition.
      - by rewrite H1.
      - intros ex. rewrite H1. by intros [= <-]. }
    assert (K2 : Position.tokenId p2 = tok).
    { apply filled_tokenId. by intros ex [= <-]. }
    assert (H3 : Store.getPosition st3 tok = Some p3).
    { unfold st3. rewrite getPosition_updatePosition.
      - by rewrite H2.
      - intros ex. rewrite H2. by intros [= <-]. }
    assert (E2 : Position.size p2 = 20 ∧ Position.avgEntryPrice p2 = 0.50
                 ∧ Position.side p2 = BUY).
    { unfold p2, filled. rewrite nextPosition_same_side; [|simpl; lra|done].
      simpl. repeat split; try lra.
      rewrite Rabs_pos_eq by lra.
      replace (10 + 10) with 20 by lra. lra. }
    destruct E2 as (Esz & Eavg & Eside).
    assert (U2 : Position.unrealizedPnl p2
                 = (Position.currentPrice p2 - Position.avgEntryPrice p2)
                   * Position.size p2) by done.
    clearbody p2.
    assert (E3 : Position.realizedPnl p3
                 = Position.realizedPnl p2 + 10 * (0.70 - 0.50)
                 ∧ Position.size p3 = 10 ∧ Position.side p3 = BUY).
    { unfold p3, filled.
      rewrite nextPosition_opposite_side; [|lra|by rewrite Eside].
      simpl. rewrite Esz, Eavg, Eside. repeat split; try lra.
      case_decide; [done|lra]. }
    destruct E3 as (Ereal & Esz3 & Eside3).
    exists p1, p2, p3. repeat split; try done; try lra.
    repeat (apply List.Forall_cons; [done|]). apply List.Forall_nil.
  - intros st' tok' side size price.
    exists (filled (Store.getPosition st' tok') tok' side size price).
    repeat split. rewrite updatePosition_store. apply lookup_insert_eq.
Qed.

Lemma position_pnl_scenario_witness :
  Store.getPosition Store.empty "tok" = None
  ∧ ∃ p2, Store.getPosition
            (updatePosition (updatePosition Store.empty "tok" BUY 10 0.40).1
               "tok" BUY 10 0.60).1 "tok" = Some p2
          ∧ Position.size p2 = 20 ∧ Position.avgEntryPrice p2 = 0.50.
Proof.
  assert (H : Store.getPosition Store.empty "tok" = None) by apply lookup_empty.
  split; [exact H|].
  destruct (position_pnl_scenario Store.empty "tok" H)
    as [(p1 & p2 & p3 & _ & H2 & _ & Hs & Ha & _) _].
  exists p2. auto.
Defined.

End PositionScenarios.

(* ===================================================================== *)
(** * Risk manager                                                        *)
(* ===================================================================== *)

Section RiskGate.
Import RiskManager RiskSpec.

(** A halted manager rejects with its halt reason, stays as it is and
    emits nothing. *)
Lemma checkOrder_halted B clk rm store order :
  halted rm = true →
  checkOrder B clk rm store order
  = (mkCheck false (Some ("Trading halted: " +:+ haltReasonText rm)), rm, []).
Proof. intros H. unfold checkOrder. by rewrite H. Qed.

(** An admitted order leaves the manager as it is and emits nothing. *)
Lemma checkOrder_allowed B clk rm store order :
  allowed (checkOrder B clk rm store order).1.1 = true →
  checkOrder B clk rm store order = (mkCheck true None, rm, []).
Proof.
  unfold checkOrder.
  destruct (halted rm); [done|].
  repeat case_decide; simpl; done.
Qed.

(** A rejection emits nothing, unless it is the daily-loss breach,
    which latches the halt and emits one [risk_breach]. *)
Lemma checkOrder_rejected B clk rm store order :
  allowed (checkOrder B clk rm store order).1.1 = false →
  ((checkOrder B clk rm store order).1.2 = rm
   ∧ (checkOrder B clk rm store order).2 = [])
  ∨ (halted rm = false
     ∧ getDailyPnl B clk store < - RiskLimits.maxDailyLoss (limits rm)
     ∧ (checkOrder B clk rm store order).1.2 = haltedByDailyLoss rm
     ∧ (checkOrder B clk rm store order).2
       = [(risk_breach,
           RiskBreachData "Daily loss limit exceeded" (Date_now clk))]).
Proof.
  unfold checkOrder.
  destruct (halted rm) eqn:Hh; [by left|].
  repeat case_decide; simpl; intros Hrej; try done;
    try (left; done); right; done.
Qed.

Lemma checkOrders_halted B rm calls :
  halted rm = true →
  checkOrders B rm calls
  = ((λ _, mkCheck false (Some ("Trading halted: " +:+ haltReasonText rm)))
       <$> calls, rm, []).
Proof.
  intros H. induction calls as [|[[clk store] order] rest IH]; [done|].
  simpl. rewrite checkOrder_halted by done. by rewrite IH.
Qed.

(** The fifth check firing. *)
Lemma checkOrder_daily_loss B clk rm store order :
  halted rm = false →
  ¬ (OrderRequest.price order * OrderRequest.size order
     > RiskLimits.maxPositionSize (limits rm)) →
  ¬ ((getExposure store).1
     + OrderRequest.price order * OrderRequest.size order
     > RiskLimits.maxTotalExposure (limits rm)) →
  ¬ (INR (length (Store.getOpenOrders store))
     >= RiskLimits.maxOpenOrders (limits rm)) →
  getDailyPnl B clk store < - RiskLimits.maxDailyLoss (limits rm) →
  checkOrder B clk rm store order
  = (mkCheck false
       (Some ("Daily loss limit ("
              +:+ Number_toString B (RiskLimits.maxDailyLoss (limits rm))
              +:+ ") exceeded")),
     haltedByDailyLoss rm,
     [(risk_breach,
       RiskBreachData "Daily loss limit exceeded" (Date_now clk))]).
Proof.
  intros Hh H1 H2 H3 H4. unfold checkOrder. rewrite Hh.
  rewrite !decide_False by done. by rewrite decide_True by done.
Qed.

(** C3.  An order that passes the first four admission checks while the
    stored daily PnL is below [- maxDailyLoss] is rejected, the halt is
    latched and [risk_breach] is emitted exactly once; from then on
    (no [resume]) every check, whatever the order, the store and the
    time, is rejected with the halt reason, emits nothing and leaves
    the manager halted. *)
Theorem daily_loss_halt B clk rm store order :
  halted rm = false →
  ¬ (OrderRequest.price order * OrderRequest.size order
     > RiskLimits.maxPositionSize (limits rm)) →
  ¬ ((getExposure store).1
     + OrderRequest.price order * OrderRequest.size order
     > RiskLimits.maxTotalExposure (limits rm)) →
  ¬ (INR (length (Store.getOpenOrders store))
     >= RiskLimits.maxOpenOrders (limits rm)) →
  getDailyPnl B clk store < - RiskLimits.maxDailyLoss (limits rm) →
  let '(res, rm', es) := checkOrder B clk rm store order in
  allowed res = false
  ∧ isHalted rm' = true
  ∧ rm' = haltedByDailyLoss rm
  ∧ es = [(risk_breach,
           RiskBreachData "Daily loss limit exceeded" (Date_now clk))]
  ∧ length (filter (λ ty, ty = risk_breach) (emitted_types es)) = 1%nat
  ∧ (∀ B' clk' store' order',
       checkOrder B' clk' rm' store' order' = (haltedAnswer, rm', []))
  ∧ (∀ B' calls,
       checkOrders B' rm' calls = ((λ _, haltedAnswer) <$> calls, rm', [])).
Proof.
  intros Hh H1 H2 H3 H4.
  rewrite checkOrder_daily_loss by done.
  split_and!; try done.
  intros. by rewrite checkOrders_halted.
Qed.

(** The sample store: no position, no order, one losing trade. *)
Lemma losingStore_exposure : getExposure Sample.losingStore = (0, ∅).
Proof.
  unfold getExposure, Store.getAllPositions, Store.getOpenOrders. simpl.
  by rewrite !map_to_list_empty.
Qed.

Lemma losingStore_open_orders : Store.getOpenOrders Sample.losingStore = [].
Proof.
  unfold Store.getOpenOrders. simpl. by rewrite map_to_list_empty.
Qed.

Lemma losingStore_daily_pnl :
  getDailyPnl Sample.builtins Sample.clock Sample.losingStore
  = - (100 * 0.6) + 0.
Proof.
  unfold getDailyPnl, Store.getDailyPnl, Sample.losingStore, Store.saveTrade.
  cbn [Store.trades Store.empty].
  rewrite insert_empty, map_to_list_singleton. cbn [fmap list_fmap snd].
  rewrite filter_cons_True by done. by rewrite filter_nil.
Qed.

Lemma daily_loss_halt_witness :
  let '(res, rm', es) :=
    checkOrder Sample.builtins Sample.clock (create Sample.limits)
      Sample.losingStore Sample.order in
  allowed res = false ∧ isHalted rm' = true ∧ length es = 1%nat.
Proof.
  assert (H1 : ¬ (OrderRequest.price Sample.order
                  * OrderRequest.size Sample.order
                  > RiskLimits.maxPositionSize (limits (create Sample.limits))))
    by (simpl; lra).
  assert (H2 : ¬ ((getExposure Sample.losingStore).1
                  + OrderRequest.price Sample.order
                    * OrderRequest.size Sample.order
                  > RiskLimits.maxTotalExposure (limits (create Sample.limits))))
    by (rewrite losingStore_exposure; simpl; lra).
  assert (H3 : ¬ (INR (length (Store.getOpenOrders Sample.losingStore))
                  >= RiskLimits.maxOpenOrders (limits (create Sample.limits))))
    by (rewrite losingStore_open_orders; simpl; lra).
  assert (H4 : getDailyPnl Sample.builtins Sample.clock Sample.losingStore
               < - RiskLimits.maxDailyLoss (limits (create Sample.limits)))
    by (rewrite losingStore_daily_pnl; simpl; lra).
  pose proof (daily_loss_halt Sample.builtins Sample.clock
                (create Sample.limits) Sample.losingStore Sample.order
                eq_refl H1 H2 H3 H4) as W.
  destruct (checkOrder _ _ _ _ _) as [[res rm'] es].
  destruct W as (Ha & Hh & _ & He & _). rewrite He. done.
Defined.

End RiskGate.

(* ===================================================================== *)
(** * Order manager: submission                                           *)
(* ===================================================================== *)

Section Submission.
Import OrderManager.

(** [submitOrder] on a rejected order, whatever the mode. *)
Lemma submitOrder_rejected B clk dryRun client w order :
  RiskManager.allowed
    (RiskManager.checkOrder B clk (riskManager w) (store w) order).1.1 = false →
  submitOrder B clk dryRun client w order
  = mkOutcome
      (OrderResult.mk false None
         (RiskManager.reason
            (RiskManager.checkOrder B clk (riskManager w) (store w) order).1.1)
         None None)
      (mkWorld (store w)
         (RiskManager.checkOrder B clk (riskManager w) (store w) order).1.2)
      (RiskManager.checkOrder B clk (riskManager w) (store w) order).2
      [].
Proof.
  unfold submitOrder.
  destruct (RiskManager.checkOrder _ _ _ _ _) as [[res rm'] es]. simpl.
  by intros ->.
Qed.

(** The exposure example of the risk manager's test suite: a position
    of 100 at 0.5 and an open order of 50 at 0.4 give 50 + 20 = 70. *)
Example exposure_of_position_and_order :
  (RiskManager.getExposure
     (Store.saveOrder
        (Store.savePosition Store.empty
           (Position.mk "token-1" "m1" 100 0.5 0.5 0 0 BUY))
        (Store.mkOrder "order-1"
           (OrderRequest.mk "token-2" BUY 0.4 50 GTC None) "open"))).1 = 70.
Proof.
  unfold RiskManager.getExposure, Store.getAllPositions, Store.getOpenOrders,
    Store.saveOrder, Store.savePosition.
  cbn [Store.positions Store.orders Store.empty Position.tokenId Store.orderId].
  rewrite !insert_empty, !map_to_list_singleton. cbn [fmap list_fmap snd].
  rewrite !filter_cons_True by (cbn [Position.size]; first [lra | done]).
  rewrite !filter_nil.
  cbn [fold_left RiskManager.addPosition RiskManager.addOpenOrder fst snd
       RiskManager.positionValue RiskManager.orderValueOf Position.size
       Position.currentPrice Store.request OrderRequest.price
       OrderRequest.size].
  unfold RiskManager.positionValue, RiskManager.orderValueOf, Math_abs.
  cbn [Position.size Position.currentPrice Store.request OrderRequest.price
       OrderRequest.size].
  rewrite Rabs_pos_eq by lra. lra.
Qed.

(** The sample order on the sample store with the losing trade: the
    daily-loss check fires. *)
Lemma losingWorld_check :
  RiskManager.checkOrder Sample.builtins Sample.clock
    (riskManager Sample.losingWorld) (store Sample.losingWorld) Sample.order
  = (RiskManager.mkCheck false
       (Some ("Daily loss limit ("
              +:+ Number_toString Sample.builtins
                    (RiskLimits.maxDailyLoss Sample.limits)
              +:+ ") exceeded")),
     RiskSpec.haltedByDailyLoss (RiskManager.create Sample.limits),
     [(risk_breach,
       RiskBreachData "Daily loss limit exceeded" (Date_now Sample.clock))]).
Proof.
  apply checkOrder_daily_loss; simpl;
    rewrite ?losingStore_exposure, ?losingStore_open_orders,
            ?losingStore_daily_pnl; simpl; (done || lra).
Qed.

(** The sample order on an empty store is admitted. *)
Lemma freshWorld_check :
  RiskManager.checkOrder Sample.builtins Sample.clock
    (riskManager Sample.freshWorld) (store Sample.freshWorld) Sample.order
  = (RiskManager.mkCheck true None, riskManager Sample.freshWorld, []).
Proof.
  unfold RiskManager.checkOrder, RiskManager.getExposure,
    RiskManager.getDailyPnl, Store.getDailyPnl,
    Store.getAllPositions, Store.getOpenOrders.
  simpl. rewrite !map_to_list_empty. simpl.
  rewrite !decide_False by lra. done.
Qed.

(** C9 as stated fails: an order rejected by the daily-loss check makes
    the risk manager emit [risk_breach] during [submitOrder]. *)
Lemma risk_rejection_emits_breach :
  RiskManager.allowed
    (RiskManager.checkOrder Sample.builtins Sample.clock
       (riskManager Sample.losingWorld) (store Sample.losingWorld)
       Sample.order).1.1 = false
  ∧ emitted (submitOrder Sample.builtins Sample.clock false Sample.client
               Sample.losingWorld Sample.order)
    = [(risk_breach,
        RiskBreachData "Daily loss limit exceeded" (Date_now Sample.clock))]
  ∧ emitted (submitOrder Sample.builtins Sample.clock false Sample.client
               Sample.losingWorld Sample.order) ≠ [].
Proof.
  assert (A : RiskManager.allowed
    (RiskManager.checkOrder Sample.builtins Sample.clock
       (riskManager Sample.losingWorld) (store Sample.losingWorld)
       Sample.order).1.1 = false) by (by rewrite losingWorld_check).
  split; [exact A|].
  rewrite submitOrder_rejected by exact A.
  cbn [emitted]. rewrite losingWorld_check. done.
Qed.

(** C9, amended.  For every order the risk manager rejects,
    [submitOrder] returns [{success: false, error: reason}], leaves the
    store as it is (no order saved, no status changed, no position
    created or updated), calls the exchange client not at all and
    emits no event of its own: the emissions of the call are those of
    the risk manager, which are none, or the single [risk_breach] of
    the daily-loss halt. *)
Theorem risk_rejection_leaves_store B clk dryRun client w order :
  RiskManager.allowed
    (RiskManager.checkOrder B clk (riskManager w) (store w) order).1.1 = false →
  let out := submitOrder B clk dryRun client w order in
  OrderResult.success (value out) = false
  ∧ OrderResult.error (value out)
    = RiskManager.reason
        (RiskManager.checkOrder B clk (riskManager w) (store w) order).1.1
  ∧ store (world out) = store w
  ∧ Store.getOpenOrders (store (world out)) = Store.getOpenOrders (store w)
  ∧ called out = []
  ∧ Forall (λ e, e.1 ≠ order_filled ∧ e.1 ≠ position_changed
                 ∧ e.1 ≠ order_cancelled) (emitted out)
  ∧ (emitted out = []
     ∨ (emitted out
        = [(risk_breach,
            RiskBreachData "Daily loss limit exceeded" (Date_now clk))]
        ∧ RiskManager.getDailyPnl B clk (store w)
          < - RiskLimits.maxDailyLoss (RiskManager.limits (riskManager w))
        ∧ RiskManager.halted (riskManager w) = false
        ∧ RiskManager.halted (riskManager (world out)) = true)).
Proof.
  intros Hrej out. unfold out. rewrite submitOrder_rejected by done.
  cbn [value world emitted called store riskManager
       OrderResult.success OrderResult.error].
  destruct (checkOrder_rejected _ _ _ _ _ Hrej) as [[_ ->]|(Hh & Hp & -> & ->)].
  - split_and!; try done. by left.
  - split_and!; try done.
    + repeat constructor; done.
    + right. done.
Qed.

Lemma risk_rejection_leaves_store_witness :
  store (world (submitOrder Sample.builtins Sample.clock false Sample.client
                  Sample.losingWorld Sample.order))
  = store Sample.losingWorld.
Proof.
  apply (risk_rejection_leaves_store Sample.builtins Sample.clock false
           Sample.client Sample.losingWorld Sample.order).
  by rewrite losingWorld_check.
Defined.

(** C10.  In dry-run mode an order that passes the risk check gets
    [{success: true, orderId}] and nothing else happens: the store and
    the risk manager are as before (so the open orders and the
    positions are), no event is emitted and the exchange client is not
    called. *)
Theorem dry_run_has_no_effect B clk client w order :
  RiskManager.allowed
    (RiskManager.checkOrder B clk (riskManager w) (store w) order).1.1 = true →
  let out := submitOrder B clk true client w order in
  value out
  = OrderResult.mk true (Some ("dry-" +:+ pretty (Date_now clk))) None None None
  ∧ OrderResult.success (value out) = true
  ∧ is_Some (OrderResult.orderId (value out))
  ∧ world out = w
  ∧ getOpenOrders (world out) = getOpenOrders w
  ∧ (∀ tok, getPosition (world out) tok = getPosition w tok)
  ∧ emitted out = []
  ∧ called out = [].
Proof.
  intros Hok out. unfold out, submitOrder.
  rewrite (checkOrder_allowed _ _ _ _ _ Hok). simpl.
  destruct w. split_and!; done.
Qed.

Lemma dry_run_has_no_effect_witness :
  let out := submitOrder Sample.builtins Sample.clock true Sample.client
               Sample.freshWorld Sample.order in
  OrderResult.orderId (value out) = Some "dry-1700000000000"%string
  ∧ world out = Sample.freshWorld ∧ emitted out = [].
Proof.
  assert (A : RiskManager.allowed
    (RiskManager.checkOrder Sample.builtins Sample.clock
       (riskManager Sample.freshWorld) (store Sample.freshWorld)
       Sample.order).1.1 = true) by (by rewrite freshWorld_check).
  destruct (dry_run_has_no_effect Sample.builtins Sample.clock Sample.client
              Sample.freshWorld Sample.order A)
    as (Hv & _ & _ & Hw & _ & _ & He & _).
  cbv zeta. rewrite Hv, Hw, He. done.
Defined.

End Submission.

(* ===================================================================== *)
(** * Discovery service                                                   *)
(* ===================================================================== *)

Section Discovery.
Import Gamma.

Lemma extractGroup_two_tokens B event g :
  extractGroup B event = Some g → (2 ≤ length (MarketGroup.tokenIds g))%nat.
Proof.
  unfold extractGroup.
  destruct (markets event) as [[|first rest]|]; try done.
  repeat case_match; try done; intros [= <-];
    cbn [MarketGroup.tokenIds]; first [assumption | lia].
Qed.

Lemma extractMarketGroups_two_tokens B events :
  Forall (λ g, (2 ≤ length (MarketGroup.tokenIds g))%nat)
    (extractMarketGroups B events).
Proof.
  unfold extractMarketGroups.
  induction events as [|event rest IH]; simpl; [constructor|].
  destruct (extractGroup B event) as [g|] eqn:E; [|done].
  constructor; [by eapply extractGroup_two_tokens|done].
Qed.

(** C6.  Every group [extractMarketGroups] returns, hence every group
    carried by a [market_groups_updated] emission of [fetchAndUpdate],
    has at least two token ids.  The negative-risk branch (flag set,
    two sub-markets or more) pushes a group exactly when it collected
    at least two yes-tokens; an event with a single sub-market, flagged
    negative-risk or not, pushes a group exactly when two tokens
    parse, and the group holds both. *)
Theorem discovered_groups_have_two_tokens B :
  (∀ events,
     Forall (λ g, (2 ≤ length (MarketGroup.tokenIds g))%nat)
       (extractMarketGroups B events))
  ∧ (∀ svc r ty groups,
       (ty, MarketGroupsUpdatedData groups) ∈ (fetchAndUpdate B svc r).2 →
       Forall (λ g, (2 ≤ length (MarketGroup.tokenIds g))%nat) groups)
  ∧ (∀ i t s m1 m2 ms,
       extractGroup B (mkEvent i t s true (Some (m1 :: m2 :: ms)))
       = if decide (2 ≤ length (yesTokens B (m1 :: m2 :: ms)))%nat
         then Some (MarketGroup.mk (conditionId m1)
                      (yesTokens B (m1 :: m2 :: ms)))
         else None)
  ∧ (∀ i t s flag m,
       extractGroup B (mkEvent i t s flag (Some [m]))
       = if decide (length (parseClobTokenIds B (clobTokenIds m)) = 2%nat)
         then Some (MarketGroup.mk (conditionId m)
                      (parseClobTokenIds B (clobTokenIds m)))
         else None).
Proof.
  split_and!.
  - apply extractMarketGroups_two_tokens.
  - intros svc r ty groups. unfold fetchAndUpdate.
    destruct r; simpl; try (intros H; by apply elem_of_nil in H).
    destruct (hasChanged _ _); [|intros H; by apply elem_of_nil in H].
    intros H. apply list_elem_of_singleton in H. injection H as _ ->.
    apply extractMarketGroups_two_tokens.
  - intros. unfold extractGroup. cbn [markets negRisk andb length].
    rewrite bool_decide_eq_true_2 by lia. done.
  - intros. unfold extractGroup. cbn [markets negRisk length].
    rewrite bool_decide_eq_false_2 by lia. rewrite andb_false_r.
    rewrite decide_True by done. done.
Qed.

Lemma discovered_groups_have_two_tokens_witness :
  Forall (λ g, (2 ≤ length (MarketGroup.tokenIds g))%nat)
    [MarketGroup.mk "cond-single" ["token-a"; "token-b"]%string].
Proof.
  destruct (discovered_groups_have_two_tokens Sample.builtins) as (_ & H & _).
  apply (H create (Body [Sample.singleNegRisk]) market_groups_updated).
  vm_compute. left.
Defined.

(** The single negative-risk sub-market of the test suite goes through
    the binary branch, with both tokens. *)
Example single_neg_risk_market :
  extractMarketGroups Sample.builtins [Sample.singleNegRisk]
  = [MarketGroup.mk "cond-single" ["token-a"; "token-b"]%string].
Proof. reflexivity. Qed.

Lemma hasChanged_same groups : hasChanged (mk groups) groups = false.
Proof.
  unfold hasChanged. cbn [currentGroups].
  rewrite decide_False by (intros H; by apply H).
  apply bool_decide_eq_false_2. intros H; by apply H.
Qed.

Lemma fetchAndUpdate_body B svc events :
  fetchAndUpdate B svc (Body events)
  = if hasChanged svc (extractMarketGroups B events)
    then (mk (extractMarketGroups B events),
          [(market_groups_updated,
            MarketGroupsUpdatedData (extractMarketGroups B events))])
    else (svc, []).
Proof. done. Qed.

(** C7 as stated fails: a fresh service fed twice a catalog that yields
    no group (here the empty catalog) never emits. *)
Lemma unchanged_catalog_emits_nothing :
  updatesEmitted (refreshTwice Sample.builtins create []).2 = 0%nat
  ∧ updatesEmitted (refreshTwice Sample.builtins create []).2 ≠ 1%nat.
Proof. split; [reflexivity|discriminate]. Qed.

(** C7, amended.  Feeding the same event list through [fetchAndUpdate]
    twice in a row emits [market_groups_updated] at most once: the
    second pass finds the serializations equal, keeps the stored list
    and emits nothing; the first pass emits (once, with the extracted
    list, which it stores) exactly when [hasChanged] tells the
    extracted list from the stored one. *)
Theorem refresh_is_idempotent B svc events :
  let groups := extractMarketGroups B events in
  let first := fetchAndUpdate B svc (Body events) in
  let second := fetchAndUpdate B first.1 (Body events) in
  second.2 = []
  ∧ second.1 = first.1
  ∧ refreshTwice B svc events = (first.1, first.2)
  ∧ (updatesEmitted (refreshTwice B svc events).2 ≤ 1)%nat
  ∧ (refreshTwice B svc events).2
    = (if hasChanged svc groups
       then [(market_groups_updated, MarketGroupsUpdatedData groups)]
       else [])
  ∧ updatesEmitted (refreshTwice B svc events).2
    = (if hasChanged svc groups then 1%nat else 0%nat)
  ∧ getMarketGroups (refreshTwice B svc events).1
    = (if hasChanged svc groups then groups else getMarketGroups svc).
Proof.
  intros groups first second. unfold second, first, refreshTwice.
  rewrite !fetchAndUpdate_body. fold groups.
  destruct (hasChanged svc groups) eqn:E; cbn [fst snd].
  - rewrite fetchAndUpdate_body. fold groups.
    rewrite hasChanged_same. split_and!; try done; simpl; lia.
  - rewrite fetchAndUpdate_body. fold groups. rewrite E.
    split_and!; try done. cbv. lia.
Qed.

End Discovery.

(* ===================================================================== *)
(** * Event bus                                                           *)
(* ===================================================================== *)

Section BusDispatch.
Import EventBus BusSpec.
Context {Data App Err : Type}.
Variable call : HandlerId → BotEvent Data → World App → Completion Err (World App).

Abbreviation Run := (EventBus.Run Data App Err).

(** The guarded call of the loop body completes normally, whatever the
    handler does. *)
Lemma guarded_call_normal h ty event (r : Run) :
  try_catch (invoke call h event r) (console_error ty)
  = Normal (mkRun (after (call h event (world r)))
              (match call h event (world r) with
               | Normal _ => console r
               | Throw err _ => console r ++ [(ty, err)]
               end)
              (invoked r ++ [(h, event)])).
Proof. unfold invoke. by destruct (call h event (world r)). Qed.

Lemma iterate_never_throws fuel ty event index (r : Run) err r' :
  iterate call fuel ty event index r ≠ Some (Throw err r').
Proof.
  revert index r. induction fuel as [|fuel IH]; intros index r; [done|].
  simpl. destruct (default [] _ !! index) as [[h|]|]; [|by apply IH|done].
  rewrite guarded_call_normal. apply IH.
Qed.

(** More fuel does not change the outcome of a loop that ended. *)
Lemma iterate_more_fuel fuel fuel' ty event index (r : Run) c :
  iterate call fuel ty event index r = Some c →
  (fuel ≤ fuel')%nat →
  iterate call fuel' ty event index r = Some c.
Proof.
  revert fuel' index r.
  induction fuel as [|fuel IH]; intros fuel' index r; [done|].
  destruct fuel' as [|fuel']; [lia|]. simpl.
  destruct (default [] _ !! index) as [[h|]|]; [| |done].
  - rewrite guarded_call_normal. intros H ?. apply IH; [done|lia].
  - intros H ?. apply IH; [done|lia].
Qed.

(** Deleting a value that is not in the set changes nothing. *)
Lemma Set_delete_absent (s : HandlerSet) h : Some h ∉ s → Set_delete s h = s.
Proof.
  induction s as [|e s IH]; intros Hn; [done|].
  apply not_elem_of_cons in Hn as [Hne Hn].
  unfold Set_delete in *. rewrite fmap_cons, IH by done.
  by rewrite decide_False by done.
Qed.

Lemma Set_values_delete (s : HandlerSet) h :
  Set_values (Set_delete s h) = filter (λ x, x ≠ h) (Set_values s).
Proof.
  unfold Set_values, Set_delete.
  induction s as [|[x|] s IH]; [done| |].
  - rewrite fmap_cons. destruct (decide (Some x = Some h)) as [[= ->]|Hne].
    + cbn [omap list_omap]. rewrite filter_cons_False by (intros H; by apply H).
      apply IH.
    + cbn [omap list_omap]. rewrite filter_cons_True by congruence.
      f_equal. apply IH.
  - rewrite fmap_cons. rewrite decide_False by done. apply IH.
Qed.

(** In a set, the entries after a value do not hold that value. *)
Lemma Set_no_later_entry (s : HandlerSet) index h :
  NoDup (Set_values s) → s !! index = Some (Some h) →
  Some h ∉ drop (S index) s.
Proof.
  intros Hnd E. rewrite <- (take_drop_middle s index (Some h) E) in Hnd.
  unfold Set_values in Hnd. rewrite omap_app in Hnd.
  apply NoDup_app in Hnd as (_ & _ & Hnd). cbn [omap list_omap] in Hnd.
  apply NoDup_cons in Hnd as [Hnotin _]. intros Hin. apply Hnotin.
  apply list_elem_of_omap. by exists (Some h).
Qed.

(** With handlers that unsubscribe at most themselves, the loop started
    at [index] calls the handlers from there on, in order, each on the
    world the one before it left, logs what they throw, and ends. *)
Lemma iterate_in_order ty event :
  unsubscribes_only_itself call ty event →
  ∀ fuel index (r : Run) s,
    handlers (bus (world r)) !! ty = Some s →
    NoDup (Set_values s) →
    (length s - index < fuel)%nat →
    ∃ r', iterate call fuel ty event index r = Some (Normal r')
          ∧ invoked r'
            = invoked r ++ ((λ h, (h, event)) <$> Set_values (drop index s))
          ∧ world r'
            = calledInOrder call event (Set_values (drop index s)) (world r)
          ∧ console r'
            = console r
              ++ thrownInOrder call ty event (Set_values (drop index s))
                   (world r).
Proof.
  intros Hself.
  induction fuel as [|fuel IH]; intros index r s Hs Hnd Hfuel; [lia|].
  simpl. rewrite Hs. simpl.
  destruct (s !! index) as [[h|]|] eqn:E.
  - rewrite guarded_call_normal.
    assert (Hlen : (index < length s)%nat) by (by eapply lookup_lt_Some).
    set (r1 := mkRun (after (call h event (world r)))
                 (match call h event (world r) with
                  | Normal _ => console r
                  | Throw err _ => console r ++ [(ty, err)]
                  end)
                 (invoked r ++ [(h, event)])).
    assert (Hhead : Set_values (drop index s)
                    = h :: Set_values (drop (S index) s)).
    { by rewrite (drop_S _ _ _ E). }
    assert (Hrest : ∃ s',
      handlers (bus (world r1)) !! ty = Some s'
      ∧ NoDup (Set_values s') ∧ length s' = length s
      ∧ Set_values (drop (S index) s') = Set_values (drop (S index) s)).
    { destruct (Hself h (world r) s Hs) as [Hs'|Hs'].
      - by exists s.
      - exists (Set_delete s h). split_and!; [done| | |].
        + rewrite Set_values_delete. by apply NoDup_filter.
        + unfold Set_delete. by rewrite length_fmap.
        + unfold Set_delete at 1. rewrite <- fmap_drop.
          change ((λ entry, if decide (entry = Some h) then None else entry)
                    <$> drop (S index) s)
            with (Set_delete (drop (S index) s) h).
          rewrite Set_delete_absent; [done|].
          by apply (Set_no_later_entry s index). }
    destruct Hrest as (s' & Hs' & Hnd' & Hl' & Hv').
    destruct (IH (S index) r1 s') as (r' & Hit & Hinv & Hw & Hc);
      [done|done|lia|].
    exists r'. split; [exact Hit|].
    rewrite Hinv, Hw, Hc, Hv', Hhead. unfold r1. cbn [invoked world console].
    split_and!.
    + rewrite fmap_cons. by rewrite <- app_assoc.
    + done.
    + cbn [thrownInOrder]. destruct (call h event (world r)); [done|].
      by rewrite <- app_assoc.
  - destruct (IH (S index) r s) as (r' & Hit & Hinv & Hw & Hc); [done|done| |].
    + apply lookup_lt_Some in E. lia.
    + exists r'. split; [exact Hit|].
      rewrite Hinv, Hw, Hc. by rewrite (drop_S _ _ _ E).
  - exists r. split; [done|].
    apply lookup_ge_None in E. rewrite drop_ge by lia.
    cbn. by rewrite !app_nil_r.
Qed.


(** Handlers that leave the set alone unsubscribe nothing. *)
Lemma keeps_handlers_only_itself ty event :
  keeps_handlers call ty event → unsubscribes_only_itself call ty event.
Proof. intros Hkeep h w s Hs. left. by rewrite Hkeep. Qed.

(** Whether handlers throw or return makes no difference to which
    handlers the loop calls, nor to the world it leaves. *)
Lemma iterate_quiet ty event : ∀ fuel index (r1 r2 : Run),
  world r1 = world r2 → invoked r1 = invoked r2 →
  same_dispatch (iterate call fuel ty event index r1)
    (iterate (quiet call) fuel ty event index r2).
Proof.
  induction fuel as [|fuel IH]; intros index r1 r2 Hw Hi; [done|].
  simpl. rewrite <- Hw.
  destruct (default [] _ !! index) as [[h|]|]; [|by apply IH|done].
  rewrite !guarded_call_normal. apply IH; cbn [world invoked].
  - unfold quiet. by rewrite Hw.
  - by rewrite Hi.
Qed.

(** C8, amended.  [emit] never throws: whatever the handlers do, it
    does not complete with an exception, and for a type nobody
    subscribed to it does nothing.  With handlers that, while they
    run, change the set of handlers of the emitted type at most by
    unsubscribing themselves (as handlers registered with [once] do),
    [emit] returns after calling every handler registered for the type
    once, in registration order, each with the same event, whichever
    of them throw: the world it leaves is the one these handlers leave
    when called one after the other, and what they threw is logged.
    For any handlers, the calls made and the world left are those of
    the dispatch in which the same handlers return instead of
    throwing. *)
Theorem emit_isolates_handlers ty payload now (r : Run) :
  let event := mkEvent ty now payload in
  (∀ fuel err r', emit call fuel ty payload now r ≠ Some (Throw err r'))
  ∧ (handlers (bus (world r)) !! ty = None →
     ∀ fuel, emit call fuel ty payload now r = Some (Normal r))
  ∧ (unsubscribes_only_itself call ty event →
     ∀ s, handlers (bus (world r)) !! ty = Some s →
       NoDup (Set_values s) →
       ∃ r', (∀ fuel, (length s < fuel)%nat →
                emit call fuel ty payload now r = Some (Normal r'))
             ∧ invoked r'
               = invoked r ++ ((λ h, (h, event)) <$> Set_values s)
             ∧ (∀ h, h ∈ Set_values s → (h, event) ∈ invoked r')
             ∧ world r' = calledInOrder call event (Set_values s) (world r)
             ∧ console r'
               = console r
                 ++ thrownInOrder call ty event (Set_values s) (world r))
  ∧ (∀ fuel, same_dispatch (emit call fuel ty payload now r)
               (emit (quiet call) fuel ty payload now r)).
Proof.
  intros event. split_and!.
  - intros fuel err r'. unfold emit.
    destruct (handlers _ !! ty); [apply iterate_never_throws|done].
  - intros Hnone fuel. unfold emit. by rewrite Hnone.
  - intros Hself s Hs Hnd.
    destruct (iterate_in_order ty event Hself (S (length s)) 0 r s Hs Hnd)
      as (r' & Hit & Hinv & Hw & Hc); [lia|].
    rewrite drop_0 in Hinv, Hw, Hc.
    exists r'. split_and!; [|exact Hinv| |exact Hw|exact Hc].
    + intros fuel Hfuel. unfold emit. rewrite Hs. fold event.
      apply (iterate_more_fuel (S (length s))); [exact Hit|lia].
    + intros h Hh. rewrite Hinv. apply elem_of_app. right.
      by apply (list_elem_of_fmap_2 (λ h, (h, event))).
  - intros fuel. unfold emit.
    destruct (handlers _ !! ty); [by apply iterate_quiet|done].
Qed.

End BusDispatch.

Section BusExample.
Import EventBus BusSpec.

(** The sets [on] and [off] build hold a handler once. *)
Lemma Set_add_NoDup (s : HandlerSet) h :
  NoDup (Set_values s) → NoDup (Set_values (Set_add s h)).
Proof.
  intros Hnd. unfold Set_add, Set_has. case_bool_decide as Hin; [done|].
  unfold Set_values. rewrite omap_app. cbn [omap list_omap].
  apply NoDup_app. split_and!; [done| |apply NoDup_singleton].
  intros x Hx Hx'. apply list_elem_of_singleton in Hx' as ->.
  apply Hin. apply list_elem_of_omap in Hx as (e & He & Heq).
  simpl in Heq. by subst.
Qed.



(** The wrapper of [once] unsubscribes itself and nothing else. *)
Lemma once_table_only_itself event :
  unsubscribes_only_itself Sample.onceTable risk_breach event.
Proof.
  intros [|h] w s Hs.
  - right. cbn [Sample.onceTable Sample.handlerTable onceWrapper after bus off].
    unfold off. cbn [handlers]. rewrite lookup_alter_eq, Hs. done.
  - left. done.
Qed.

Lemma emit_isolates_handlers_witness :
  ∃ r', emit Sample.onceTable 3 risk_breach "breach"%string 0 Sample.idleRun
        = Some (Normal r')
        ∧ (invoked r').*1 = [0; 1]%nat
        ∧ app (world r') = 1%nat
        ∧ console r' = [(risk_breach, "boom"%string)].
Proof.
  destruct (emit_isolates_handlers Sample.onceTable risk_breach
              "breach"%string 0%Z Sample.idleRun) as (_ & _ & H & _).
  destruct (H (once_table_only_itself _) [Some 0; Some 1]%nat eq_refl)
    as (r' & Hemit & Hinv & _ & Hw & Hc).
  - apply (bool_decide_unpack _). reflexivity.
  - exists r'. split_and!.
    + apply Hemit. simpl. lia.
    + rewrite Hinv. reflexivity.
    + rewrite Hw. reflexivity.
    + rewrite Hc. reflexivity.
Defined.

(** C8 as stated fails: being registered when [emit] is called does
    not make a handler be invoked.  The loop reads the live set, so
    the first of two handlers, unsubscribing the second, keeps it from
    being called: the second is in no call and the count it keeps
    stays at zero. *)
Lemma unsubscribed_handler_is_skipped :
  registered (bus (world Sample.idleRun)) risk_breach = [0; 1]%nat
  ∧ ∃ r',
      (∀ fuel, (3 ≤ fuel)%nat →
         emit Sample.cuttingTable fuel risk_breach "breach"%string 0
           Sample.idleRun = Some (Normal r'))
      ∧ (invoked r').*1 = [0]%nat
      ∧ app (world r') = 0%nat
      ∧ registered (bus (world r')) risk_breach = [0]%nat.
Proof.
  split; [reflexivity|]. eexists. split_and!.
  - intros fuel Hfuel. unfold emit.
    change (handlers (bus (world Sample.idleRun)) !! risk_breach)
      with (Some [Some 0; Some 1]%nat).
    apply (iterate_more_fuel Sample.cuttingTable 3); [reflexivity|done].
  - reflexivity.
  - reflexivity.
  - reflexivity.
Qed.

End BusExample.

(* ===================================================================== *)
(** * Numbers: sums, minima, bounds on the logarithm                      *)
(* ===================================================================== *)

Section Numbers.
Import ArbSpec.

Lemma Rsum_cons x l : Rsum (x :: l) = x + Rsum l.
Proof. done. Qed.

(** Over a divisor that is not zero, [Math.min(a / b, c)] is the
    minimum of the real quotient and [c]. *)
Lemma Math_min_div_finite a b c :
  b ≠ 0 → Math_min_inf (Number_div a b) c = Rmin (a / b) c.
Proof.
  intros Hb. unfold Number_div. rewrite decide_False; [done|]. tauto.
Qed.

(** A positive number over zero is [+Infinity]: the minimum is [c]. *)
Lemma Math_min_div_by_zero a c :
  a > 0 → Math_min_inf (Number_div a 0) c = c.
Proof. intros Ha. unfold Number_div. by rewrite decide_True. Qed.

Lemma Math_min_inf_le q c : Math_min_inf q c <= c.
Proof. destruct q as [a|]; cbn [Math_min_inf]; [apply Rmin_r|lra]. Qed.

Lemma fold_left_Rplus (l : list R) (a : R) :
  fold_left Rplus l a = a + Rsum l.
Proof.
  revert a. induction l as [|x l IH]; intros a; simpl; [lra|].
  rewrite IH. unfold Rsum. simpl. lra.
Qed.

Lemma Rmin_swap a b c : Rmin a (Rmin b c) = Rmin b (Rmin a c).
Proof. rewrite !Rmin_assoc. f_equal. apply Rmin_comm. Qed.

Lemma Rmin_list_head_min a r l :
  Rmin_list (Rmin a r) l = Rmin_list a (r :: l).
Proof.
  induction l as [|y l IH]; [apply Rmin_comm|].
  change (Rmin_list (Rmin a r) (y :: l)) with (Rmin y (Rmin_list (Rmin a r) l)).
  rewrite IH. apply Rmin_swap.
Qed.

Lemma fold_left_Rmin (l : list R) (a : R) :
  fold_left Rmin l a = Rmin_list a l.
Proof.
  revert a. induction l as [|x l IH]; intros a; simpl; [done|].
  rewrite IH. apply Rmin_list_head_min.
Qed.

Lemma Rmin_list_le_head a l : Rmin_list a l <= a.
Proof.
  induction l as [|x l IH]; simpl; [lra|].
  eapply Rle_trans; [apply Rmin_r|done].
Qed.

Lemma Rmin_list_le_elem a l x : x ∈ l → Rmin_list a l <= x.
Proof.
  induction 1 as [x l|x y l _ IH]; simpl.
  - apply Rmin_l.
  - eapply Rle_trans; [apply Rmin_r|done].
Qed.

Lemma Rmin_list_attained a l : Rmin_list a l = a ∨ Rmin_list a l ∈ l.
Proof.
  induction l as [|x l IH]; [by left|].
  change (Rmin_list a (x :: l)) with (Rmin x (Rmin_list a l)).
  destruct (Rle_dec x (Rmin_list a l)).
  - right. rewrite Rmin_left by done. by left.
  - rewrite Rmin_right by lra.
    destruct IH as [IH|IH]; [by left|right; by right].
Qed.

(** The minimum depends on the set of numbers only. *)
Lemma Rmin_list_ext a l l' :
  (∀ x, x ∈ l ↔ x ∈ l') → Rmin_list a l = Rmin_list a l'.
Proof.
  intros H. apply Rle_antisym.
  - destruct (Rmin_list_attained a l') as [E|E].
    + rewrite E. apply Rmin_list_le_head.
    + apply Rmin_list_le_elem. by apply H.
  - destruct (Rmin_list_attained a l) as [E|E].
    + rewrite E. apply Rmin_list_le_head.
    + apply Rmin_list_le_elem. by apply H.
Qed.

Lemma Rmin_list_app a l l' :
  Rmin_list a (l ++ l') = Rmin_list (Rmin_list a l') l.
Proof. unfold Rmin_list. by rewrite foldr_app. Qed.

Lemma Rmin_list_swap a x xs :
  Rmin a (Rmin_list x xs) = Rmin x (Rmin_list a xs).
Proof.
  induction xs as [|y xs IH]; [apply Rmin_comm|].
  change (Rmin_list x (y :: xs)) with (Rmin y (Rmin_list x xs)).
  change (Rmin_list a (y :: xs)) with (Rmin y (Rmin_list a xs)).
  rewrite (Rmin_swap a y), IH. apply Rmin_swap.
Qed.

(** [Math.min(a, Math.min(...xs))] is the minimum of [a] and [xs]. *)
Lemma Math_min_spread_spec a xs :
  Math_min_with_inf a (Math_min_spread xs) = Rmin_list a xs.
Proof.
  destruct xs as [|x xs]; [done|].
  unfold Math_min_spread, Math_min_with_inf.
  rewrite fold_left_Rmin. apply Rmin_list_swap.
Qed.

Lemma exp_double_lower x a b :
  0 <= a → a < exp x → b <= a * a → b < exp (2 * x).
Proof.
  intros Ha Hx Hb. replace (2 * x) with (x + x) by lra.
  rewrite exp_plus. nra.
Qed.

Lemma last_cons_default (rest : list R) : ∀ a b,
  List.last (b :: rest) a = List.last rest b.
Proof.
  induction rest as [|c r IH]; intros a b; [done|].
  change (List.last (b :: c :: r) a) with (List.last (c :: r) a).
  by rewrite (IH a c), (IH b c).
Qed.

(** Squaring a lower bound of [exp x] bounds [exp (2 x)], and so on. *)
Lemma exp_squaring l : ∀ x a,
  a < exp x → squares_below a l → List.last l a < exp (2 ^ length l * x).
Proof.
  induction l as [|b rest IH]; intros x a Hx Hl.
  - simpl. by rewrite Rmult_1_l.
  - destruct Hl as (Ha & Hb & Hrest).
    rewrite last_cons_default.
    replace (2 ^ length (b :: rest) * x) with (2 ^ length rest * (2 * x))
      by (simpl; lra).
    apply IH; [|done]. by apply (exp_double_lower x a).
Qed.

Lemma exp_lower_02232 : 1.25 < exp 0.2232.
Proof.
  pose proof (exp_squaring
    [1.000217980627; 1.000436008769; 1.000872207641; 1.001745176028;
     1.003493397695; 1.006998999217; 1.014046984424; 1.028291286619;
     1.057382970136; 1.118058745533; 1.250055358462]
    (0.2232 / 2048) 1.000108984375) as H.
  simpl in H.
  replace (2 * (2 * (2 * (2 * (2 * (2 * (2 * (2 * (2 * (2 * (2 * 1))))))))))
           * (0.2232 / 2048)) with 0.2232 in H by lra.
  eapply Rlt_trans; [|apply H].
  - lra.
  - pose proof (exp_ineq1 (0.2232 / 2048)). lra.
  - repeat split; lra.
Qed.

Lemma exp_upper_02231 : exp 0.2231 < 1.25.
Proof.
  pose proof (exp_squaring
    [0.999782140772; 0.999564329006; 0.999128847821; 0.998258454548;
     0.996519942076; 0.993051994955; 0.986152264684; 0.972496289141;
     0.945749032393; 0.894441232272; 0.800025117988]
    (- 0.2231 / 2048) 0.999891064453) as H.
  simpl in H.
  replace (2 * (2 * (2 * (2 * (2 * (2 * (2 * (2 * (2 * (2 * (2 * 1))))))))))
           * (- 0.2231 / 2048)) with (- 0.2231) in H by lra.
  assert (L : 0.8 < exp (- 0.2231)).
  { eapply Rlt_trans; [|apply H].
    - lra.
    - pose proof (exp_ineq1 (- 0.2231 / 2048)). lra.
    - repeat split; lra. }
  assert (E : exp 0.2231 * exp (- 0.2231) = 1).
  { rewrite <- exp_plus. replace (0.2231 + - 0.2231) with 0 by lra.
    apply exp_0. }
  pose proof (exp_pos 0.2231). nra.
Qed.

(** ln 1.25 = 0.22314... *)
Lemma ln_five_quarters : 0.2231 < ln 1.25 < 0.2232.
Proof.
  split.
  - rewrite <- (ln_exp 0.2231). apply ln_increasing; [apply exp_pos|].
    apply exp_upper_02231.
  - rewrite <- (ln_exp 0.2232). apply ln_increasing; [lra|].
    apply exp_lower_02232.
Qed.

End Numbers.

(* ===================================================================== *)
(** * Arbitrage strategy: the simple-arbitrage path                       *)
(* ===================================================================== *)

Section SimpleArb.
Import BregmanArb ArbSpec.
Variables (B : Builtins) (cfg : Config) (ctx : Context) (now : Z).
Variables (trigger : string) (triggerBook : OrderBook.t).

Abbreviation bookFor' := (bookFor ctx trigger triggerBook).
Abbreviation askPriceOf' := (askPriceOf ctx trigger triggerBook).
Abbreviation askSizeOf' := (askSizeOf ctx trigger triggerBook).

Abbreviation agrees := (agreesOn ctx trigger triggerBook).

Lemma gatherBooks_usable siblings : ∀ books0,
  (∀ tokenId, tokenId ∈ siblings →
     ∃ book, bookFor' tokenId = Some book ∧ isFresh cfg now book) →
  ∃ books,
    gatherBooks cfg ctx now trigger triggerBook siblings books0 = Books books
    ∧ agrees books siblings
    ∧ (∀ tokenId, tokenId ∉ siblings → books !! tokenId = books0 !! tokenId).
Proof.
  induction siblings as [|sib rest IH]; intros books0 Hok.
  - exists books0. split_and!; [done| |done]. intros tok Htok.
    by apply elem_of_nil in Htok.
  - destruct (Hok sib) as (book & Hbook & Hfresh); [by left|].
    simpl. unfold bookFor in Hbook. rewrite Hbook.
    unfold isFresh in Hfresh. rewrite decide_False by done.
    destruct (IH (<[sib := book]> books0)) as (books & Hg & Hin & Hout).
    { intros tok Htok. apply Hok. by right. }
    exists books. split_and!; [done| |].
    + intros tok Htok. destruct (decide (tok ∈ rest)) as [Hr|Hr].
      * by apply Hin.
      * apply elem_of_cons in Htok as [->|?]; [|done].
        rewrite Hout by done. rewrite lookup_insert_eq.
        unfold bookFor. by rewrite Hbook.
    + intros tok Htok. apply not_elem_of_cons in Htok as [Hne Hr].
      rewrite Hout by done. by rewrite lookup_insert_ne.
Qed.

Lemma scanAsks_all books tokenIds : ∀ askSum prices sizes,
  agrees books tokenIds →
  (∀ tokenId, tokenId ∈ tokenIds → is_Some (bestAskOf ctx trigger triggerBook tokenId)) →
  ∃ prices' sizes',
    scanAsks books tokenIds askSum prices sizes
    = Asks (askSum + Rsum (askPriceOf' <$> tokenIds)) prices' sizes'
    ∧ (∀ tokenId, tokenId ∈ tokenIds →
         prices' !! tokenId = Some (askPriceOf' tokenId)
         ∧ sizes' !! tokenId = Some (askSizeOf' tokenId))
    ∧ (∀ tokenId, tokenId ∉ tokenIds →
         prices' !! tokenId = prices !! tokenId
         ∧ sizes' !! tokenId = sizes !! tokenId).
Proof.
  induction tokenIds as [|tok rest IH]; intros askSum prices sizes Hag Hasks.
  - exists prices, sizes. split_and!.
    + simpl. f_equal. unfold Rsum. simpl. lra.
    + intros t Ht. by apply elem_of_nil in Ht.
    + done.
  - destruct (Hasks tok) as [best Hbest]; [by left|].
    assert (Hp : askPriceOf' tok = PriceLevel.price best)
      by (unfold askPriceOf; by rewrite Hbest).
    assert (Hs : askSizeOf' tok = PriceLevel.size best)
      by (unfold askSizeOf; by rewrite Hbest).
    rewrite fmap_cons, Rsum_cons, Hp.
    unfold bestAskOf in Hbest.
    destruct (bookFor' tok) as [book|] eqn:Hbook; [|done].
    simpl in Hbest.
    simpl. rewrite (Hag tok) by (by left). rewrite Hbook.
    destruct (OrderBook.asks book) as [|best' more]; [done|].
    injection Hbest as ->.
    destruct (IH (askSum + PriceLevel.price best)
                (<[tok := PriceLevel.price best]> prices)
                (<[tok := PriceLevel.size best]> sizes))
      as (prices' & sizes' & Hscan & Hin & Hout).
    { intros t Ht. apply Hag. by right. }
    { intros t Ht. apply Hasks. by right. }
    exists prices', sizes'. split_and!.
    + rewrite Hscan. f_equal. lra.
    + intros t Ht. destruct (decide (t ∈ rest)) as [Hr|Hr]; [by apply Hin|].
      apply elem_of_cons in Ht as [->|?]; [|done].
      destruct (Hout tok Hr) as [-> ->].
      rewrite !lookup_insert_eq. by rewrite Hp, Hs.
    + intros t Ht. apply not_elem_of_cons in Ht as [Hne Hr].
      destruct (Hout t Hr) as [-> ->].
      by rewrite !lookup_insert_ne.
Qed.

Lemma mapM_total {A C : Type} (f : A → option C) (g : A → C) (l : list A) :
  (∀ x, x ∈ l → f x = Some (g x)) → mapM f l = Some (g <$> l).
Proof.
  induction l as [|x l IH]; intros H; [done|].
  cbn [mapM]. rewrite (H x) by (by left). simpl.
  rewrite IH; [done|]. intros y Hy. apply H. by right.
Qed.

Lemma capByPositions_spec tokenIds : ∀ size,
  capByPositions cfg ctx tokenIds size
  = Rmin_list size (remainingCapacity cfg ctx <$> tokenIds).
Proof.
  unfold capByPositions.
  induction tokenIds as [|tok rest IH]; intros size; [done|].
  cbn [fold_left]. rewrite IH. rewrite fmap_cons.
  unfold Math_min2. apply Rmin_list_head_min.
Qed.

(** The values of [askSizes] after the scan are the best-ask sizes of
    the tokens of the group. *)
Lemma scanned_sizes_values (tokenIds : list string) (sizes' : gmap string R) :
  (∀ tokenId, tokenId ∈ tokenIds →
     sizes' !! tokenId = Some (askSizeOf' tokenId)) →
  (∀ tokenId, tokenId ∉ tokenIds → sizes' !! tokenId = None) →
  ∀ x, x ∈ (map_to_list sizes').*2 ↔ x ∈ askSizeOf' <$> tokenIds.
Proof.
  intros Hin Hout x. rewrite !list_elem_of_fmap. split.
  - intros ([k v] & -> & Hkv). apply elem_of_map_to_list in Hkv.
    destruct (decide (k ∈ tokenIds)) as [Hk|Hk].
    + exists k. split; [|done]. rewrite (Hin k Hk) in Hkv. by injection Hkv.
    + by rewrite (Hout k Hk) in Hkv.
  - intros (k & -> & Hk). exists (k, askSizeOf' k). split; [done|].
    apply elem_of_map_to_list. by apply Hin.
Qed.

(** The signals of the simple-arbitrage path, with the confidence as
    the code computes it. *)
Lemma checkSimpleArb_signals group books :
  agrees books (MarketGroup.tokenIds group) →
  allHaveAsks ctx trigger triggerBook group →
  ¬ (simpleEdge cfg ctx trigger triggerBook group < minEdge cfg) →
  ¬ (basketSize cfg ctx trigger triggerBook group <= 0) →
  checkSimpleArb B cfg ctx group books
  = Some ((λ tokenId,
             TradeSignal.mk tokenId BUY
               (Math_min_inf
                  (Number_div (simpleEdge cfg ctx trigger triggerBook group)
                     (minEdge cfg)) 1)
               (TradeSignal.targetPrice
                  (simpleArbSignal cfg ctx trigger triggerBook B group
                     tokenId))
               (TradeSignal.size
                  (simpleArbSignal cfg ctx trigger triggerBook B group
                     tokenId))
               (TradeSignal.reason
                  (simpleArbSignal cfg ctx trigger triggerBook B group
                     tokenId)))
            <$> MarketGroup.tokenIds group).
Proof.
  intros Hag Hasks Hedge Hsize. unfold checkSimpleArb.
  destruct (scanAsks_all books (MarketGroup.tokenIds group) 0 ∅ ∅ Hag Hasks)
    as (prices' & sizes' & -> & Hin & Hout).
  rewrite Rplus_0_l.
  change (Rsum (askPriceOf' <$> MarketGroup.tokenIds group))
    with (askSumOf ctx trigger triggerBook group).
  change (1 - askSumOf ctx trigger triggerBook group * (1 + feeRate cfg))
    with (simpleEdge cfg ctx trigger triggerBook group).
  rewrite decide_False by done.
  assert (Hsz : capByPositions cfg ctx (MarketGroup.tokenIds group)
                  (Math_min_with_inf (orderSize cfg)
                     (Math_min_spread (map_to_list sizes').*2))
                = basketSize cfg ctx trigger triggerBook group).
  { rewrite capByPositions_spec, Math_min_spread_spec.
    unfold basketSize. rewrite <- Rmin_list_app.
    apply Rmin_list_ext. intros x. rewrite !elem_of_app.
    rewrite (scanned_sizes_values (MarketGroup.tokenIds group) sizes').
    - tauto.
    - intros t Ht. by apply Hin.
    - intros t Ht. destruct (Hout t Ht) as [_ ->]. apply lookup_empty. }
  rewrite Hsz. rewrite decide_False by done.
  apply mapM_total. intros t Ht. destruct (Hin t Ht) as [-> _]. done.
Qed.

(** With a minimum edge that is not zero, the confidence is
    min(E / minEdge, 1). *)
Lemma checkSimpleArb_fires group books :
  minEdge cfg ≠ 0 →
  agrees books (MarketGroup.tokenIds group) →
  allHaveAsks ctx trigger triggerBook group →
  ¬ (simpleEdge cfg ctx trigger triggerBook group < minEdge cfg) →
  ¬ (basketSize cfg ctx trigger triggerBook group <= 0) →
  checkSimpleArb B cfg ctx group books
  = Some (simpleArbSignal cfg ctx trigger triggerBook B group
            <$> MarketGroup.tokenIds group).
Proof.
  intros Hmin Hag Hasks Hedge Hsize.
  rewrite checkSimpleArb_signals by done.
  by rewrite Math_min_div_finite by done.
Qed.

(** With a minimum edge of zero and a positive edge, the quotient is
    [+Infinity] and the confidence is 1. *)
Lemma checkSimpleArb_zero_min_edge group books :
  minEdge cfg = 0 →
  agrees books (MarketGroup.tokenIds group) →
  allHaveAsks ctx trigger triggerBook group →
  simpleEdge cfg ctx trigger triggerBook group > 0 →
  ¬ (basketSize cfg ctx trigger triggerBook group <= 0) →
  ∃ signals,
    checkSimpleArb B cfg ctx group books = Some signals
    ∧ TradeSignal.tokenId <$> signals = MarketGroup.tokenIds group
    ∧ Forall (λ s, TradeSignal.confidence s = 1) signals.
Proof.
  intros Hmin Hag Hasks Hedge Hsize. eexists. split_and!.
  - apply checkSimpleArb_signals; [done|done|lra|done].
  - rewrite <- list_fmap_compose. apply list_fmap_id.
  - apply Forall_fmap, Forall_forall. intros t _.
    cbn [TradeSignal.confidence compose]. rewrite Hmin.
    by apply Math_min_div_by_zero.
Qed.

(** The index [indexGroups] builds is sound. *)
Lemma indexGroups_sound groups tokenId group :
  indexGroups groups !! tokenId = Some group →
  tokenId ∈ MarketGroup.tokenIds group.
Proof.
  unfold indexGroups.
  assert (Hgen : ∀ idx : gmap string MarketGroup.t,
    (∀ t g, idx !! t = Some g → t ∈ MarketGroup.tokenIds g) →
    ∀ t g, fold_left indexGroup groups idx !! t = Some g →
           t ∈ MarketGroup.tokenIds g).
  { induction groups as [|g0 rest IH]; intros idx Hidx; [done|].
    cbn [fold_left]. apply IH. unfold indexGroup.
    assert (Hin : ∀ (toks : list string) (idx' : gmap string MarketGroup.t),
      (∀ t, t ∈ toks → t ∈ MarketGroup.tokenIds g0) →
      (∀ t g, idx' !! t = Some g → t ∈ MarketGroup.tokenIds g) →
      ∀ t g, fold_left (λ i tok, <[tok := g0]> i) toks idx' !! t = Some g →
             t ∈ MarketGroup.tokenIds g).
    { induction toks as [|tok toks IHt]; intros idx' Hsub Hidx'; [done|].
      cbn [fold_left]. apply IHt.
      - intros t Ht. apply Hsub. by right.
      - intros t g. destruct (decide (tok = t)) as [->|Hne].
        + rewrite lookup_insert_eq. intros [= <-]. apply Hsub. by left.
        + rewrite lookup_insert_ne by done. apply Hidx'. }
    by apply Hin. }
  apply Hgen. intros t g. by rewrite lookup_empty.
Qed.

End SimpleArb.

Section SimpleArbEvaluate.
Import BregmanArb ArbSpec.

Lemma create_indexSound groups cfg : indexSound (create groups cfg).
Proof. intros t g. apply indexGroups_sound. Qed.

Lemma updateMarketGroups_indexSound st groups :
  indexSound (updateMarketGroups st groups).
Proof. intros t g. apply indexGroups_sound. Qed.

(** C4.  When every token of the trigger's group has a usable book
    with a non-empty ask side, the edge
    E = 1 - (sum of best ask prices) * (1 + fee_rate) is at least
    [minEdge] and the computed size is positive, [evaluate] returns
    one BUY signal per token of the group, in the group's order, each
    at that token's best ask price, all with the size
    min(base size, best-ask sizes, remaining capacities) and the
    confidence min(E / minEdge, 1), the quotient being a number:
    [minEdge] is not zero (over a zero [minEdge] the code divides by
    zero, see [checkSimpleArb_zero_min_edge]).  The counters show that
    the Bregman check was not reached: [simpleArbSignals] grows by the
    size of the group, [bregmanArbSignals] and [noArbFound] stay. *)
Theorem simple_arb_basket B ctx now st trigger triggerBook group :
  enabled st = true →
  minEdge (config st) ≠ 0 →
  indexSound st →
  tokenToGroup st !! trigger = Some group →
  booksUsable (config st) ctx now trigger triggerBook group →
  allHaveAsks ctx trigger triggerBook group →
  simpleEdge (config st) ctx trigger triggerBook group >= minEdge (config st) →
  basketSize (config st) ctx trigger triggerBook group > 0 →
  ∃ signals st',
    evaluate B ctx now st trigger triggerBook = Some (signals, st')
    ∧ signals = simpleArbSignal (config st) ctx trigger triggerBook B group
                  <$> MarketGroup.tokenIds group
    ∧ TradeSignal.tokenId <$> signals = MarketGroup.tokenIds group
    ∧ Forall (λ s,
        TradeSignal.side s = BUY
        ∧ TradeSignal.targetPrice s
          = askPriceOf ctx trigger triggerBook (TradeSignal.tokenId s)
        ∧ TradeSignal.size s
          = basketSize (config st) ctx trigger triggerBook group
        ∧ TradeSignal.confidence s
          = Rmin (simpleEdge (config st) ctx trigger triggerBook group
                  / minEdge (config st)) 1) signals
    ∧ simpleArbSignals (stats st')
      = (simpleArbSignals (stats st)
         + length (MarketGroup.tokenIds group))%nat
    ∧ bregmanArbSignals (stats st') = bregmanArbSignals (stats st)
    ∧ noArbFound (stats st') = noArbFound (stats st).
Proof.
  intros Hen Hmin Hidx Hgroup Hbooks Hasks Hedge Hsize.
  destruct (gatherBooks_usable (config st) ctx now trigger triggerBook
              (MarketGroup.tokenIds group) ∅ Hbooks)
    as (books & Hgather & Hag & _).
  assert (Hfire := checkSimpleArb_fires B (config st) ctx trigger triggerBook
                     group books Hmin Hag Hasks).
  eexists _, _. split.
  - unfold evaluate. rewrite Hen. cbn [negb]. rewrite Hgroup, Hgather.
    rewrite Hfire by lra. cbn [mbind option_bind].
    rewrite decide_True; [reflexivity|].
    rewrite length_fmap. apply Hidx in Hgroup.
    destruct (MarketGroup.tokenIds group); [by apply elem_of_nil in Hgroup|].
    simpl. lia.
  - split_and!; try done.
    + rewrite <- list_fmap_compose. apply list_fmap_id.
    + apply Forall_fmap. apply Forall_forall. intros t _. done.
    + cbn. by rewrite length_fmap.
Qed.

End SimpleArbEvaluate.

Section SimpleArbExample.
Import BregmanArb ArbSpec.

(** Settle minima of concrete numbers. *)
Ltac Rmin_cases :=
  unfold Rmin_list, Math_min3, Math_min2; cbn [foldr app fmap list_fmap];
  unfold Rmin; repeat destruct (Rle_dec _ _); try lra.

Lemma threeWay_usable :
  booksUsable defaultConfig Sample.threeWayContext 1700000000000
    "token-a" Sample.bookA Sample.threeWay.
Proof.
  intros tok Htok. cbn [Sample.threeWay MarketGroup.tokenIds] in Htok.
  repeat (apply elem_of_cons in Htok as [->|Htok]);
    [| | |by apply elem_of_nil in Htok];
    eexists; (split; [reflexivity|]); unfold isFresh; simpl;
    rewrite Z.sub_diag; lra.
Qed.

Lemma threeWay_asks :
  allHaveAsks Sample.threeWayContext "token-a" Sample.bookA Sample.threeWay.
Proof.
  intros tok Htok. cbn [Sample.threeWay MarketGroup.tokenIds] in Htok.
  repeat (apply elem_of_cons in Htok as [->|Htok]);
    [| | |by apply elem_of_nil in Htok]; eexists; reflexivity.
Qed.

Lemma threeWay_edge :
  simpleEdge defaultConfig Sample.threeWayContext "token-a" Sample.bookA
    Sample.threeWay = 1 - (0.25 + (0.25 + (0.25 + 0))) * (1 + 0.02).
Proof. reflexivity. Qed.

Lemma threeWay_size :
  basketSize defaultConfig Sample.threeWayContext "token-a" Sample.bookA
    Sample.threeWay = 10.
Proof.
  change (basketSize defaultConfig Sample.threeWayContext "token-a"
            Sample.bookA Sample.threeWay)
    with (Rmin_list 10 ([30; 30; 30] ++ [50 - 0; 50 - 0; 50 - 0])).
  Rmin_cases.
Qed.

Lemma simple_arb_basket_witness :
  ∃ signals st',
    evaluate Sample.builtins Sample.threeWayContext 1700000000000
      Sample.threeWayStrategy "token-a" Sample.bookA = Some (signals, st')
    ∧ TradeSignal.tokenId <$> signals
      = ["token-a"; "token-b"; "token-c"]%string
    ∧ TradeSignal.size <$> signals = [10; 10; 10]
    ∧ TradeSignal.targetPrice <$> signals = [0.25; 0.25; 0.25].
Proof.
  destruct (simple_arb_basket Sample.builtins Sample.threeWayContext
              1700000000000 Sample.threeWayStrategy "token-a" Sample.bookA
              Sample.threeWay)
    as (signals & st' & Hev & Hsig & Htok & _).
  - reflexivity.
  - change (config Sample.threeWayStrategy) with defaultConfig.
    cbn [defaultConfig minEdge]. lra.
  - apply create_indexSound.
  - reflexivity.
  - apply threeWay_usable.
  - apply threeWay_asks.
  - change (config Sample.threeWayStrategy) with defaultConfig.
    rewrite threeWay_edge. simpl. lra.
  - change (config Sample.threeWayStrategy) with defaultConfig.
    rewrite threeWay_size. lra.
  - change (config Sample.threeWayStrategy) with defaultConfig in Hsig.
    exists signals, st'. split_and!; [exact Hev|exact Htok| |].
    + rewrite Hsig. cbn [fmap list_fmap Sample.threeWay MarketGroup.tokenIds
                         simpleArbSignal TradeSignal.size].
      rewrite threeWay_size. reflexivity.
    + rewrite Hsig. reflexivity.
Defined.

End SimpleArbExample.

(* ===================================================================== *)
(** * Arbitrage strategy: the Bregman path                                *)
(* ===================================================================== *)

Section BregmanPath.
Import BregmanArb ArbSpec.
Variables (B : Builtins) (cfg : Config) (ctx : Context) (now : Z).
Variables (trigger : string) (triggerBook : OrderBook.t).

Abbreviation agrees := (agreesOn ctx trigger triggerBook).
Abbreviation midOf' := (midOf ctx trigger triggerBook).

(** Below the edge, the simple-arbitrage check returns nothing. *)
Lemma checkSimpleArb_silent group books :
  agrees books (MarketGroup.tokenIds group) →
  allHaveAsks ctx trigger triggerBook group →
  simpleEdge cfg ctx trigger triggerBook group < minEdge cfg →
  checkSimpleArb B cfg ctx group books = Some [].
Proof.
  intros Hag Hasks Hedge. unfold checkSimpleArb.
  destruct (scanAsks_all ctx trigger triggerBook books
              (MarketGroup.tokenIds group) 0 ∅ ∅ Hag Hasks)
    as (prices' & sizes' & -> & _ & _).
  rewrite Rplus_0_l.
  change (Rsum (askPriceOf ctx trigger triggerBook
                  <$> MarketGroup.tokenIds group))
    with (askSumOf ctx trigger triggerBook group).
  change (1 - askSumOf ctx trigger triggerBook group * (1 + feeRate cfg))
    with (simpleEdge cfg ctx trigger triggerBook group).
  by rewrite decide_True.
Qed.

Lemma klLoop_spec u probs : ∀ acc,
  (∀ q, q ∈ probs → q > 0) →
  klLoop u probs acc
  = Some (acc + Rsum ((λ q, u * ln (u / q)) <$> probs)).
Proof.
  induction probs as [|q rest IH]; intros acc Hpos.
  - simpl. f_equal. unfold Rsum. simpl. lra.
  - cbn [klLoop]. rewrite decide_False.
    + rewrite IH by (intros q' Hq'; apply Hpos; by right).
      f_equal. rewrite fmap_cons, Rsum_cons. lra.
    + specialize (Hpos q). assert (q > 0) by (apply Hpos; by left). lra.
Qed.

(** The search loop keeps the first index of a least element. *)
Lemma findMinProbIdx_fold probs : ∀ len a m,
  (m < a)%nat →
  (∀ j, (j < a)%nat → nth m probs 0 <= nth j probs 0) →
  let r := fold_left
             (λ minProbIdx i,
                if decide (nth i probs 0 < nth minProbIdx probs 0)
                then i else minProbIdx) (seq a len) m in
  (r < a + len)%nat
  ∧ ∀ j, (j < a + len)%nat → nth r probs 0 <= nth j probs 0.
Proof.
  induction len as [|len IH]; intros a m Hm Hmin.
  - cbn. split; [lia|]. intros j Hj. apply Hmin. lia.
  - cbn [seq fold_left].
    replace (a + S len)%nat with (S a + len)%nat by lia.
    apply IH.
    + case_decide; lia.
    + intros j Hj. destruct (decide (j = a)) as [->|Hne].
      * case_decide; lra.
      * assert (nth m probs 0 <= nth j probs 0) by (apply Hmin; lia).
        case_decide; lra.
Qed.

Lemma findMinProbIdx_spec probs :
  probs ≠ [] →
  (findMinProbIdx probs < length probs)%nat
  ∧ ∀ j, (j < length probs)%nat →
         nth (findMinProbIdx probs) probs 0 <= nth j probs 0.
Proof.
  intros Hne. unfold findMinProbIdx.
  destruct probs as [|q rest]; [done|].
  pose proof (findMinProbIdx_fold (q :: rest) (length (q :: rest) - 1) 1 0)
    as H.
  cbn zeta in H.
  replace (1 + (length (q :: rest) - 1))%nat with (length (q :: rest)) in H
    by (simpl; lia).
  apply H; [lia|]. intros j Hj. replace j with 0%nat by lia. lra.
Qed.

Lemma Math_min3_pos a b c : Math_min3 a b c > 0 → a > 0 ∧ b > 0 ∧ c > 0.
Proof.
  unfold Math_min3. intros H.
  pose proof (Rmin_l (Rmin a b) c). pose proof (Rmin_r (Rmin a b) c).
  pose proof (Rmin_l a b). pose proof (Rmin_r a b). lra.
Qed.

Lemma impliedProbs_code group :
  (λ p, p / Rsum (midOf' <$> MarketGroup.tokenIds group))
    <$> (midOf' <$> MarketGroup.tokenIds group)
  = impliedProbs ctx trigger triggerBook group.
Proof. by rewrite <- list_fmap_compose. Qed.

Lemma klDivergence_code group :
  Rsum ((λ q, 1 / INR (length (MarketGroup.tokenIds group))
              * ln (1 / INR (length (MarketGroup.tokenIds group)) / q))
          <$> impliedProbs ctx trigger triggerBook group)
  = klDivergence ctx trigger triggerBook group.
Proof. unfold impliedProbs. by rewrite <- list_fmap_compose. Qed.

(** The signal of the Bregman check, with the size and the confidence
    as the code computes them. *)
Lemma checkBregmanArb_signal group books target :
  agrees books (MarketGroup.tokenIds group) →
  (∀ tokenId, tokenId ∈ MarketGroup.tokenIds group →
     is_Some (bookFor ctx trigger triggerBook tokenId)) →
  Rsum (midOf' <$> MarketGroup.tokenIds group) ≠ 0 →
  (∀ tokenId, tokenId ∈ MarketGroup.tokenIds group →
     impliedProb ctx trigger triggerBook group tokenId > 0) →
  ¬ (klDivergence ctx trigger triggerBook group < divergenceThreshold cfg) →
  MarketGroup.tokenIds group
    !! findMinProbIdx (impliedProbs ctx trigger triggerBook group)
  = Some target →
  Math_min3
    (orderSize cfg
     * Math_min_inf
         (Number_div (klDivergence ctx trigger triggerBook group)
            (divergenceThreshold cfg)) 2)
    (askSizeOf ctx trigger triggerBook target)
    (remainingCapacity cfg ctx target) > 0 →
  checkBregmanArb B cfg ctx group books
  = Some [TradeSignal.mk target BUY
            (Math_min_inf
               (Number_div (klDivergence ctx trigger triggerBook group)
                  (divergenceThreshold cfg * 2)) 1)
            (askPriceOf ctx trigger triggerBook target)
            (Math_min3
               (orderSize cfg
                * Math_min_inf
                    (Number_div (klDivergence ctx trigger triggerBook group)
                       (divergenceThreshold cfg)) 2)
               (askSizeOf ctx trigger triggerBook target)
               (remainingCapacity cfg ctx target))
            (TradeSignal.reason
               (bregmanSignal cfg ctx trigger triggerBook B group target))].
Proof.
  intros Hag Hbooks Hsum Hpos Hkl Htarget Hsize. unfold checkBregmanArb.
  rewrite (mapM_total _ midOf').
  2:{ intros t Ht. rewrite (Hag t Ht). unfold midOf.
      destruct (Hbooks t Ht) as [b ->]. done. }
  cbn [mbind option_bind].
  rewrite fold_left_Rplus, Rplus_0_l. rewrite decide_False by done.
  rewrite impliedProbs_code.
  rewrite klLoop_spec.
  2:{ intros q Hq. unfold impliedProbs in Hq.
      apply list_elem_of_fmap in Hq as (t & -> & Ht). by apply Hpos. }
  rewrite Rplus_0_l, klDivergence_code. rewrite decide_False by done.
  rewrite Htarget. cbn [mbind option_bind].
  assert (Hin : target ∈ MarketGroup.tokenIds group)
    by (by eapply list_elem_of_lookup_2).
  rewrite (Hag target Hin).
  destruct (Hbooks target Hin) as [book Hbook]. rewrite Hbook.
  cbn [mbind option_bind].
  destruct (Math_min3_pos _ _ _ Hsize) as (_ & Havail & Hrem).
  unfold remainingCapacity in Hrem, Hsize |- *.
  rewrite decide_False by lra.
  assert (Hbest : ∃ best more, OrderBook.asks book = best :: more).
  { destruct (OrderBook.asks book) as [|best more] eqn:E; [|by eauto].
    unfold askSizeOf, bestAskOf in Havail. rewrite Hbook in Havail.
    simpl in Havail. rewrite E in Havail. simpl in Havail. lra. }
  destruct Hbest as (best & more & Easks). rewrite Easks.
  assert (Hsz : PriceLevel.size best = askSizeOf ctx trigger triggerBook target).
  { unfold askSizeOf, bestAskOf. rewrite Hbook. simpl. by rewrite Easks. }
  assert (Hpr : PriceLevel.price best = askPriceOf ctx trigger triggerBook target).
  { unfold askPriceOf, bestAskOf. rewrite Hbook. simpl. by rewrite Easks. }
  rewrite Hsz, Hpr.
  by rewrite decide_False by lra.
Qed.

(** With the size of the specification positive, the threshold is not
    zero, and size and confidence are those of the specification. *)
Lemma checkBregmanArb_fires group books target :
  agrees books (MarketGroup.tokenIds group) →
  (∀ tokenId, tokenId ∈ MarketGroup.tokenIds group →
     is_Some (bookFor ctx trigger triggerBook tokenId)) →
  Rsum (midOf' <$> MarketGroup.tokenIds group) ≠ 0 →
  (∀ tokenId, tokenId ∈ MarketGroup.tokenIds group →
     impliedProb ctx trigger triggerBook group tokenId > 0) →
  ¬ (klDivergence ctx trigger triggerBook group < divergenceThreshold cfg) →
  MarketGroup.tokenIds group
    !! findMinProbIdx (impliedProbs ctx trigger triggerBook group)
  = Some target →
  bregmanSize cfg ctx trigger triggerBook group target > 0 →
  checkBregmanArb B cfg ctx group books
  = Some [bregmanSignal cfg ctx trigger triggerBook B group target].
Proof.
  intros Hag Hbooks Hsum Hpos Hkl Htarget Hsize.
  assert (Hthr : divergenceThreshold cfg ≠ 0).
  { intros Hzero. destruct (Math_min3_pos _ _ _ Hsize) as (Hbase & _ & _).
    rewrite Hzero in Hbase. unfold Rdiv in Hbase.
    rewrite Rinv_0, Rmult_0_r in Hbase.
    rewrite Rmin_left in Hbase by lra. lra. }
  assert (Hthr2 : divergenceThreshold cfg * 2 ≠ 0)
    by (intros Hzero; apply Hthr; lra).
  rewrite (checkBregmanArb_signal group books target) by
    (try done; by rewrite Math_min_div_finite by done).
  rewrite !Math_min_div_finite by done.
  unfold bregmanSignal.
  by rewrite (Rmult_comm (divergenceThreshold cfg) 2).
Qed.

(** With a threshold of zero and a positive divergence, the quotients
    are [+Infinity]: the size is cut at twice the base size and the
    confidence is 1. *)
Lemma checkBregmanArb_zero_threshold group books target :
  divergenceThreshold cfg = 0 →
  agrees books (MarketGroup.tokenIds group) →
  (∀ tokenId, tokenId ∈ MarketGroup.tokenIds group →
     is_Some (bookFor ctx trigger triggerBook tokenId)) →
  Rsum (midOf' <$> MarketGroup.tokenIds group) ≠ 0 →
  (∀ tokenId, tokenId ∈ MarketGroup.tokenIds group →
     impliedProb ctx trigger triggerBook group tokenId > 0) →
  klDivergence ctx trigger triggerBook group > 0 →
  MarketGroup.tokenIds group
    !! findMinProbIdx (impliedProbs ctx trigger triggerBook group)
  = Some target →
  Math_min3 (orderSize cfg * 2) (askSizeOf ctx trigger triggerBook target)
    (remainingCapacity cfg ctx target) > 0 →
  ∃ signal,
    checkBregmanArb B cfg ctx group books = Some [signal]
    ∧ TradeSignal.tokenId signal = target
    ∧ TradeSignal.size signal
      = Math_min3 (orderSize cfg * 2)
          (askSizeOf ctx trigger triggerBook target)
          (remainingCapacity cfg ctx target)
    ∧ TradeSignal.confidence signal = 1.
Proof.
  intros Hzero Hag Hbooks Hsum Hpos Hkl Htarget Hsize.
  eexists. split.
  - apply (checkBregmanArb_signal group books target); try done.
    + rewrite Hzero. lra.
    + rewrite Hzero, Math_min_div_by_zero by done. exact Hsize.
  - cbn [TradeSignal.tokenId TradeSignal.size TradeSignal.confidence].
    rewrite Hzero, Rmult_0_l, !Math_min_div_by_zero by done. done.
Qed.

(** The target of the Bregman check exists and has the least implied
    probability of the group. *)
Lemma bregman_target group :
  MarketGroup.tokenIds group ≠ [] →
  ∃ target,
    MarketGroup.tokenIds group
      !! findMinProbIdx (impliedProbs ctx trigger triggerBook group)
    = Some target
    ∧ ∀ tokenId, tokenId ∈ MarketGroup.tokenIds group →
        impliedProb ctx trigger triggerBook group target
        <= impliedProb ctx trigger triggerBook group tokenId.
Proof.
  intros Hne.
  destruct (findMinProbIdx_spec (impliedProbs ctx trigger triggerBook group))
    as [Hlt Hmin].
  { unfold impliedProbs. by destruct (MarketGroup.tokenIds group). }
  unfold impliedProbs in Hlt at 2. rewrite length_fmap in Hlt.
  destruct (lookup_lt_is_Some_2 _ _ Hlt) as [target Htarget].
  exists target. split; [done|]. intros t Ht.
  apply list_elem_of_lookup in Ht as [j Hj].
  assert (Hnth : ∀ i x, MarketGroup.tokenIds group !! i = Some x →
            nth i (impliedProbs ctx trigger triggerBook group) 0
            = impliedProb ctx trigger triggerBook group x).
  { intros i x Hi. apply nth_lookup_Some with (d := 0).
    unfold impliedProbs. by rewrite list_lookup_fmap, Hi. }
  rewrite <- (Hnth _ _ Htarget), <- (Hnth _ _ Hj). apply Hmin.
  unfold impliedProbs. rewrite length_fmap. by eapply lookup_lt_Some.
Qed.

End BregmanPath.

Section BregmanEvaluate.
Import BregmanArb ArbSpec.

(** [evaluate] on the Bregman path. *)
Lemma evaluate_bregman B ctx now st trigger triggerBook group target :
  enabled st = true →
  tokenToGroup st !! trigger = Some group →
  booksUsable (config st) ctx now trigger triggerBook group →
  allHaveAsks ctx trigger triggerBook group →
  simpleEdge (config st) ctx trigger triggerBook group < minEdge (config st) →
  Rsum (midOf ctx trigger triggerBook <$> MarketGroup.tokenIds group) ≠ 0 →
  (∀ tokenId, tokenId ∈ MarketGroup.tokenIds group →
     impliedProb ctx trigger triggerBook group tokenId > 0) →
  klDivergence ctx trigger triggerBook group
    >= divergenceThreshold (config st) →
  MarketGroup.tokenIds group
    !! findMinProbIdx (impliedProbs ctx trigger triggerBook group)
  = Some target →
  bregmanSize (config st) ctx trigger triggerBook group target > 0 →
  evaluate B ctx now st trigger triggerBook
  = Some ([bregmanSignal (config st) ctx trigger triggerBook B group target],
          withStats st (countBregmanArb 1 (countEvaluation (stats st)))).
Proof.
  intros Hen Hgroup Hbooks Hasks Hedge Hsum Hpos Hkl Htarget Hsize.
  destruct (gatherBooks_usable (config st) ctx now trigger triggerBook
              (MarketGroup.tokenIds group) ∅ Hbooks)
    as (books & Hgather & Hag & _).
  unfold evaluate. rewrite Hen. cbn [negb]. rewrite Hgroup, Hgather.
  rewrite (checkSimpleArb_silent B (config st) ctx trigger triggerBook
             group books Hag Hasks Hedge).
  cbn [mbind option_bind length].
  destruct (decide (0 < 0)%nat) as [?|_]; [lia|].
  rewrite (checkBregmanArb_fires B (config st) ctx trigger triggerBook
             group books target); try done.
  - intros t Ht. destruct (Hbooks t Ht) as (b & -> & _). done.
  - lra.
Qed.

(** The divergence of a binary group with mids 0.80 and 0.20. *)
Lemma binary_080_020 ctx trigger triggerBook group yes no :
  MarketGroup.tokenIds group = [yes; no] →
  midOf ctx trigger triggerBook yes = 0.80 →
  midOf ctx trigger triggerBook no = 0.20 →
  Rsum (midOf ctx trigger triggerBook <$> MarketGroup.tokenIds group) = 1
  ∧ impliedProbs ctx trigger triggerBook group = [0.8; 0.2]
  ∧ klDivergence ctx trigger triggerBook group = ln 1.25
  ∧ findMinProbIdx (impliedProbs ctx trigger triggerBook group) = 1%nat.
Proof.
  intros Htok Hy Hn.
  assert (Hsum : Rsum (midOf ctx trigger triggerBook
                         <$> MarketGroup.tokenIds group) = 1).
  { rewrite Htok. cbn [fmap list_fmap]. unfold Rsum. cbn [foldr].
    rewrite Hy, Hn. lra. }
  assert (Hq : impliedProbs ctx trigger triggerBook group = [0.8; 0.2]).
  { unfold impliedProbs, impliedProb. rewrite Hsum, Htok.
    cbn [fmap list_fmap]. rewrite Hy, Hn. f_equal; [lra|f_equal; lra]. }
  split_and!; [done|done| |].
  - rewrite <- klDivergence_code, Hq, Htok.
    cbn [fmap list_fmap length]. unfold Rsum. cbn [foldr].
    replace (1 / INR 2 / 0.8) with (5 / 8) by (simpl; lra).
    replace (1 / INR 2 / 0.2) with (5 / 2) by (simpl; lra).
    replace (1 / INR 2) with (1 / 2) by (simpl; lra).
    replace (1 / 2 * ln (5 / 8) + (1 / 2 * ln (5 / 2) + 0))
      with ((ln (5 / 8) + ln (5 / 2)) / 2) by lra.
    rewrite <- ln_mult by lra.
    replace (5 / 8 * (5 / 2)) with (1.25 * 1.25) by lra.
    rewrite ln_mult by lra. lra.
  - rewrite Hq. unfold findMinProbIdx. cbn [length seq fold_left Nat.sub nth].
    by rewrite decide_True by lra.
Qed.

(** C5.  A binary group with mid prices 0.80 and 0.20 whose
    simple-arbitrage edge is below [minEdge]: the implied
    probabilities are (0.8, 0.2), the divergence D is ln 1.25, between
    0.2231 and 0.2232, above the threshold 0.05, and, the computed size
    being positive, [evaluate] returns exactly one signal: BUY on the
    0.20 token at its best ask price with confidence
    min(D / (2 * threshold), 1).  In general, whenever the Bregman
    check is reached with D at least the threshold, the target is a
    token of least implied probability, and if the computed size is
    positive [evaluate] returns exactly the one BUY signal on it. *)
Theorem bregman_underpriced_signal B ctx now st trigger triggerBook group :
  enabled st = true →
  tokenToGroup st !! trigger = Some group →
  booksUsable (config st) ctx now trigger triggerBook group →
  allHaveAsks ctx trigger triggerBook group →
  simpleEdge (config st) ctx trigger triggerBook group < minEdge (config st) →
  (∀ yes no,
     MarketGroup.tokenIds group = [yes; no] →
     midOf ctx trigger triggerBook yes = 0.80 →
     midOf ctx trigger triggerBook no = 0.20 →
     divergenceThreshold (config st) = 0.05 →
     impliedProbs ctx trigger triggerBook group = [0.8; 0.2]
     ∧ 0.2231 < klDivergence ctx trigger triggerBook group < 0.2232
     ∧ klDivergence ctx trigger triggerBook group
       >= divergenceThreshold (config st)
     ∧ (bregmanSize (config st) ctx trigger triggerBook group no > 0 →
        ∃ signal,
          evaluate B ctx now st trigger triggerBook
          = Some ([signal],
                  withStats st
                    (countBregmanArb 1 (countEvaluation (stats st))))
          ∧ TradeSignal.tokenId signal = no
          ∧ TradeSignal.side signal = BUY
          ∧ TradeSignal.targetPrice signal
            = askPriceOf ctx trigger triggerBook no
          ∧ TradeSignal.confidence signal
            = Rmin (klDivergence ctx trigger triggerBook group
                    / (2 * divergenceThreshold (config st))) 1))
  ∧ (Rsum (midOf ctx trigger triggerBook <$> MarketGroup.tokenIds group) ≠ 0 →
     (∀ tokenId, tokenId ∈ MarketGroup.tokenIds group →
        impliedProb ctx trigger triggerBook group tokenId > 0) →
     klDivergence ctx trigger triggerBook group
       >= divergenceThreshold (config st) →
     ∃ target,
       target ∈ MarketGroup.tokenIds group
       ∧ (∀ tokenId, tokenId ∈ MarketGroup.tokenIds group →
            impliedProb ctx trigger triggerBook group target
            <= impliedProb ctx trigger triggerBook group tokenId)
       ∧ (bregmanSize (config st) ctx trigger triggerBook group target > 0 →
          ∃ signal,
            evaluate B ctx now st trigger triggerBook
            = Some ([signal],
                    withStats st
                      (countBregmanArb 1 (countEvaluation (stats st))))
            ∧ TradeSignal.tokenId signal = target
            ∧ TradeSignal.side signal = BUY
            ∧ TradeSignal.targetPrice signal
              = askPriceOf ctx trigger triggerBook target
            ∧ TradeSignal.confidence signal
              = Rmin (klDivergence ctx trigger triggerBook group
                      / (2 * divergenceThreshold (config st))) 1)).
Proof.
  intros Hen Hgroup Hbooks Hasks Hedge. split.
  - intros yes no Htok Hy Hn Hthr.
    destruct (binary_080_020 ctx trigger triggerBook group yes no Htok Hy Hn)
      as (Hsum & Hq & Hkl & Hidx).
    pose proof ln_five_quarters as Hln.
    split_and!; [done|rewrite Hkl; lra|rewrite Hkl; lra|rewrite Hkl, Hthr; lra|].
    intros Hsize. eexists. split_and!.
    + apply (evaluate_bregman B ctx now st trigger triggerBook group no);
        try done.
      * rewrite Hsum. lra.
      * intros t Ht. rewrite Htok in Ht.
        assert (Hqt : impliedProb ctx trigger triggerBook group t
                      ∈ impliedProbs ctx trigger triggerBook group).
        { unfold impliedProbs. apply list_elem_of_fmap_2. by rewrite Htok. }
        rewrite Hq in Hqt.
        repeat (apply elem_of_cons in Hqt as [->|Hqt]); try lra.
        by apply elem_of_nil in Hqt.
      * rewrite Hkl, Hthr. lra.
      * by rewrite Hidx, Htok.
    + done.
    + done.
    + done.
    + done.
  - intros Hsum Hpos Hkl.
    destruct (bregman_target ctx trigger triggerBook group)
      as (target & Htarget & Hmin).
    { intros E. rewrite E in Hsum. by apply Hsum. }
    exists target. split_and!; [by eapply list_elem_of_lookup_2|done|].
    intros Hsize. eexists. split_and!.
    + by apply (evaluate_bregman B ctx now st trigger triggerBook group target).
    + done.
    + done.
    + done.
    + done.
Qed.

End BregmanEvaluate.

Section BregmanExample.
Import BregmanArb ArbSpec.

Lemma Math_min3_pos_2 a b c : a > 0 → b > 0 → c > 0 → Math_min3 a b c > 0.
Proof.
  intros. unfold Math_min3, Rmin. repeat destruct (Rle_dec _ _); lra.
Qed.

Lemma yesNo_usable :
  booksUsable defaultConfig Sample.yesNoContext 1700000000000
    "token-yes" Sample.yesBook Sample.yesNo.
Proof.
  intros tok Htok. cbn [Sample.yesNo MarketGroup.tokenIds] in Htok.
  repeat (apply elem_of_cons in Htok as [->|Htok]);
    [| |by apply elem_of_nil in Htok];
    eexists; (split; [reflexivity|]); unfold isFresh; simpl;
    rewrite Z.sub_diag; lra.
Qed.

Lemma yesNo_asks :
  allHaveAsks Sample.yesNoContext "token-yes" Sample.yesBook Sample.yesNo.
Proof.
  intros tok Htok. cbn [Sample.yesNo MarketGroup.tokenIds] in Htok.
  repeat (apply elem_of_cons in Htok as [->|Htok]);
    [| |by apply elem_of_nil in Htok]; eexists; reflexivity.
Qed.

Lemma yesNo_edge :
  simpleEdge defaultConfig Sample.yesNoContext "token-yes" Sample.yesBook
    Sample.yesNo = 1 - (0.81 + (0.21 + 0)) * (1 + 0.02).
Proof. reflexivity. Qed.

Lemma bregman_underpriced_signal_witness :
  ∃ signal st',
    evaluate Sample.builtins Sample.yesNoContext 1700000000000
      Sample.yesNoStrategy "token-yes" Sample.yesBook
    = Some ([signal], st')
    ∧ TradeSignal.tokenId signal = "token-no"%string
    ∧ TradeSignal.side signal = BUY
    ∧ TradeSignal.targetPrice signal = 0.21.
Proof.
  destruct (bregman_underpriced_signal Sample.builtins Sample.yesNoContext
              1700000000000 Sample.yesNoStrategy "token-yes" Sample.yesBook
              Sample.yesNo) as [Hbinary _].
  - reflexivity.
  - reflexivity.
  - apply yesNo_usable.
  - apply yesNo_asks.
  - change (config Sample.yesNoStrategy) with defaultConfig.
    rewrite yesNo_edge. simpl. lra.
  - destruct (Hbinary "token-yes"%string "token-no"%string)
      as (_ & Hkl & _ & Hsignal).
    + reflexivity.
    + change (midOf Sample.yesNoContext "token-yes" Sample.yesBook "token-yes")
        with ((0.79 + 0.81) / 2). lra.
    + change (midOf Sample.yesNoContext "token-yes" Sample.yesBook "token-no")
        with ((0.19 + 0.21) / 2). lra.
    + reflexivity.
    + destruct Hsignal as (signal & Hev & Htok & Hside & Hprice & _).
      * apply Math_min3_pos_2.
        -- change (config Sample.yesNoStrategy) with defaultConfig.
           cbn [orderSize divergenceThreshold defaultConfig].
           assert (Rmin (klDivergence Sample.yesNoContext "token-yes"
                           Sample.yesBook Sample.yesNo / 0.05) 2 > 0).
           { unfold Rmin. destruct (Rle_dec _ _); lra. }
           lra.
        -- change (askSizeOf Sample.yesNoContext "token-yes" Sample.yesBook
                     "token-no") with 100. lra.
        -- change (remainingCapacity (config Sample.yesNoStrategy)
                     Sample.yesNoContext "token-no") with (50 - 0). lra.
      * exists signal. eexists. split_and!; [exact Hev|done|done|].
        rewrite Hprice. reflexivity.
Defined.

End BregmanExample.

(* ===================================================================== *)
(** * Store: rows written and read back                                   *)
(* ===================================================================== *)

Section StoreRows.
Import Store StoreSpec.

Lemma keyed_empty : keyed empty.
Proof. by split_and!; intros k x Hx; cbn in Hx; rewrite lookup_empty in Hx. Qed.

Lemma keyed_savePosition s p : keyed s → keyed (savePosition s p).
Proof.
  intros (Hp & Ho & Ht). split_and!; [|done|done].
  intros k q. cbn [savePosition positions].
  destruct (decide (k = Position.tokenId p)) as [->|Hne].
  - rewrite lookup_insert_eq. by intros [= ->].
  - rewrite lookup_insert_ne by done. apply Hp.
Qed.

Lemma keyed_saveOrder s o : keyed s → keyed (saveOrder s o).
Proof.
  intros (Hp & Ho & Ht). split_and!; [done| |done].
  intros k q. cbn [saveOrder orders].
  destruct (decide (k = orderId o)) as [->|Hne].
  - rewrite lookup_insert_eq. by intros [= ->].
  - rewrite lookup_insert_ne by done. apply Ho.
Qed.

Lemma keyed_updateOrderStatus s oid status' :
  keyed s → keyed (updateOrderStatus s oid status').
Proof.
  intros (Hp & Ho & Ht). split_and!; [done| |done].
  intros k q. cbn [updateOrderStatus orders].
  destruct (decide (k = oid)) as [->|Hne].
  - rewrite lookup_alter_eq.
    destruct (orders s !! oid) as [o|] eqn:E; [|done].
    intros [= <-]. cbn [orderId]. by apply Ho.
  - rewrite lookup_alter_ne by done. apply Ho.
Qed.

Lemma keyed_saveTrade s tr : keyed s → keyed (saveTrade s tr).
Proof.
  intros (Hp & Ho & Ht). split_and!; [done|done|].
  intros k q. cbn [saveTrade trades].
  destruct (decide (k = id tr)) as [->|Hne].
  - rewrite lookup_insert_eq. by intros [= ->].
  - rewrite lookup_insert_ne by done. apply Ht.
Qed.

Lemma elem_of_getOpenOrders s o :
  o ∈ getOpenOrders s ↔ (∃ k, orders s !! k = Some o) ∧ isLive o = true.
Proof.
  unfold getOpenOrders. rewrite list_elem_of_filter, list_elem_of_fmap.
  split.
  - intros [Hlive ([k o'] & -> & Hin)]. apply elem_of_map_to_list in Hin.
    split; [by exists k|done].
  - intros [[k Hk] Hlive]. split; [done|].
    exists (k, o). split; [done|]. by apply elem_of_map_to_list.
Qed.

Lemma elem_of_getAllPositions s p :
  p ∈ getAllPositions s
  ↔ (∃ k, positions s !! k = Some p) ∧ Position.size p ≠ 0.
Proof.
  unfold getAllPositions. rewrite list_elem_of_filter, list_elem_of_fmap.
  split.
  - intros [Hsize ([k p'] & -> & Hin)]. apply elem_of_map_to_list in Hin.
    split; [by exists k|done].
  - intros [[k Hk] Hsize]. split; [done|].
    exists (k, p). split; [done|]. by apply elem_of_map_to_list.
Qed.

(** A position written with [savePosition] is the one [getPosition]
    returns for its token, whatever row the token had before; the rows
    of the other tokens are as they were; and the position is listed
    by [getAllPositions] exactly when its size is not zero. *)
Lemma saved_position_is_found s p tok :
  getPosition (savePosition s p) tok
  = (if decide (tok = Position.tokenId p) then Some p else getPosition s tok)
  ∧ (p ∈ getAllPositions (savePosition s p) ↔ Position.size p ≠ 0).
Proof.
  unfold getPosition. cbn [savePosition positions]. split.
  - case_decide as E.
    + subst tok. by rewrite lookup_insert_eq.
    + by rewrite lookup_insert_ne.
  - rewrite elem_of_getAllPositions. cbn [savePosition positions].
    split; [by intros [_ ?]|]. intros Hsize. split; [|done].
    exists (Position.tokenId p). by rewrite lookup_insert_eq.
Qed.

(** Closing an order takes it, and only it, out of the open orders. *)
Lemma getOpenOrders_updateOrderStatus s oid status' o :
  keyed s →
  status' ≠ "pending"%string → status' ≠ "open"%string →
  o ∈ getOpenOrders (updateOrderStatus s oid status')
  ↔ o ∈ getOpenOrders s ∧ orderId o ≠ oid.
Proof.
  intros (_ & Ho & _) Hp Hopen. rewrite !elem_of_getOpenOrders.
  cbn [updateOrderStatus orders]. split.
  - intros [[k Hk] Hlive].
    destruct (decide (k = oid)) as [->|Hne].
    + rewrite lookup_alter_eq in Hk.
      destruct (orders s !! oid) as [o0|]; [|done].
      injection Hk as <-. unfold isLive in Hlive. cbn [status] in Hlive.
      apply bool_decide_eq_true in Hlive. by destruct Hlive.
    + rewrite lookup_alter_ne in Hk by done.
      split; [split; [by exists k|done]|]. by rewrite (Ho k o Hk).
  - intros [[[k Hk] Hlive] Hne]. split; [|done]. exists k.
    rewrite lookup_alter_ne; [done|]. rewrite <- (Ho k o Hk). congruence.
Qed.

(** X1. On a store whose rows sit under their keys, setting the status
    of an order to anything but pending or open removes exactly that
    order from the open orders, and every order that is still open is
    the row it was. *)
Theorem closed_order_is_not_open s oid status' :
  keyed s →
  status' ≠ "pending"%string → status' ≠ "open"%string →
  (∀ o, o ∈ getOpenOrders (updateOrderStatus s oid status')
        ↔ o ∈ getOpenOrders s ∧ orderId o ≠ oid)
  ∧ (orders s !! oid = None → updateOrderStatus s oid status' = s).
Proof.
  intros Hkeyed Hp Ho. split.
  - intros o. by apply getOpenOrders_updateOrderStatus.
  - intros Hnone. destruct s as [ps os ts]. unfold updateOrderStatus.
    cbn [positions orders trades] in *. f_equal. by apply alter_id'.
Qed.

Lemma closed_order_is_not_open_witness :
  mkOrder "o-1" Sample.order "open"
  ∉ getOpenOrders
      (updateOrderStatus (saveOrder empty (mkOrder "o-1" Sample.order "open"))
         "o-1" "cancelled").
Proof.
  intros Hin.
  destruct (closed_order_is_not_open
              (saveOrder empty (mkOrder "o-1" Sample.order "open"))
              "o-1" "cancelled") as [H _]; [|done|done|].
  - apply keyed_saveOrder, keyed_empty.
  - by apply H in Hin as [_ Hne].
Defined.

Lemma Rsum_permutation (l l' : list R) :
  l ≡ₚ l' → foldr Rplus 0 l = foldr Rplus 0 l'.
Proof.
  induction 1 as [|x l l' _ IH|x y l|l l' l'' _ IH1 _ IH2]; cbn [foldr].
  - done.
  - by rewrite IH.
  - lra.
  - by rewrite IH1.
Qed.

(** X2. Saving an order puts it among the open orders exactly when its
    status is pending or open, and takes the place of the row that had
    its id; an open order under a new id makes the open orders one
    more. *)
Theorem saved_order_is_open s o :
  keyed s →
  (∀ o', o' ∈ getOpenOrders (saveOrder s o)
         ↔ (o' = o ∧ isLive o = true)
           ∨ (o' ∈ getOpenOrders s ∧ orderId o' ≠ orderId o))
  ∧ (orders s !! orderId o = None → isLive o = true →
     length (getOpenOrders (saveOrder s o)) = S (length (getOpenOrders s))).
Proof.
  intros (_ & Ho & _). split.
  - intros o'. rewrite !elem_of_getOpenOrders. cbn [saveOrder orders]. split.
    + intros [[k Hk] Hlive].
      destruct (decide (k = orderId o)) as [->|Hne].
      * rewrite lookup_insert_eq in Hk. injection Hk as <-. by left.
      * rewrite lookup_insert_ne in Hk by done. right.
        split; [split; [by exists k|done]|]. by rewrite (Ho k o' Hk).
    + intros [[-> Hlive]|[[[k Hk] Hlive] Hne]].
      * split; [|done]. exists (orderId o). by rewrite lookup_insert_eq.
      * split; [|done]. exists k. rewrite lookup_insert_ne; [done|].
        rewrite <- (Ho k o' Hk). congruence.
  - intros Hfresh Hlive. unfold getOpenOrders. cbn [saveOrder orders].
    rewrite (map_to_list_insert _ _ _ Hfresh).
    rewrite fmap_cons. cbn [snd]. by rewrite filter_cons_True.
Qed.

Lemma saved_order_is_open_witness :
  length (getOpenOrders (saveOrder empty (mkOrder "o-1" Sample.order "open")))
  = 1%nat.
Proof.
  apply (saved_order_is_open empty (mkOrder "o-1" Sample.order "open")).
  - apply keyed_empty.
  - done.
  - done.
Defined.

Lemma dayFlows_cons B dateStr k tr (l : list (string * TradeRow)) :
  foldr Rplus 0
    (tradeCashFlow <$>
       filter (λ tr, sqlite_DATE B (match_time tr) = Some dateStr)
              ((k, tr) :: l).*2)
  = contribution B dateStr (Some tr)
    + foldr Rplus 0
        (tradeCashFlow <$>
           filter (λ tr, sqlite_DATE B (match_time tr) = Some dateStr) l.*2).
Proof.
  rewrite fmap_cons. cbn [snd contribution].
  destruct (decide (sqlite_DATE B (match_time tr) = Some dateStr)) as [E|E].
  - rewrite filter_cons_True by done. by rewrite fmap_cons.
  - rewrite filter_cons_False by done. lra.
Qed.

Lemma dayFlows_permutation B dateStr (l l' : list (string * TradeRow)) :
  l ≡ₚ l' →
  foldr Rplus 0
    (tradeCashFlow <$>
       filter (λ tr, sqlite_DATE B (match_time tr) = Some dateStr) l.*2)
  = foldr Rplus 0
      (tradeCashFlow <$>
         filter (λ tr, sqlite_DATE B (match_time tr) = Some dateStr) l'.*2).
Proof. intros Hperm. apply Rsum_permutation. by rewrite Hperm. Qed.

(** X3. The daily PnL is the sum of the cash flows of the day's trades
    (a buy counts as minus its notional, a sell as plus): saving a
    trade adds its cash flow to the PnL of its own day and to no other
    day, after taking out what the row it replaces, if any, had
    added. *)
Theorem daily_pnl_of_saved_trade B s tr dateStr :
  getDailyPnl B empty dateStr = 0
  ∧ getDailyPnl B (saveTrade s tr) dateStr
    = getDailyPnl B s dateStr
      - contribution B dateStr (trades s !! id tr)
      + contribution B dateStr (Some tr).
Proof.
  split; [done|].
  unfold getDailyPnl. cbn [saveTrade trades].
  destruct (trades s !! id tr) as [old|] eqn:E.
  - rewrite <- (insert_delete_eq (trades s)).
    rewrite (dayFlows_permutation B dateStr _ _
               (map_to_list_insert (delete (id tr) (trades s)) (id tr) tr
                  (lookup_delete_eq _ _))).
    rewrite <- (dayFlows_permutation B dateStr _ _
                  (map_to_list_delete (trades s) (id tr) old E)).
    rewrite !dayFlows_cons. lra.
  - rewrite (dayFlows_permutation B dateStr _ _
               (map_to_list_insert (trades s) (id tr) tr E)).
    rewrite dayFlows_cons. cbn [contribution]. lra.
Qed.

End StoreRows.

(* ===================================================================== *)
(** * Risk manager: admission, exposure, halt and resume                  *)
(* ===================================================================== *)

Section RiskAdmission.
Import RiskManager ExposureSpec.

(** X4. An order is admitted exactly when the manager is not halted and
    the five limits hold: the order value and the exposure with the
    order may reach their limits, the daily PnL may reach minus the
    daily-loss limit, but the number of open orders must stay below
    its limit. *)
Theorem order_admitted_iff B clk rm store order :
  allowed (checkOrder B clk rm store order).1.1 = true
  ↔ halted rm = false
    ∧ OrderRequest.price order * OrderRequest.size order
      <= RiskLimits.maxPositionSize (limits rm)
    ∧ (getExposure store).1
      + OrderRequest.price order * OrderRequest.size order
      <= RiskLimits.maxTotalExposure (limits rm)
    ∧ INR (length (Store.getOpenOrders store))
      < RiskLimits.maxOpenOrders (limits rm)
    ∧ getDailyPnl B clk store >= - RiskLimits.maxDailyLoss (limits rm).
Proof.
  unfold checkOrder. destruct (halted rm).
  - cbn [allowed fst]. split; [done|]. by intros [? _].
  - repeat case_decide; cbn [allowed fst halt]; split;
      try done; try (intros (_ & ? & ? & ? & ?); lra).
    intros _. split_and!; [done|lra..].
Qed.

(** X5. [resume] clears the latch of [halt] and nothing else: the
    resumed manager is a manager newly created with the same limits.
    It does not forgive the day's loss: an order that passes the other
    checks while the daily PnL is below the limit halts the manager
    again, with a new [risk_breach]. *)
Theorem resume_does_not_forgive B clk clk0 rm why store order :
  OrderRequest.price order * OrderRequest.size order
    <= RiskLimits.maxPositionSize (limits rm) →
  (getExposure store).1
    + OrderRequest.price order * OrderRequest.size order
    <= RiskLimits.maxTotalExposure (limits rm) →
  INR (length (Store.getOpenOrders store))
    < RiskLimits.maxOpenOrders (limits rm) →
  getDailyPnl B clk store < - RiskLimits.maxDailyLoss (limits rm) →
  let resumed := resume (halt clk0 rm why).1 in
  resumed = create (limits rm)
  ∧ isHalted resumed = false
  ∧ isHalted (checkOrder B clk resumed store order).1.2 = true
  ∧ allowed (checkOrder B clk resumed store order).1.1 = false
  ∧ emitted_types (checkOrder B clk resumed store order).2 = [risk_breach].
Proof.
  intros H1 H2 H3 H4 resumed.
  assert (E : resumed = create (limits rm)) by done.
  split_and!; [done|done|rewrite E..];
    rewrite checkOrder_daily_loss; cbn [create limits halted];
    first [done|lra].
Qed.

Lemma resume_does_not_forgive_witness :
  isHalted
    (checkOrder Sample.builtins Sample.clock
       (resume (halt Sample.clock (create Sample.limits) "manual").1)
       Sample.losingStore Sample.order).1.2 = true.
Proof.
  apply (resume_does_not_forgive Sample.builtins Sample.clock Sample.clock
           (create Sample.limits) "manual" Sample.losingStore Sample.order);
    rewrite ?losingStore_exposure, ?losingStore_open_orders,
            ?losingStore_daily_pnl; simpl; lra.
Defined.

End RiskAdmission.

Section Exposure.
Import RiskManager ExposureSpec ArbSpec StoreSpec.

Lemma fold_addPosition_total l : ∀ acc,
  (fold_left addPosition l acc).1 = acc.1 + Rsum (positionValue <$> l).
Proof.
  induction l as [|p l IH]; intros acc; cbn [fold_left fmap list_fmap].
  - unfold Rsum. cbn [foldr]. lra.
  - rewrite IH, Rsum_cons. cbn [addPosition fst]. lra.
Qed.

Lemma fold_addOpenOrder_total l : ∀ acc,
  (fold_left addOpenOrder l acc).1 = acc.1 + Rsum (orderValueOf <$> l).
Proof.
  induction l as [|o l IH]; intros acc; cbn [fold_left fmap list_fmap].
  - unfold Rsum. cbn [foldr]. lra.
  - rewrite IH, Rsum_cons. cbn [addOpenOrder fst]. lra.
Qed.

Lemma getExposure_total s :
  (getExposure s).1
  = Rsum (positionValue <$> Store.getAllPositions s)
    + Rsum (orderValueOf <$> Store.getOpenOrders s).
Proof.
  unfold getExposure.
  rewrite fold_addOpenOrder_total, fold_addPosition_total. cbn [fst]. lra.
Qed.

Lemma Rsum_positionValue_nonneg l : 0 <= Rsum (positionValue <$> l).
Proof.
  induction l as [|p l IH]; cbn [fmap list_fmap].
  - unfold Rsum. cbn [foldr]. lra.
  - rewrite Rsum_cons. unfold positionValue at 1, Math_abs.
    pose proof (Rabs_pos (Position.size p * Position.currentPrice p)). lra.
Qed.

(** X6. The total exposure is the sum of |size * current price| over
    the positions that are not flat plus the sum of price * size over
    the open orders; long and short positions both count as positive,
    so the total is never below the notional of the open orders. *)
Theorem exposure_total s :
  (getExposure s).1
  = Rsum (positionValue <$> Store.getAllPositions s)
    + Rsum (orderValueOf <$> Store.getOpenOrders s)
  ∧ Rsum (orderValueOf <$> Store.getOpenOrders s) <= (getExposure s).1.
Proof.
  split; [apply getExposure_total|]. rewrite getExposure_total.
  pose proof (Rsum_positionValue_nonneg (Store.getAllPositions s)). lra.
Qed.

Lemma fold_addPosition_other l tok : ∀ acc,
  tok ∉ Position.tokenId <$> l →
  (fold_left addPosition l acc).2 !! tok = acc.2 !! tok.
Proof.
  induction l as [|p l IH]; intros acc Hnot; [done|].
  cbn [fold_left]. rewrite fmap_cons in Hnot.
  apply not_elem_of_cons in Hnot as [Hne Hnot].
  rewrite IH by done. cbn [addPosition snd]. by rewrite lookup_insert_ne.
Qed.

Lemma fold_addPosition_token l p : ∀ acc,
  NoDup (Position.tokenId <$> l) → p ∈ l →
  (fold_left addPosition l acc).2 !! Position.tokenId p
  = Some (positionValue p).
Proof.
  induction l as [|q l IH]; intros acc Hnd Hin; [by apply elem_of_nil in Hin|].
  rewrite fmap_cons in Hnd. apply NoDup_cons in Hnd as [Hq Hnd].
  cbn [fold_left]. apply elem_of_cons in Hin as [->|Hin].
  - rewrite fold_addPosition_other by done.
    cbn [addPosition snd]. by rewrite lookup_insert_eq.
  - by apply IH.
Qed.

Lemma fold_addOpenOrder_token l tok : ∀ acc,
  default 0 ((fold_left addOpenOrder l acc).2 !! tok)
  = default 0 (acc.2 !! tok)
    + Rsum (orderValueOf <$>
              filter (λ o, OrderRequest.tokenId (Store.request o) = tok) l).
Proof.
  induction l as [|o l IH]; intros acc; cbn [fold_left].
  - rewrite filter_nil. unfold Rsum. cbn [fmap list_fmap foldr]. lra.
  - rewrite IH. cbn [addOpenOrder snd].
    destruct (decide (OrderRequest.tokenId (Store.request o) = tok)) as [E|E].
    + rewrite filter_cons_True by done. rewrite fmap_cons, Rsum_cons.
      rewrite E, lookup_insert_eq.
      change (default 0 (Some ?x)) with x. lra.
    + rewrite filter_cons_False by done. by rewrite lookup_insert_ne.
Qed.

Lemma NoDup_fmap_filter {A C : Type} (f : A → C) (P : A → Prop)
    `{∀ x, Decision (P x)} (l : list A) :
  NoDup (f <$> l) → NoDup (f <$> filter P l).
Proof.
  induction l as [|x l IH]; [done|]. rewrite fmap_cons.
  intros [Hx Hnd]%NoDup_cons. destruct (decide (P x)).
  - rewrite filter_cons_True by done. rewrite fmap_cons.
    apply NoDup_cons. split; [|by apply IH].
    intros (y & Hy & Hin)%list_elem_of_fmap. apply Hx.
    apply list_elem_of_fmap. exists y. split; [done|].
    by apply list_elem_of_filter in Hin as [_ ?].
  - rewrite filter_cons_False by done. by apply IH.
Qed.

Lemma keyed_position_tokens (m : gmap string Position.t) :
  (∀ k p, m !! k = Some p → Position.tokenId p = k) →
  Position.tokenId <$> (map_to_list m).*2 = (map_to_list m).*1.
Proof.
  intros Hk. rewrite <- list_fmap_compose. apply list_fmap_ext.
  intros i [k p] Hin. cbn. apply Hk, elem_of_map_to_list.
  by eapply list_elem_of_lookup_2.
Qed.

Lemma getAllPositions_NoDup s :
  keyed s → NoDup (Position.tokenId <$> Store.getAllPositions s).
Proof.
  intros (Hp & _ & _). unfold Store.getAllPositions.
  apply NoDup_fmap_filter. rewrite keyed_position_tokens by done.
  apply NoDup_fst_map_to_list.
Qed.

(** X7. On a store whose rows sit under their keys, the exposure
    reported for a token is the value of the position held on it (zero
    without a position or with a flat one) plus the notional of the
    open orders on it. *)
Theorem exposure_by_token s tok :
  keyed s →
  default 0 ((getExposure s).2 !! tok) = heldValue s tok + openValue s tok.
Proof.
  intros Hkeyed. unfold getExposure, openValue.
  rewrite fold_addOpenOrder_token. f_equal.
  unfold heldValue, Store.getPosition.
  destruct (Store.positions s !! tok) as [p|] eqn:E.
  - pose proof Hkeyed as (Hp & _ & _). pose proof (Hp tok p E) as Htok.
    destruct (decide (Position.size p ≠ 0)) as [Hsize|Hflat].
    + rewrite <- Htok. rewrite fold_addPosition_token; [done| |].
      * by apply getAllPositions_NoDup.
      * apply elem_of_getAllPositions. split; [by exists tok|done].
    + rewrite fold_addPosition_other; [done|].
      intros (q & Hq & Hin)%list_elem_of_fmap.
      apply elem_of_getAllPositions in Hin as [[k Hk] Hsize].
      rewrite (Hp k q Hk) in Hq. subst k.
      rewrite E in Hk. by injection Hk as <-.
  - rewrite fold_addPosition_other; [done|].
    intros (q & Hq & [[k Hk] Hsize]%elem_of_getAllPositions)%list_elem_of_fmap.
    pose proof Hkeyed as (Hp & _ & _).
    rewrite (Hp k q Hk) in Hq. subst k. congruence.
Qed.

Lemma exposure_by_token_witness :
  default 0 ((getExposure Scenario.exposedStore).2 !! "token-1"%string)
  = heldValue Scenario.exposedStore "token-1"
    + openValue Scenario.exposedStore "token-1".
Proof.
  apply (exposure_by_token Scenario.exposedStore "token-1").
  apply keyed_saveOrder, keyed_savePosition, keyed_empty.
Defined.

End Exposure.

(* ===================================================================== *)
(** * Order manager: placing orders                                       *)
(* ===================================================================== *)

Section Placement.
Import OrderManager StoreSpec FillSpec PositionSpec.

(** The calls [submitOrder] makes, the risk manager and the store it
    leaves, and its events. *)
Lemma submitOrder_effects B clk dryRun client w order :
  let check := RiskManager.checkOrder B clk (riskManager w) (store w) order in
  let out := submitOrder B clk dryRun client w order in
  called out
  = (if RiskManager.allowed check.1.1 && negb dryRun
     then [PlaceOrderCall order] else [])
  ∧ riskManager (world out) = check.1.2
  ∧ (dryRun = true → store (world out) = store w)
  ∧ ∃ own, emitted out = check.2 ++ own
           ∧ Forall (λ e, e.1 = order_filled ∨ e.1 = position_changed) own.
Proof.
  intros check out. unfold out, submitOrder. fold check.
  destruct check as [[res rm'] es]. cbn [fst snd].
  destruct (RiskManager.allowed res); cbn [negb andb].
  - destruct dryRun; cbn [negb].
    + split_and!; [done..|]. exists []. by rewrite app_nil_r.
    + destruct (placedId (placeOrder client order)) as [oid|].
      * destruct (filledAmount (placeOrder client order)) as [f|].
        -- cbn [updatePosition called world riskManager emitted].
           split_and!; [done..|]. eexists. split; [done|].
           repeat constructor; cbn [fst]; by (left + right).
        -- cbn [called world riskManager emitted].
           split_and!; [done..|]. eexists. split; [done|].
           repeat constructor; cbn [fst]; by left.
      * split_and!; [done..|]. exists []. by rewrite app_nil_r.
  - split_and!; [done..|]. exists []. by rewrite app_nil_r.
Qed.

(** The exchange is asked to place an order exactly when the risk
    manager admits it and the manager is not in dry-run mode, and then
    once; the risk manager is left as the check leaves it, and the
    events of the check come before any event of the order manager. *)
Lemma exchange_called_iff_admitted_live B clk dryRun client w order :
  let check := RiskManager.checkOrder B clk (riskManager w) (store w) order in
  let out := submitOrder B clk dryRun client w order in
  called out
  = (if RiskManager.allowed check.1.1 && negb dryRun
     then [PlaceOrderCall order] else [])
  ∧ riskManager (world out) = check.1.2
  ∧ ∃ own, emitted out = check.2 ++ own
           ∧ Forall (λ e, e.1 = order_filled ∨ e.1 = position_changed) own.
Proof.
  intros check out.
  destruct (submitOrder_effects B clk dryRun client w order)
    as (H1 & H2 & _ & H3).
  done.
Qed.

(** What [submitOrder] comes to for an admitted order outside dry-run
    mode. *)
Lemma submitOrder_live B clk client w order :
  RiskManager.allowed
    (RiskManager.checkOrder B clk (riskManager w) (store w) order).1.1 = true →
  submitOrder B clk false client w order
  = let result := placeOrder client order in
    match placedId result with
    | Some oid =>
      let st1 := Store.saveOrder (store w) (Store.mkOrder oid order "open") in
      let ev1 := [(order_filled, OrderFilledData oid order result)] in
      match filledAmount result with
      | Some f =>
        mkOutcome result
          (mkWorld
             (updatePosition st1 (OrderRequest.tokenId order)
                (OrderRequest.side order) f (fillPrice order result)).1
             (riskManager w))
          (ev1 ++ (updatePosition st1 (OrderRequest.tokenId order)
                     (OrderRequest.side order) f (fillPrice order result)).2)
          [PlaceOrderCall order]
      | None =>
        mkOutcome result (mkWorld st1 (riskManager w)) ev1
          [PlaceOrderCall order]
      end
    | None => mkOutcome result w [] [PlaceOrderCall order]
    end.
Proof.
  intros Hok. unfold submitOrder.
  rewrite (checkOrder_allowed _ _ _ _ _ Hok). cbn [RiskManager.allowed negb].
  cbv zeta. destruct (placedId _); [|by destruct w].
  by destruct (filledAmount _).
Qed.

(** X8. An admitted order that the exchange accepts with an order id
    is saved under that id with status open, whether any of it was
    filled or not, and [order_filled] is emitted for it in both cases;
    [position_changed] follows, and the token's position is moved by
    the filled amount at the fill price (the limit price when the
    exchange reports none), only when the reported fill is positive. *)
Theorem placed_order_is_recorded B clk client w order oid :
  keyed (store w) →
  RiskManager.allowed
    (RiskManager.checkOrder B clk (riskManager w) (store w) order).1.1 = true →
  placedId (placeOrder client order) = Some oid →
  let result := placeOrder client order in
  let out := submitOrder B clk false client w order in
  let tok := OrderRequest.tokenId order in
  value out = result
  ∧ Store.orders (store (world out)) !! oid
    = Some (Store.mkOrder oid order "open")
  ∧ Store.mkOrder oid order "open" ∈ Store.getOpenOrders (store (world out))
  ∧ match filledAmount result with
    | Some f =>
      emitted_types (emitted out) = [order_filled; position_changed]
      ∧ getPosition (world out) tok
        = Some (filled (getPosition w tok) tok (OrderRequest.side order) f
                  (fillPrice order result))
    | None =>
      emitted_types (emitted out) = [order_filled]
      ∧ Store.positions (store (world out)) = Store.positions (store w)
    end.
Proof.
  intros Hkeyed Hok Hid result out tok. subst result out tok.
  rewrite submitOrder_live by done. cbv zeta. rewrite Hid.
  destruct (filledAmount (placeOrder client order)) as [f|] eqn:Hf;
    cbn [value world store emitted].
  - split_and!; [done| | |done|].
    + rewrite updatePosition_store. cbn [Store.savePosition Store.orders].
      cbn [Store.saveOrder Store.orders]. by rewrite lookup_insert_eq.
    + apply elem_of_getOpenOrders. split; [|done]. exists oid.
      rewrite updatePosition_store. cbn [Store.savePosition Store.orders].
      cbn [Store.saveOrder Store.orders]. by rewrite lookup_insert_eq.
    + unfold getPosition. cbn [store].
      rewrite getPosition_updatePosition; [done|].
      intros ex Hex. by apply Hkeyed in Hex.
  - split_and!; [done| | |done|done].
    + cbn [Store.saveOrder Store.orders]. by rewrite lookup_insert_eq.
    + apply elem_of_getOpenOrders. split; [|done]. exists oid.
      cbn [Store.saveOrder Store.orders]. by rewrite lookup_insert_eq.
Qed.

Lemma placed_order_is_recorded_witness :
  Store.orders
    (store (world (submitOrder Sample.builtins Sample.clock false
                     Scenario.fillingClient Sample.freshWorld Sample.order)))
    !! "mock-1"%string
  = Some (Store.mkOrder "mock-1" Sample.order "open").
Proof.
  pose proof (placed_order_is_recorded Sample.builtins Sample.clock
                Scenario.fillingClient Sample.freshWorld Sample.order
                "mock-1") as H.
  cbv zeta in H. apply H.
  - apply keyed_empty.
  - by rewrite freshWorld_check.
  - done.
Defined.

(** X9. An admitted order that the exchange does not accept (it
    answers without success, or with success but without an order id)
    leaves the store and the risk manager as they are and emits
    nothing; the exchange's answer is returned as it came. *)
Theorem unplaced_order_changes_nothing B clk client w order :
  RiskManager.allowed
    (RiskManager.checkOrder B clk (riskManager w) (store w) order).1.1 = true →
  placedId (placeOrder client order) = None →
  let out := submitOrder B clk false client w order in
  value out = placeOrder client order
  ∧ world out = w
  ∧ emitted out = []
  ∧ called out = [PlaceOrderCall order].
Proof.
  intros Hok Hid out. subst out.
  rewrite submitOrder_live by done. cbv zeta. by rewrite Hid.
Qed.

Lemma unplaced_order_changes_nothing_witness :
  world (submitOrder Sample.builtins Sample.clock false
           Scenario.refusingClient Sample.freshWorld Sample.order)
  = Sample.freshWorld.
Proof.
  apply (unplaced_order_changes_nothing Sample.builtins Sample.clock
           Scenario.refusingClient Sample.freshWorld Sample.order).
  - by rewrite freshWorld_check.
  - done.
Defined.

Lemma getOpenOrders_savePosition s p :
  Store.getOpenOrders (Store.savePosition s p) = Store.getOpenOrders s.
Proof. done. Qed.

(** X10. A filled order is counted twice in the exposure: the row saved
    for it stays open, so its notional remains among the open orders,
    and the position it opened is counted as well.  For an admitted
    order under a new id on a token without a position, the total
    exposure after the fill is the exposure before, plus price * size
    of the order, plus |filled * fill price|. *)
Theorem filled_order_stays_in_exposure B clk client w order oid f :
  RiskManager.allowed
    (RiskManager.checkOrder B clk (riskManager w) (store w) order).1.1 = true →
  placedId (placeOrder client order) = Some oid →
  filledAmount (placeOrder client order) = Some f →
  Store.orders (store w) !! oid = None →
  Store.positions (store w) !! OrderRequest.tokenId order = None →
  let out := submitOrder B clk false client w order in
  (RiskManager.getExposure (store (world out))).1
  = (RiskManager.getExposure (store w)).1
    + OrderRequest.price order * OrderRequest.size order
    + Rabs (f * fillPrice order (placeOrder client order)).
Proof.
  intros Hok Hid Hf Hfresh Hnone out. subst out.
  rewrite submitOrder_live by done. cbv zeta. rewrite Hid, Hf.
  cbn [world store]. rewrite updatePosition_store.
  rewrite !getExposure_total.
  rewrite getOpenOrders_savePosition.
  unfold Store.getPosition at 1. cbn [Store.saveOrder Store.positions].
  rewrite Hnone.
  assert (Hf' : f > 0).
  { unfold filledAmount in Hf. destruct (OrderResult.filledSize _); [|done].
    by case_decide; simplify_eq. }
  set (p := filled None _ _ _ _).
  assert (Hsize : Position.size p ≠ 0).
  { unfold p, filled. cbn [nextPosition markUnrealized Position.size].
    destruct (OrderRequest.side order); cbn [signedFill]; lra. }
  assert (Htok : Position.tokenId p = OrderRequest.tokenId order) by done.
  assert (Hpos : Store.getAllPositions
                   (Store.savePosition
                      (Store.saveOrder (store w)
                         (Store.mkOrder oid order "open")) p)
                 ≡ₚ p :: Store.getAllPositions (store w)).
  { unfold Store.getAllPositions.
    cbn [Store.savePosition Store.saveOrder Store.positions].
    rewrite Htok. rewrite (map_to_list_insert _ _ _ Hnone).
    rewrite fmap_cons. cbn [snd]. by rewrite filter_cons_True. }
  assert (Hord : Store.getOpenOrders
                   (Store.saveOrder (store w) (Store.mkOrder oid order "open"))
                 ≡ₚ Store.mkOrder oid order "open"
                    :: Store.getOpenOrders (store w)).
  { unfold Store.getOpenOrders.
    cbn [Store.saveOrder Store.orders Store.orderId].
    rewrite (map_to_list_insert _ _ _ Hfresh).
    rewrite fmap_cons. cbn [snd]. by rewrite filter_cons_True. }
  unfold ArbSpec.Rsum.
  rewrite (Rsum_permutation _ _
             (fmap_Permutation RiskManager.positionValue _ _ Hpos)).
  rewrite (Rsum_permutation _ _
             (fmap_Permutation RiskManager.orderValueOf _ _ Hord)).
  rewrite !fmap_cons. cbn [foldr].
  unfold RiskManager.orderValueOf at 1. cbn [Store.request].
  unfold RiskManager.positionValue at 1, Math_abs.
  replace (Position.size p * Position.currentPrice p)
    with (signedFill (OrderRequest.side order) f
          * fillPrice order (placeOrder client order)) by done.
  assert (Habs : Rabs (signedFill (OrderRequest.side order) f
                       * fillPrice order (placeOrder client order))
                 = Rabs (f * fillPrice order (placeOrder client order))).
  { destruct (OrderRequest.side order); cbn [signedFill]; [done|].
    rewrite <- Ropp_mult_distr_l. apply Rabs_Ropp. }
  rewrite Habs. lra.
Qed.

Lemma filled_order_stays_in_exposure_witness :
  (RiskManager.getExposure
     (store (world (submitOrder Sample.builtins Sample.clock false
                      Scenario.fillingClient Sample.freshWorld
                      Sample.order)))).1
  = (RiskManager.getExposure (store Sample.freshWorld)).1
    + OrderRequest.price Sample.order * OrderRequest.size Sample.order
    + Rabs (10 * fillPrice Sample.order
                   (placeOrder Scenario.fillingClient Sample.order)).
Proof.
  apply (filled_order_stays_in_exposure Sample.builtins Sample.clock
           Scenario.fillingClient Sample.freshWorld Sample.order "mock-1" 10).
  - by rewrite freshWorld_check.
  - done.
  - unfold filledAmount. cbn. rewrite decide_True by lra. done.
  - done.
  - done.
Defined.

End Placement.

(* ===================================================================== *)
(** * Order manager: cancelling and reconciling                           *)
(* ===================================================================== *)

Section Cancellation.
Import OrderManager StoreSpec FillSpec.

(** A sweep over some rows that rewrites the status of those it does
    not keep. *)
Lemma sweep_orders (g : Store.t → Store.OrderRow → Store.t)
    (keep : Store.OrderRow → bool) (status' : string) :
  (∀ st o, g st o = if keep o then st
                    else Store.updateOrderStatus st (Store.orderId o) status') →
  ∀ l s,
    Store.positions (fold_left g l s) = Store.positions s
    ∧ Store.trades (fold_left g l s) = Store.trades s
    ∧ ∀ k, Store.orders (fold_left g l s) !! k
           = if decide (k ∈ swept keep l)
             then (λ o, Store.mkOrder (Store.orderId o) (Store.request o)
                          status') <$> Store.orders s !! k
             else Store.orders s !! k.
Proof.
  intros Hg. unfold swept.
  induction l as [|o l IH]; intros s; cbn [fold_left].
  - split_and!; [done..|]. intros k. rewrite filter_nil.
    rewrite decide_False; [done|]. cbn. apply not_elem_of_nil.
  - destruct (IH (g s o)) as (Hp & Ht & Ho). rewrite Hp, Ht.
    setoid_rewrite Ho. clear Hp Ht Ho. rewrite (Hg s o).
    destruct (keep o) eqn:Hkeep.
    + split_and!; [done..|]. intros k.
      rewrite filter_cons_False; [done|]. by rewrite Hkeep.
    + split_and!; [done..|]. intros k.
      rewrite filter_cons_True by done. rewrite fmap_cons.
      cbn [Store.updateOrderStatus Store.orders].
      destruct (decide (k = Store.orderId o)) as [->|Hne].
      * rewrite lookup_alter_eq.
        rewrite (decide_True (P := _ ∈ _ :: _))
          by (apply elem_of_cons; by left).
        case_decide; [|done].
        by destruct (Store.orders s !! Store.orderId o).
      * rewrite lookup_alter_ne by done.
        case_decide as Hin.
        -- rewrite decide_True; [done|]. by (apply elem_of_cons; right).
        -- rewrite decide_False; [done|].
           intros [?|?]%elem_of_cons; done.
Qed.

(** X11. When the exchange confirms [cancelAllOrders], no order is open
    afterwards; the rows that were not open keep their status, the
    positions and the trades are as they were, and no event is emitted
    for the orders cancelled this way. *)
Theorem cancel_all_leaves_no_open_order client w :
  keyed (store w) →
  cancelAllOrders_remote client = true →
  let out := cancelAllOrders false client w in
  value out = true
  ∧ Store.getOpenOrders (store (world out)) = []
  ∧ (∀ k o, Store.orders (store w) !! k = Some o → Store.isLive o = false →
            Store.orders (store (world out)) !! k = Some o)
  ∧ Store.positions (store (world out)) = Store.positions (store w)
  ∧ Store.trades (store (world out)) = Store.trades (store w)
  ∧ riskManager (world out) = riskManager w
  ∧ emitted out = []
  ∧ called out = [CancelAllCall].
Proof.
  intros Hkeyed Hremote out. subst out. unfold cancelAllOrders.
  rewrite Hremote. cbn [value world store riskManager emitted called].
  destruct (sweep_orders
              (λ st o, Store.updateOrderStatus st (Store.orderId o) "cancelled")
              (λ _, false) "cancelled" (λ _ _, eq_refl)
              (Store.getOpenOrders (store w)) (store w)) as (Hp & Ht & Ho).
  pose proof Hkeyed as (_ & Hkey & _).
  split_and!; [done| | |done..].
  - apply elem_of_nil_inv. intros o [[k Hk] Hlive]%elem_of_getOpenOrders.
    rewrite Ho in Hk. case_decide as Hin.
    + destruct (Store.orders (store w) !! k) as [o0|]; [|done].
      injection Hk as <-. done.
    + apply Hin. unfold swept. apply list_elem_of_fmap. exists o.
      split; [by rewrite (Hkey k o Hk)|].
      apply list_elem_of_filter. split; [done|].
      apply elem_of_getOpenOrders. split; [by exists k|done].
  - intros k o Hk Hdead. rewrite Ho, Hk. rewrite decide_False; [done|].
    unfold swept.
    intros (o' & Hid & [_ Hopen]%list_elem_of_filter)%list_elem_of_fmap.
    apply elem_of_getOpenOrders in Hopen as [[k' Hk'] Hlive].
    rewrite (Hkey k' o' Hk') in Hid. subst k'.
    rewrite Hk in Hk'. injection Hk' as <-. congruence.
Qed.

Lemma cancel_all_leaves_no_open_order_witness :
  Store.getOpenOrders
    (store (world (cancelAllOrders false Sample.client
                     Scenario.oneOrderWorld))) = [].
Proof.
  apply (cancel_all_leaves_no_open_order Sample.client Scenario.oneOrderWorld).
  - apply keyed_saveOrder, keyed_empty.
  - done.
Defined.

(** X12. [syncOrders] keeps open exactly the local open orders whose id
    the exchange still lists, marks the others filled_or_cancelled,
    and adds no row for an order that only the exchange knows; it
    emits nothing. *)
Theorem sync_keeps_orders_the_exchange_lists client w :
  keyed (store w) →
  let out := syncOrders client w in
  (∀ o, o ∈ Store.getOpenOrders (store (world out))
        ↔ o ∈ Store.getOpenOrders (store w)
          ∧ Store.orderId o ∈ getOpenOrders_remote client)
  ∧ (∀ o, o ∈ Store.getOpenOrders (store w) →
          Store.orderId o ∉ getOpenOrders_remote client →
          Store.orders (store (world out)) !! Store.orderId o
          = Some (Store.mkOrder (Store.orderId o) (Store.request o)
                    "filled_or_cancelled"))
  ∧ (∀ k, Store.orders (store (world out)) !! k = None
          ↔ Store.orders (store w) !! k = None)
  ∧ Store.positions (store (world out)) = Store.positions (store w)
  ∧ emitted out = [].
Proof.
  intros Hkeyed out. subst out. unfold syncOrders.
  cbn [value world store riskManager emitted called].
  destruct (sweep_orders
              (λ st local,
                 if bool_decide (Store.orderId local
                                 ∈ getOpenOrders_remote client) then st
                 else Store.updateOrderStatus st (Store.orderId local)
                        "filled_or_cancelled")
              (λ o, bool_decide (Store.orderId o
                                 ∈ getOpenOrders_remote client))
              "filled_or_cancelled" (λ _ _, eq_refl)
              (Store.getOpenOrders (store w)) (store w)) as (Hp & Ht & Ho).
  pose proof Hkeyed as (_ & Hkey & _).
  assert (Hswept : ∀ k o, Store.orders (store w) !! k = Some o →
            k ∈ swept (λ o, bool_decide (Store.orderId o
                                          ∈ getOpenOrders_remote client))
                  (Store.getOpenOrders (store w))
            ↔ Store.isLive o = true
              ∧ Store.orderId o ∉ getOpenOrders_remote client).
  { intros k o Hk. unfold swept. rewrite list_elem_of_fmap. split.
    - intros (o' & Hid & [Hrem Hopen]%list_elem_of_filter).
      apply elem_of_getOpenOrders in Hopen as [[k' Hk'] Hlive].
      rewrite (Hkey k' o' Hk') in Hid. subst k'.
      rewrite Hk in Hk'. injection Hk' as <-.
      split; [done|]. by apply bool_decide_eq_false in Hrem.
    - intros [Hlive Hrem]. exists o. split; [by rewrite (Hkey k o Hk)|].
      apply list_elem_of_filter. split; [by apply bool_decide_eq_false|].
      apply elem_of_getOpenOrders. split; [by exists k|done]. }
  split_and!; [| | |done..].
  - intros o. rewrite !elem_of_getOpenOrders. split.
    + intros [[k Hk] Hlive]. rewrite Ho in Hk. case_decide as Hin.
      * destruct (Store.orders (store w) !! k) as [o0|]; [|done].
        injection Hk as <-. done.
      * split; [split; [by exists k|done]|].
        destruct (decide (Store.orderId o ∈ getOpenOrders_remote client))
          as [|Hrem]; [done|].
        exfalso. apply Hin. by apply (Hswept k o Hk).
    + intros [[[k Hk] Hlive] Hrem]. split; [|done]. exists k.
      rewrite Ho, Hk. rewrite decide_False; [done|].
      intros [_ ?]%(Hswept k o Hk). done.
  - intros o [[k Hk] Hlive]%elem_of_getOpenOrders Hrem.
    pose proof (Hkey k o Hk) as Hid. rewrite Hid, Ho, Hk.
    rewrite decide_True; [by rewrite <- Hid|]. by apply (Hswept k o Hk).
  - intros k. rewrite Ho. case_decide; [|done].
    by destruct (Store.orders (store w) !! k).
Qed.

Lemma sync_keeps_orders_the_exchange_lists_witness :
  Store.orders
    (store (world (syncOrders Sample.client Scenario.oneOrderWorld)))
    !! "o-1"%string
  = Some (Store.mkOrder "o-1" Sample.order "filled_or_cancelled").
Proof.
  pose proof (sync_keeps_orders_the_exchange_lists Sample.client
                Scenario.oneOrderWorld) as H.
  cbv zeta in H. destruct H as (_ & H & _).
  - apply keyed_saveOrder, keyed_empty.
  - apply (H Scenario.openOrder).
    + apply elem_of_getOpenOrders. split; [|done]. exists "o-1"%string.
      apply lookup_insert_eq.
    + apply not_elem_of_nil.
Defined.

(** X13. A cancellation the exchange confirms closes that order and no
    other, and [order_cancelled] is emitted for it, also when the
    store holds no order under the id (the store is then left as it
    is); a cancellation the exchange refuses changes nothing and
    emits nothing. *)
Theorem cancel_follows_the_exchange client w oid :
  keyed (store w) →
  let out := cancelOrder false client w oid in
  value out = cancelOrder_remote client oid
  ∧ called out = [CancelOrderCall oid]
  ∧ emitted out
    = (if cancelOrder_remote client oid
       then [(order_cancelled, OrderCancelledData oid)] else [])
  ∧ (∀ o, o ∈ Store.getOpenOrders (store (world out))
          ↔ o ∈ Store.getOpenOrders (store w)
            ∧ (cancelOrder_remote client oid = true → Store.orderId o ≠ oid))
  ∧ (cancelOrder_remote client oid = false
     ∨ Store.orders (store w) !! oid = None → world out = w).
Proof.
  intros Hkeyed out. subst out. unfold cancelOrder.
  destruct (cancelOrder_remote client oid) eqn:Hremote;
    cbn [value world store emitted called].
  - split_and!; [done..| |].
    + intros o. rewrite getOpenOrders_updateOrderStatus by done.
      split; intros [? ?]; split; auto.
    + intros [?|Hnone]; [done|]. destruct w as [st rm]. f_equal.
      cbn [store] in *. destruct st as [ps os ts].
      unfold Store.updateOrderStatus.
      cbn [Store.positions Store.orders Store.trades] in *.
      f_equal. by apply alter_id'.
  - split_and!; [done..| |done]. intros o.
    split; [by intros ?; split|by intros [? _]].
Qed.

Lemma cancel_follows_the_exchange_witness :
  Store.getOpenOrders
    (store (world (cancelOrder false Sample.client Scenario.oneOrderWorld
                     "o-1"))) = [].
Proof.
  apply elem_of_nil_inv. intros o Hin.
  apply (cancel_follows_the_exchange Sample.client Scenario.oneOrderWorld
           "o-1") in Hin as [[[k Hk] _]%elem_of_getOpenOrders Hne].
  - cbn in Hk. destruct (decide (k = "o-1"%string)) as [->|Hk'].
    + rewrite lookup_insert_eq in Hk. injection Hk as <-. by apply Hne.
    + by rewrite lookup_insert_ne, lookup_empty in Hk.
  - apply keyed_saveOrder, keyed_empty.
Defined.

End Cancellation.

(* ===================================================================== *)
(** * Order manager: what a fill does to the positions                    *)
(* ===================================================================== *)

Section Fills.
Import OrderManager StoreSpec FillSpec PositionSpec.

Lemma filled_sideMatchesSign existing tok side size price :
  size > 0 →
  (∀ ex, existing = Some ex → sideMatchesSign ex) →
  sideMatchesSign (filled existing tok side size price).
Proof.
  intros Hsize Hex. unfold filled.
  destruct existing as [ex|];
    [destruct (decide (Position.size ex = 0)) as [Hz|Hnz]|].
  - unfold nextPosition. rewrite decide_True by done.
    unfold sideMatchesSign.
    cbn [markUnrealized Position.side Position.size].
    destruct side; cbn [signedFill]; [left|right]; split; first [done|lra].
  - specialize (Hex ex eq_refl).
    destruct (decide (Position.side ex = side)) as [Heq|Hne].
    + rewrite nextPosition_same_side by done. unfold sideMatchesSign.
      cbn [markUnrealized Position.side Position.size]. rewrite <- Heq.
      destruct Hex as [[Hs Hge]|[Hs Hlt]]; rewrite Hs; cbn [signedFill];
        [left|right]; split; first [done|lra].
    + rewrite nextPosition_opposite_side by done. unfold sideMatchesSign.
      cbn [markUnrealized Position.side Position.size].
      case_decide; [left|right]; split; first [done|lra].
  - unfold sideMatchesSign.
    cbn [nextPosition markUnrealized Position.side Position.size].
    destruct side; cbn [signedFill]; [left|right]; split; first [done|lra].
Qed.

(** X14. A fill keeps the store well formed: the rows stay under their
    keys, and when every position has a side that matches the sign of
    its size (BUY and not negative, or SELL and negative), so has the
    position the fill writes, for any fill of positive size. *)
Theorem fill_keeps_side_and_sign st tok side size price :
  consistent st →
  size > 0 →
  consistent (updatePosition st tok side size price).1.
Proof.
  intros [Hkeyed Hsign] Hsize. rewrite updatePosition_store. split.
  - by apply keyed_savePosition.
  - intros tok' p. unfold Store.getPosition.
    cbn [Store.savePosition Store.positions].
    rewrite filled_tokenId; [|intros ex Hex; by apply Hkeyed in Hex].
    destruct (decide (tok' = tok)) as [->|Hne].
    + rewrite lookup_insert_eq. intros [= <-].
      apply filled_sideMatchesSign; [done|]. intros ex Hex. by eapply Hsign.
    + rewrite lookup_insert_ne by done. apply Hsign.
Qed.

Lemma fill_keeps_side_and_sign_witness :
  consistent (updatePosition Scenario.longStore "tok" SELL 25 0.5).1.
Proof.
  apply fill_keeps_side_and_sign; [|lra]. split.
  - apply keyed_savePosition, keyed_empty.
  - intros tok p. unfold Store.getPosition. cbn.
    destruct (decide (tok = "tok"%string)) as [->|Hne].
    + rewrite lookup_insert_eq. intros [= <-]. left. cbn. split; [done|lra].
    + by rewrite lookup_insert_ne, lookup_empty.
Defined.

(** X15. A fill writes the row of its token and nothing else: the
    positions of the other tokens, the orders and the trades are as
    they were, and the one event emitted, [position_changed], carries
    the row that was written. *)
Theorem fill_touches_one_row st tok side size price :
  keyed st →
  let out := updatePosition st tok side size price in
  (∀ tok', tok' ≠ tok →
           Store.getPosition out.1 tok' = Store.getPosition st tok')
  ∧ Store.orders out.1 = Store.orders st
  ∧ Store.trades out.1 = Store.trades st
  ∧ ∃ p, Store.getPosition out.1 tok = Some p
         ∧ Position.tokenId p = tok
         ∧ out.2 = [(position_changed, PositionChangedData tok p)].
Proof.
  intros Hkeyed out. subst out.
  assert (Hkey : ∀ ex, Store.getPosition st tok = Some ex →
                       Position.tokenId ex = tok).
  { intros ex Hex. by apply Hkeyed in Hex. }
  split_and!; [|done|done|].
  - intros tok' Hne. rewrite updatePosition_store. unfold Store.getPosition.
    cbn [Store.savePosition Store.positions].
    rewrite filled_tokenId by done. by rewrite lookup_insert_ne.
  - exists (filled (Store.getPosition st tok) tok side size price).
    split_and!; [by apply getPosition_updatePosition
                |by apply filled_tokenId|done].
Qed.

Lemma fill_touches_one_row_witness :
  Store.getPosition (updatePosition Scenario.longStore "other" BUY 5 0.3).1
    "tok"
  = Store.getPosition Scenario.longStore "tok".
Proof.
  apply (fill_touches_one_row Scenario.longStore "other" BUY 5 0.3).
  - apply keyed_savePosition, keyed_empty.
  - done.
Defined.

(** X16. A fill on the other side that matches the size of a long
    position leaves a flat row carrying the realized PnL (what it had,
    plus size * (price - average entry)), which [getAllPositions] no
    longer lists; the next fill on the token, whatever it is, starts a
    new position over that row: the realized PnL is zero again and the
    market name is empty. *)
Theorem reopened_position_forgets_realized_pnl
    st tok P closePrice side size price :
  keyed st →
  Store.getPosition st tok = Some P →
  Position.side P = BUY →
  Position.size P > 0 →
  let st1 := (updatePosition st tok SELL (Position.size P) closePrice).1 in
  let st2 := (updatePosition st1 tok side size price).1 in
  ∃ closed reopened,
    Store.getPosition st1 tok = Some closed
    ∧ Position.size closed = 0
    ∧ Position.realizedPnl closed
      = Position.realizedPnl P
        + Position.size P * (closePrice - Position.avgEntryPrice P)
    ∧ (closed ∉ Store.getAllPositions st1)
    ∧ Store.getPosition st2 tok = Some reopened
    ∧ Position.size reopened = signedFill side size
    ∧ Position.avgEntryPrice reopened = price
    ∧ Position.realizedPnl reopened = 0
    ∧ Position.market reopened = EmptyString.
Proof.
  intros Hkeyed HP Hside Hsize st1 st2.
  assert (Hkey : ∀ ex, Store.getPosition st tok = Some ex →
                       Position.tokenId ex = tok).
  { intros ex Hex. by apply Hkeyed in Hex. }
  assert (H1 : Store.getPosition st1 tok
               = Some (filled (Some P) tok SELL (Position.size P) closePrice)).
  { unfold st1. rewrite getPosition_updatePosition by done. by rewrite HP. }
  assert (Hflat : Position.size
                    (filled (Some P) tok SELL (Position.size P) closePrice)
                  = 0).
  { unfold filled. rewrite nextPosition_opposite_side; [|lra|by rewrite Hside].
    cbn [markUnrealized Position.size signedFill]. lra. }
  assert (Hkeyed1 : keyed st1).
  { unfold st1. rewrite updatePosition_store. by apply keyed_savePosition. }
  eexists _, _. split_and!.
  - exact H1.
  - exact Hflat.
  - unfold filled. rewrite nextPosition_opposite_side; [|lra|by rewrite Hside].
    cbn [markUnrealized Position.realizedPnl]. rewrite Hside. lra.
  - by intros [_ ?]%elem_of_getAllPositions.
  - unfold st2. rewrite getPosition_updatePosition; [by rewrite H1|].
    intros ex Hex. by apply Hkeyed1 in Hex.
  - unfold filled at 1, nextPosition at 1. by rewrite decide_True.
  - unfold filled at 1, nextPosition at 1. by rewrite decide_True.
  - unfold filled at 1, nextPosition at 1. by rewrite decide_True.
  - unfold filled at 1, nextPosition at 1. by rewrite decide_True.
Qed.

Lemma reopened_position_forgets_realized_pnl_witness :
  ∃ closed reopened,
    Store.getPosition
      (updatePosition Scenario.longStore "tok" SELL 10 0.70).1 "tok"
    = Some closed
    ∧ Position.realizedPnl closed = 0 + 10 * (0.70 - 0.40)
    ∧ Store.getPosition
        (updatePosition
           (updatePosition Scenario.longStore "tok" SELL 10 0.70).1
           "tok" BUY 5 0.5).1 "tok"
      = Some reopened
    ∧ Position.realizedPnl reopened = 0.
Proof.
  destruct (reopened_position_forgets_realized_pnl Scenario.longStore "tok"
              Scenario.long10 0.70 BUY 5 0.5)
    as (closed & reopened & H1 & _ & H2 & _ & H3 & _ & _ & H4 & _).
  - apply keyed_savePosition, keyed_empty.
  - apply lookup_insert_eq.
  - done.
  - cbn. lra.
  - exists closed, reopened. split_and!; [exact H1|exact H2|exact H3|exact H4].
Defined.

End Fills.

(* ===================================================================== *)
(** * Event bus: subscribing and unsubscribing                            *)
(* ===================================================================== *)

Section Subscriptions.
Import EventBus BusSpec.

Lemma elem_of_Set_values (s : HandlerSet) h : h ∈ Set_values s ↔ Some h ∈ s.
Proof.
  unfold Set_values. rewrite list_elem_of_omap. split.
  - intros (e & He & Heq). cbn in Heq. by subst.
  - intros Hin. by exists (Some h).
Qed.

Lemma Set_values_add (s : HandlerSet) h :
  Set_values (Set_add s h)
  = if decide (h ∈ Set_values s) then Set_values s else Set_values s ++ [h].
Proof.
  unfold Set_add, Set_has. case_bool_decide as Hin.
  - rewrite decide_True; [done|]. by apply elem_of_Set_values.
  - rewrite decide_False; [|by rewrite elem_of_Set_values].
    unfold Set_values. by rewrite omap_app.
Qed.

(** X17. The handlers of a type form a set kept in registration order:
    [on] appends a handler unless it is subscribed already, [off]
    removes it wherever it stands, neither touches the handlers of
    another type, and no handler comes to be subscribed twice. *)
Theorem subscriptions_form_a_set b ty h ty' :
  registered (on b ty h) ty'
  = (if decide (ty' = ty)
     then if decide (h ∈ registered b ty) then registered b ty
          else registered b ty ++ [h]
     else registered b ty')
  ∧ registered (off b ty h) ty'
    = (if decide (ty' = ty) then filter (λ x, x ≠ h) (registered b ty)
       else registered b ty')
  ∧ registered (off (on b ty h) ty h) ty = filter (λ x, x ≠ h) (registered b ty)
  ∧ (NoDup (registered b ty') →
     NoDup (registered (on b ty h) ty') ∧ NoDup (registered (off b ty h) ty')).
Proof.
  assert (Hon : ∀ ty', registered (on b ty h) ty'
    = (if decide (ty' = ty)
       then if decide (h ∈ registered b ty) then registered b ty
            else registered b ty ++ [h]
       else registered b ty')).
  { intros t. unfold registered, on. cbn [handlers].
    destruct (decide (t = ty)) as [->|Hne].
    - rewrite lookup_alter_eq.
      destruct (handlers b !! ty) as [s|] eqn:E.
      + rewrite E. cbn [fmap option_fmap option_map default].
        apply Set_values_add.
      + cbn [handlers]. rewrite lookup_insert_eq. done.
    - rewrite lookup_alter_ne by done.
      destruct (handlers b !! ty); [done|]. cbn [handlers].
      by rewrite lookup_insert_ne. }
  assert (Hoff : ∀ b ty', registered (off b ty h) ty'
    = (if decide (ty' = ty) then filter (λ x, x ≠ h) (registered b ty)
       else registered b ty')).
  { intros b0 t. unfold registered, off. cbn [handlers].
    destruct (decide (t = ty)) as [->|Hne].
    - rewrite lookup_alter_eq. destruct (handlers b0 !! ty) as [s|]; [|done].
      cbn [fmap option_fmap option_map default]. apply Set_values_delete.
    - by rewrite lookup_alter_ne. }
  split_and!.
  - apply Hon.
  - apply Hoff.
  - rewrite Hoff, decide_True by done. rewrite Hon, decide_True by done.
    case_decide as Hin; [done|].
    rewrite filter_app, filter_cons_False, filter_nil, app_nil_r;
      [done|by intros H; apply H].
  - intros Hnd. rewrite Hon, Hoff. split.
    + destruct (decide (ty' = ty)) as [->|?]; [|done]. case_decide; [done|].
      apply NoDup_app. split_and!; [done| |apply NoDup_singleton].
      by intros x Hx ->%list_elem_of_singleton.
    + destruct (decide (ty' = ty)) as [->|?]; [|done]. by apply NoDup_filter.
Qed.

End Subscriptions.

(* ===================================================================== *)
(** * Event bus: handlers registered with once                            *)
(* ===================================================================== *)

Section OnceDispatch.
Import EventBus BusSpec.
Context {Data App Err : Type}.
Variable call :
  HandlerId → BotEvent Data → World App → Completion Err (World App).

Abbreviation Run := (EventBus.Run Data App Err).






End OnceDispatch.

Section OnceExample.
Import EventBus BusSpec.


End OnceExample.

(* ===================================================================== *)
(** * Market discovery: runs of refreshes, reordered catalogs             *)
(* ===================================================================== *)

Section Refreshes.
Import Gamma GammaSpec.

(** X19. Over any run of refreshes, failed or not, a listener that
    keeps the groups of the last [market_groups_updated] it received
    holds the list [getMarketGroups] returns (the initial list while
    nothing was emitted); the service emits no other event, and at
    most one per fetch that came back with a catalog, so a failed
    fetch changes nothing and emits nothing. *)
Theorem listeners_hold_the_current_groups B svc rs :
  let out := refreshAll B svc rs in
  getMarketGroups out.1 = default (getMarketGroups svc) (lastAnnounced out.2)
  ∧ Forall isUpdate out.2
  ∧ (length out.2 ≤ length (bodies rs))%nat.
Proof.
  cbv zeta. revert svc.
  induction rs as [|r rs IH]; intros svc; cbn [refreshAll].
  - split_and!; [done|constructor|done].
  - unfold bodies in *.
    assert (Hstep : fetchAndUpdate B svc r = (svc, [])
                    ∨ ∃ events, r = Body events
                        ∧ fetchAndUpdate B svc r
                          = (mk (extractMarketGroups B events),
                             [(market_groups_updated,
                               MarketGroupsUpdatedData
                                 (extractMarketGroups B events))])).
    { destruct r as [m|st txt|m|events]; try by left.
      rewrite fetchAndUpdate_body.
      destruct (hasChanged _ _); [right; by exists events|by left]. }
    destruct Hstep as [->|(events & -> & ->)].
    + destruct (IH svc) as (Hg & Hall & Hlen).
      destruct (refreshAll B svc rs) as [svc2 es2]. cbn [fst snd app] in *.
      split; [done|split; [done|]].
      destruct (decide (isBody r = true)).
      * rewrite filter_cons_True by done. cbn [length]. lia.
      * by rewrite filter_cons_False by done.
    + destruct (IH (mk (extractMarketGroups B events))) as (Hg & Hall & Hlen).
      destruct (refreshAll B (mk (extractMarketGroups B events)) rs)
        as [svc2 es2].
      cbn [fst snd app] in *. rewrite filter_cons_True by done.
      split; [|split];
        [|apply List.Forall_cons; [by eexists|done]|cbn [length]; lia].
      rewrite Hg. unfold lastAnnounced.
      destruct es2 as [|e es2]; [done|]. rewrite last_cons_cons.
      destruct (last (e :: es2)) as [x|] eqn:E; [|by apply last_None in E].
      apply last_Some_elem_of in E.
      rewrite List.Forall_forall in Hall.
      destruct (Hall x) as [groups ->]; [by apply list_elem_of_In|done].
Qed.

Lemma leb_trans (a b c : string) :
  String.leb a b = true → String.leb b c = true → String.leb a c = true.
Proof.
  assert (Hle : ∀ x y, String.leb x y = true
                       ↔ x = y ∨ OrderedTypeEx.String_as_OT.lt x y).
  { intros x y. unfold String.leb.
    destruct (String.compare x y) eqn:E.
    - apply OrderedTypeEx.String_as_OT.cmp_eq in E. by split; [left|].
    - apply OrderedTypeEx.String_as_OT.cmp_lt in E. by split; [right|].
    - split; [done|]. intros [->|Hlt].
      + assert (H : String.compare y y = Eq)
          by (by apply OrderedTypeEx.String_as_OT.cmp_eq).
        congruence.
      + apply OrderedTypeEx.String_as_OT.cmp_lt in Hlt.
        unfold OrderedTypeEx.String_as_OT.cmp in Hlt. congruence. }
  rewrite !Hle. intros [->|H1] [->|H2]; auto.
  right. by eapply OrderedTypeEx.String_as_OT.lt_trans.
Qed.

Lemma insertSorted_comm x y l :
  insertSorted x (insertSorted y l) = insertSorted y (insertSorted x l).
Proof.
  induction l as [|z l IH]; cbn [insertSorted].
  - destruct (String.leb x y) eqn:Hxy, (String.leb y x) eqn:Hyx; try done.
    + by rewrite (String.leb_antisym _ _ Hxy Hyx).
    + destruct (String.leb_total x y); congruence.
  - destruct (String.leb x z) eqn:Hxz, (String.leb y z) eqn:Hyz;
      cbn [insertSorted]; rewrite ?Hxz, ?Hyz.
    + destruct (String.leb x y) eqn:Hxy, (String.leb y x) eqn:Hyx; try done.
      * by rewrite (String.leb_antisym _ _ Hxy Hyx).
      * destruct (String.leb_total x y); congruence.
    + destruct (String.leb y x) eqn:Hyx; [|done].
      by rewrite (leb_trans _ _ _ Hyx Hxz) in Hyz.
    + destruct (String.leb x y) eqn:Hxy; [|done].
      by rewrite (leb_trans _ _ _ Hxy Hyz) in Hxz.
    + by rewrite IH.
Qed.

Lemma Array_sort_permutation l l' : l ≡ₚ l' → Array_sort l = Array_sort l'.
Proof.
  unfold Array_sort.
  induction 1 as [|x l l' _ IH|x y l|l l' l'' _ IH1 _ IH2]; cbn [foldr].
  - done.
  - by rewrite IH.
  - apply insertSorted_comm.
  - by rewrite IH1.
Qed.

(** X20. Change detection ignores the order of the groups: a catalog
    that yields the stored groups in another order is not a change, so
    the refresh emits nothing and the stored list keeps its old
    order. *)
Theorem reordered_catalog_is_not_a_change B svc events :
  extractMarketGroups B events ≡ₚ currentGroups svc →
  hasChanged svc (extractMarketGroups B events) = false
  ∧ fetchAndUpdate B svc (Body events) = (svc, []).
Proof.
  intros Hperm.
  assert (H : hasChanged svc (extractMarketGroups B events) = false).
  { unfold hasChanged.
    rewrite decide_False by (intros Hlen; apply Hlen; by rewrite Hperm).
    apply bool_decide_eq_false_2. intros Hne. apply Hne. unfold serialize.
    f_equal. apply Array_sort_permutation. by rewrite Hperm. }
  split; [done|]. by rewrite fetchAndUpdate_body, H.
Qed.

Lemma reordered_catalog_is_not_a_change_witness :
  fetchAndUpdate Sample.builtins
    (mk [Scenario.pairGroup "cond-2"; Scenario.pairGroup "cond-1"])
    (Body Scenario.twoEvents)
  = (mk [Scenario.pairGroup "cond-2"; Scenario.pairGroup "cond-1"], []).
Proof.
  apply (reordered_catalog_is_not_a_change Sample.builtins
           (mk [Scenario.pairGroup "cond-2"; Scenario.pairGroup "cond-1"])
           Scenario.twoEvents).
  change (extractMarketGroups Sample.builtins Scenario.twoEvents)
    with [Scenario.pairGroup "cond-1"; Scenario.pairGroup "cond-2"].
  apply Permutation_swap.
Defined.

Lemma yesTokens_elem B ms tok :
  tok ∈ yesTokens B ms →
  ∃ m, m ∈ ms ∧ head (parseClobTokenIds B (clobTokenIds m)) = Some tok.
Proof.
  induction ms as [|m ms IH]; cbn [yesTokens]; [by intros ?%elem_of_nil|].
  destruct (parseClobTokenIds B (clobTokenIds m)) as [|yes rest] eqn:E.
  - intros (m' & Hin & Hhead)%IH. exists m'. split; [|done].
    apply elem_of_cons. by right.
  - intros [->|(m' & Hin & Hhead)%IH]%elem_of_cons.
    + exists m. split; [apply elem_of_cons; by left|by rewrite E].
    + exists m'. split; [|done]. apply elem_of_cons. by right.
Qed.

Lemma length_yesTokens B ms : (length (yesTokens B ms) ≤ length ms)%nat.
Proof.
  induction ms as [|m ms IH]; cbn [yesTokens]; [done|].
  destruct (parseClobTokenIds B (clobTokenIds m)); cbn [length]; lia.
Qed.

(** X21. Discovery invents nothing: every group comes from one event of
    the catalog and carries the condition id of that event's first
    sub-market; it is either the two tokens of the event's only
    sub-market, or, for a negative-risk event with several
    sub-markets, first tokens of sub-markets, at most one per
    sub-market and in their order. *)
Theorem discovered_tokens_come_from_the_catalog B events g :
  g ∈ extractMarketGroups B events →
  ∃ event ms first,
    event ∈ events ∧ markets event = Some ms ∧ head ms = Some first
    ∧ MarketGroup.conditionId g = conditionId first
    ∧ ((ms = [first]
        ∧ MarketGroup.tokenIds g = parseClobTokenIds B (clobTokenIds first))
       ∨ (negRisk event = true ∧ (1 < length ms)%nat
          ∧ (length (MarketGroup.tokenIds g) ≤ length ms)%nat
          ∧ ∀ tok, tok ∈ MarketGroup.tokenIds g →
              ∃ m, m ∈ ms
                   ∧ head (parseClobTokenIds B (clobTokenIds m)) = Some tok)).
Proof.
  unfold extractMarketGroups.
  intros (event & Hin & Hg)%list_elem_of_omap.
  unfold extractGroup in Hg.
  destruct (markets event) as [[|first rest]|] eqn:Hms; [done| |done].
  exists event, (first :: rest), first. split_and!; [done..| |].
  - repeat case_match; by simplify_eq.
  - destruct (negRisk event); cbn [andb] in Hg.
    + case_bool_decide as Hlen.
      * case_decide; [|done]. injection Hg as <-. right.
        cbn [MarketGroup.tokenIds].
        split_and!; [done|done|apply (length_yesTokens B (first :: rest))|].
        intros tok. apply (yesTokens_elem B (first :: rest)).
      * case_decide as H1; [|done]. case_decide; [|done].
        injection Hg as <-. left. cbn [MarketGroup.tokenIds].
        split; [|done]. destruct rest; [done|]. cbn [length] in H1. lia.
    + case_decide as H1; [|done]. case_decide; [|done].
      injection Hg as <-. left. cbn [MarketGroup.tokenIds].
      split; [|done]. destruct rest; [done|]. cbn [length] in H1. lia.
Qed.

Lemma discovered_tokens_come_from_the_catalog_witness :
  ∃ event ms first,
    event ∈ [Sample.singleNegRisk] ∧ markets event = Some ms
    ∧ head ms = Some first
    ∧ conditionId first = "cond-single"%string.
Proof.
  destruct (discovered_tokens_come_from_the_catalog Sample.builtins
              [Sample.singleNegRisk]
              (MarketGroup.mk "cond-single" ["token-a"; "token-b"]%string))
    as (event & ms & first & Hin & Hms & Hfirst & Hcond & _).
  - rewrite single_neg_risk_market. apply list_elem_of_singleton. done.
  - exists event, ms, first. split_and!; [done..|]. by rewrite <- Hcond.
Defined.

End Refreshes.

(* ===================================================================== *)
(** * Strategy: what every evaluation does                                *)
(* ===================================================================== *)

Section EveryEvaluation.
Import BregmanArb ArbSpec SignalSpec.
Variables (B : Builtins) (cfg : Config) (ctx : Context) (now : Z).
Variables (trigger : string) (triggerBook : OrderBook.t).

(** The books gathered cover the siblings. *)
Lemma gatherBooks_covers siblings : ∀ books0 books,
  gatherBooks cfg ctx now trigger triggerBook siblings books0 = Books books →
  (∀ tok, is_Some (books0 !! tok) → is_Some (books !! tok))
  ∧ ∀ tok, tok ∈ siblings → is_Some (books !! tok).
Proof.
  induction siblings as [|sib rest IH]; intros books0 books; cbn [gatherBooks].
  - intros [= <-]. split; [done|]. by intros tok ?%elem_of_nil.
  - destruct (if decide (sib = trigger) then Some triggerBook
              else orderBooks ctx !! sib) as [book|]; [|done].
    case_decide; [done|]. intros (Hkeep & Hin)%IH. split.
    + intros tok Htok. apply Hkeep.
      destruct (decide (tok = sib)) as [->|Hne].
      * by rewrite lookup_insert_eq.
      * by rewrite lookup_insert_ne.
    + intros tok [->|?]%elem_of_cons; [|by apply Hin].
      apply Hkeep. by rewrite lookup_insert_eq.
Qed.

(** With a book for every token, the scan does not miss one, and it
    records a price for every token. *)
Lemma scanAsks_covered books tokenIds : ∀ askSum prices sizes,
  (∀ tok, tok ∈ tokenIds → is_Some (books !! tok)) →
  scanAsks books tokenIds askSum prices sizes ≠ NoSuchBook
  ∧ ∀ askSum' prices' sizes',
      scanAsks books tokenIds askSum prices sizes
      = Asks askSum' prices' sizes' →
      (∀ tok, is_Some (prices !! tok) → is_Some (prices' !! tok))
      ∧ ∀ tok, tok ∈ tokenIds → is_Some (prices' !! tok).
Proof.
  induction tokenIds as [|t rest IH]; intros askSum prices sizes Hbooks;
    cbn [scanAsks].
  - split; [done|]. intros ??? [= <- <- <-]. split; [done|].
    by intros tok ?%elem_of_nil.
  - destruct (Hbooks t) as [book Hbook]; [apply elem_of_cons; by left|].
    rewrite Hbook. destruct (OrderBook.asks book) as [|best more].
    + split; [done|]. by intros.
    + destruct (IH (askSum + PriceLevel.price best)
                  (<[t := PriceLevel.price best]> prices)
                  (<[t := PriceLevel.size best]> sizes)) as [Hne Hres].
      { intros tok Htok. apply Hbooks. apply elem_of_cons. by right. }
      split; [done|]. intros askSum' prices' sizes' Hscan.
      destruct (Hres _ _ _ Hscan) as [Hkeep Hin]. split.
      * intros tok Htok. apply Hkeep.
        destruct (decide (tok = t)) as [->|Hne'].
        -- by rewrite lookup_insert_eq.
        -- by rewrite lookup_insert_ne.
      * intros tok [->|?]%elem_of_cons; [|by apply Hin].
        apply Hkeep. by rewrite lookup_insert_eq.
Qed.

(** The simple-arbitrage check returns, and what it returns. *)
Lemma checkSimpleArb_result group books :
  (∀ tok, tok ∈ MarketGroup.tokenIds group → is_Some (books !! tok)) →
  ∃ signals,
    checkSimpleArb B cfg ctx group books = Some signals
    ∧ (signals = [] ∨ length signals = length (MarketGroup.tokenIds group))
    ∧ Forall (withinCapacity cfg ctx group) signals
    ∧ (minEdge cfg > 0 →
       Forall (λ s, TradeSignal.confidence s = 1) signals).
Proof.
  intros Hbooks. unfold checkSimpleArb.
  destruct (scanAsks_covered books (MarketGroup.tokenIds group) 0 ∅ ∅ Hbooks)
    as [Hne Hres].
  destruct (scanAsks books (MarketGroup.tokenIds group) 0 ∅ ∅)
    as [| |askSum prices sizes]; [done| |].
  { exists []. split_and!; [done|by left|constructor|by constructor]. }
  destruct (Hres _ _ _ eq_refl) as [_ Hprices].
  case_decide as Hedge.
  { exists []. split_and!; [done|by left|constructor|by constructor]. }
  case_decide as Hsize.
  { exists []. split_and!; [done|by left|constructor|by constructor]. }
  set (size := capByPositions cfg ctx (MarketGroup.tokenIds group) _) in *.
  set (f := λ tokenId : string, _).
  assert (Hcap : ∀ tok, tok ∈ MarketGroup.tokenIds group →
                        currentSizeOf ctx tok + size <= maxPositionSize cfg).
  { intros tok Htok. unfold size. rewrite capByPositions_spec.
    assert (Hin : remainingCapacity cfg ctx tok
                  ∈ remainingCapacity cfg ctx <$> MarketGroup.tokenIds group).
    { apply list_elem_of_fmap. by exists tok. }
    pose proof (Rmin_list_le_elem
                  (Math_min_with_inf (orderSize cfg)
                     (Math_min_spread (map_to_list sizes).*2)) _ _ Hin) as Hle.
    assert (Hrem : remainingCapacity cfg ctx tok
                   = maxPositionSize cfg - currentSizeOf ctx tok) by done.
    rewrite Hrem in Hle. lra. }
  destruct (mapM f (MarketGroup.tokenIds group)) as [signals|] eqn:Hmap.
  2:{ apply mapM_None_1, List.Exists_exists in Hmap as (tok & Htok & Hnone).
      apply list_elem_of_In in Htok. destruct (Hprices tok Htok) as [p Hp].
      unfold f in Hnone. by rewrite Hp in Hnone. }
  exists signals. split; [done|].
  pose proof (length_mapM _ _ _ Hmap) as Hlen.
  apply mapM_Some_1 in Hmap.
  assert (Hall : Forall (λ s, TradeSignal.tokenId s ∈ MarketGroup.tokenIds group
                              ∧ TradeSignal.side s = BUY
                              ∧ TradeSignal.size s = size
                              ∧ TradeSignal.confidence s
                                = Math_min_inf
                                    (Number_div
                                       (1 - askSum * (1 + feeRate cfg))
                                       (minEdge cfg)) 1) signals).
  { apply Forall_forall. intros s [i Hi]%list_elem_of_lookup_1.
    destruct (Forall2_lookup_r _ _ _ _ _ Hmap Hi) as (tok & Htok & Hf).
    apply list_elem_of_lookup_2 in Htok.
    unfold f in Hf. destruct (prices !! tok); [|done].
    by injection Hf as <-. }
  split_and!.
  - right. done.
  - eapply Forall_impl; [exact Hall|]. intros s (Htok & Hside & Hsz & Hconf).
    unfold withinCapacity. rewrite Hsz, Hconf.
    split_and!; [done|lra|done|by apply Hcap|apply Math_min_inf_le].
  - intros Hmin. eapply Forall_impl; [exact Hall|].
    intros s (_ & _ & _ & ->). rewrite Math_min_div_finite by lra.
    apply Rmin_right.
    apply Rnot_lt_le in Hedge.
    apply (Rmult_le_reg_r (minEdge cfg)); [lra|].
    unfold Rdiv. rewrite Rmult_assoc, Rinv_l by lra. lra.
Qed.

(** The Bregman check returns, and what it returns. *)
Lemma checkBregmanArb_result group books :
  (∀ tok, tok ∈ MarketGroup.tokenIds group → is_Some (books !! tok)) →
  ∃ signals,
    checkBregmanArb B cfg ctx group books = Some signals
    ∧ (length signals ≤ 1)%nat
    ∧ Forall (withinCapacity cfg ctx group) signals
    ∧ (divergenceThreshold cfg > 0 →
       Forall (λ s, 1 / 2 <= TradeSignal.confidence s) signals).
Proof.
  intros Hbooks. unfold checkBregmanArb.
  assert (Hnone : ∃ signals : list TradeSignal.t,
            Some [] = Some signals
            ∧ (length signals ≤ 1)%nat
            ∧ Forall (withinCapacity cfg ctx group) signals
            ∧ (divergenceThreshold cfg > 0 →
               Forall (λ s, 1 / 2 <= TradeSignal.confidence s) signals)).
  { exists []. split_and!; [done|cbn; lia|constructor|by constructor]. }
  rewrite (mapM_total _ (λ id, default 0 (OrderBook.midPrice <$> books !! id))).
  2:{ intros tok Htok. by destruct (Hbooks tok Htok) as [book ->]. }
  cbn [mbind option_bind].
  set (mids := (λ id, default 0 (OrderBook.midPrice <$> books !! id))
                 <$> MarketGroup.tokenIds group).
  set (priceSum := fold_left Rplus mids 0).
  set (probs := (λ p, p / priceSum) <$> mids).
  destruct (decide (priceSum = 0)) as [|Hsum]; [done|].
  destruct (klLoop _ probs 0) as [klDiv|]; [|done].
  destruct (decide (klDiv < divergenceThreshold cfg)) as [|Hkl]; [done|].
  assert (Hprobs : probs ≠ []).
  { unfold probs. intros Hnil. apply fmap_nil_inv in Hnil.
    apply Hsum. unfold priceSum. by rewrite Hnil. }
  destruct (findMinProbIdx_spec probs Hprobs) as [Hidx _].
  assert (Hlen : length probs = length (MarketGroup.tokenIds group)).
  { unfold probs, mids. by rewrite !length_fmap. }
  destruct (MarketGroup.tokenIds group !! findMinProbIdx probs)
    as [target|] eqn:Etarget.
  2:{ apply lookup_ge_None in Etarget. lia. }
  cbn [mbind option_bind].
  assert (Htarget : target ∈ MarketGroup.tokenIds group)
    by (by eapply list_elem_of_lookup_2).
  destruct (Hbooks target Htarget) as [book Hbook]. rewrite Hbook.
  cbn [mbind option_bind].
  destruct (decide (currentSizeOf ctx target >= maxPositionSize cfg));
    [done|].
  destruct (decide (_ <= 0)) as [|Hsize]; [done|].
  eexists. split; [done|]. split_and!.
  - cbn. lia.
  - apply List.Forall_cons; [|constructor]. unfold withinCapacity.
    cbn [TradeSignal.side TradeSignal.size TradeSignal.tokenId
         TradeSignal.confidence].
    split_and!; [done|lra|done| |apply Math_min_inf_le].
    unfold Math_min3.
    match goal with
    | |- _ + Rmin ?a ?c <= _ => pose proof (Rmin_r a c)
    end. lra.
  - intros Hthr. apply List.Forall_cons; [|constructor].
    cbn [TradeSignal.confidence].
    rewrite Math_min_div_finite by lra. apply Rmin_glb; [|lra].
    apply (Rmult_le_reg_r (divergenceThreshold cfg * 2)); [lra|].
    unfold Rdiv at 2. rewrite Rmult_assoc, Rinv_l by lra. lra.
Qed.

End EveryEvaluation.


Section EvaluateOutcome.
Import BregmanArb ArbSpec SignalSpec.

(** [evaluate] returns on every input; what it returns and what it
    counts. *)
Lemma evaluate_outcome B ctx now st trigger triggerBook :
  ∃ signals st',
    evaluate B ctx now st trigger triggerBook = Some (signals, st')
    ∧ (enabled st' = enabled st ∧ config st' = config st
       ∧ marketGroups st' = marketGroups st
       ∧ tokenToGroup st' = tokenToGroup st)
    ∧ evaluations (stats st') = S (evaluations (stats st))
    ∧ ((signals = []
        ∧ signalCount (stats st') = signalCount (stats st)
        ∧ silentCount (stats st')
          = (silentCount (stats st) + if enabled st then 1 else 0)%nat)
       ∨ (signals ≠ [] ∧ enabled st = true
          ∧ silentCount (stats st') = silentCount (stats st)
          ∧ signalCount (stats st')
            = (signalCount (stats st) + length signals)%nat))
    ∧ Forall (λ s, ∃ group, tokenToGroup st !! trigger = Some group
                            ∧ withinCapacity (config st) ctx group s) signals
    ∧ (minEdge (config st) > 0 → divergenceThreshold (config st) > 0 →
       Forall (λ s, 1 / 2 <= TradeSignal.confidence s) signals).
Proof.
  unfold evaluate, silentCount, signalCount.
  destruct (enabled st) eqn:Hen; cbn [negb].
  2:{ eexists _, _. split; [done|]. cbn. rewrite Hen.
      split_and!; [done..| |constructor|by constructor].
      left. split_and!; [done|done|lia]. }
  destruct (tokenToGroup st !! trigger) as [group|] eqn:Hgroup.
  2:{ eexists _, _. split; [done|]. cbn. rewrite Hen.
      split_and!; [done..| |constructor|by constructor].
      left. split_and!; [done|done|lia]. }
  destruct (gatherBooks _ _ _ _ _ _ _) as [sib|sib|books] eqn:Hgather.
  1,2: eexists _, _; (split; [done|]); cbn; rewrite Hen;
       (split_and!; [done..| |constructor|by constructor]);
       left; (split_and!; [done|done|lia]).
  apply gatherBooks_covers in Hgather as [_ Hbooks].
  destruct (checkSimpleArb_result B (config st) ctx group books Hbooks)
    as (simple & -> & _ & Hsafe & Hconf).
  cbn [mbind option_bind].
  destruct (decide (0 < length simple)%nat) as [Hlen|Hlen].
  { eexists _, _. split; [done|]. cbn. rewrite Hen.
    split_and!; [done..| | |].
    - right. split_and!; [|done|lia|lia]. intros ->. cbn in Hlen. lia.
    - eapply Forall_impl; [exact Hsafe|]. intros s Hs. by exists group.
    - intros Hmin _. eapply Forall_impl; [exact (Hconf Hmin)|].
      intros s ->. lra. }
  destruct (checkBregmanArb_result B (config st) ctx group books Hbooks)
    as (bregman & -> & _ & Hsafe' & Hconf').
  cbn [mbind option_bind].
  destruct (decide (0 < length bregman)%nat) as [Hlen'|Hlen'].
  { eexists _, _. split; [done|]. cbn. rewrite Hen.
    split_and!; [done..| | |].
    - right. split_and!; [|done|lia|lia]. intros ->. cbn in Hlen'. lia.
    - eapply Forall_impl; [exact Hsafe'|]. intros s Hs. by exists group.
    - intros _ Hthr. by apply Hconf'. }
  eexists _, _. split; [done|]. cbn. rewrite Hen.
  assert (bregman = []) as -> by (destruct bregman; [done|cbn in Hlen'; lia]).
  split_and!; [done..| |constructor|by constructor].
  left. split_and!; [done|done|lia].
Qed.

(** X22. [evaluate] returns a result for every token, book, context and
    strategy state: none of its reads of a gathered book or of a
    recorded price meets a missing entry.  It leaves the
    configuration, the groups, the token index and the enabled flag as
    they are, counts the evaluation, and accounts for it once: either
    it returns no signal and (when enabled) exactly one of the skip or
    no-arbitrage counters goes up by one, or it returns signals and
    the signal counters go up by their number. *)
Theorem every_evaluation_is_counted B ctx now st trigger triggerBook :
  ∃ signals st',
    evaluate B ctx now st trigger triggerBook = Some (signals, st')
    ∧ (enabled st' = enabled st ∧ config st' = config st
       ∧ marketGroups st' = marketGroups st
       ∧ tokenToGroup st' = tokenToGroup st)
    ∧ evaluations (stats st') = S (evaluations (stats st))
    ∧ ((signals = []
        ∧ signalCount (stats st') = signalCount (stats st)
        ∧ silentCount (stats st')
          = (silentCount (stats st) + if enabled st then 1 else 0)%nat)
       ∨ (signals ≠ [] ∧ enabled st = true
          ∧ silentCount (stats st') = silentCount (stats st)
          ∧ signalCount (stats st')
            = (signalCount (stats st) + length signals)%nat)).
Proof.
  destruct (evaluate_outcome B ctx now st trigger triggerBook)
    as (signals & st' & H1 & H2 & H3 & H4 & _).
  by exists signals, st'.
Qed.



Lemma indexGroup_lookup group tok : ∀ idx,
  indexGroup idx group !! tok
  = if decide (tok ∈ MarketGroup.tokenIds group) then Some group
    else idx !! tok.
Proof.
  unfold indexGroup.
  induction (MarketGroup.tokenIds group) as [|t toks IH]; intros idx;
    cbn [fold_left].
  - rewrite decide_False; [done|]. apply not_elem_of_nil.
  - rewrite IH. destruct (decide (tok ∈ toks)) as [Hin|Hnot].
    + rewrite decide_True; [done|]. apply elem_of_cons. by right.
    + destruct (decide (tok = t)) as [->|Hne].
      * rewrite lookup_insert_eq.
        rewrite decide_True; [done|]. apply elem_of_cons. by left.
      * rewrite lookup_insert_ne by done. rewrite decide_False; [done|].
        intros [?|?]%elem_of_cons; done.
Qed.

Lemma indexGroups_lookup groups tok : ∀ idx,
  fold_left indexGroup groups idx !! tok
  = match groupOf groups tok with
    | Some group => Some group
    | None => idx !! tok
    end.
Proof.
  unfold groupOf.
  induction groups as [|g groups IH]; intros idx; cbn [fold_left]; [done|].
  rewrite IH, indexGroup_lookup.
  destruct (decide (tok ∈ MarketGroup.tokenIds g)) as [Hin|Hnot].
  - rewrite filter_cons_True by done. rewrite last_cons.
    by destruct (last _).
  - by rewrite filter_cons_False by done.
Qed.

(** X24. The token index sends a token to the last group of the list
    that names it, and knows no token that no group names.  The index
    built by [updateMarketGroups] is that of the new list alone:
    nothing of the groups it replaces is left. *)
Theorem index_takes_the_last_group groups cfg st tok :
  tokenToGroup (create groups cfg) !! tok = groupOf groups tok
  ∧ tokenToGroup (updateMarketGroups st groups) !! tok = groupOf groups tok
  ∧ marketGroups (updateMarketGroups st groups) = groups
  ∧ stats (updateMarketGroups st groups) = stats st.
Proof.
  cbn [create updateMarketGroups tokenToGroup marketGroups stats].
  unfold indexGroups. rewrite indexGroups_lookup, lookup_empty.
  split_and!; try done; by destruct (groupOf groups tok).
Qed.

End EvaluateOutcome.

(* ===================================================================== *)
(** * Strategy: the divergence the Bregman check computes                 *)
(* ===================================================================== *)

Section Divergence.
Import BregmanArb ArbSpec.

Lemma klLoop_Some u probs : ∀ acc klDiv,
  klLoop u probs acc = Some klDiv →
  (∀ q, q ∈ probs → q > 0)
  ∧ klDiv = acc + Rsum ((λ q, u * ln (u / q)) <$> probs).
Proof.
  induction probs as [|q rest IH]; intros acc klDiv; cbn [klLoop].
  - intros [= <-]. split; [by intros q ?%elem_of_nil|].
    unfold Rsum. cbn. lra.
  - case_decide as Hq; [done|]. intros [Hpos ->]%IH. split.
    + intros q' [->|?]%elem_of_cons; [lra|by apply Hpos].
    + rewrite fmap_cons, Rsum_cons. lra.
Qed.

Lemma ln_le_minus_1 x : 0 < x → ln x <= x - 1.
Proof.
  intros Hx. pose proof (exp_ineq1_le (ln x)) as H.
  rewrite exp_ln in H by done. lra.
Qed.

Lemma uniform_term_lower u q : 0 < u → 0 < q → u - q <= u * ln (u / q).
Proof.
  intros Hu Hq.
  assert (Hinv : u / q = / (q / u)).
  { unfold Rdiv. rewrite Rinv_mult, Rinv_inv. lra. }
  assert (Hpos : 0 < q / u) by (by apply Rdiv_lt_0_compat).
  rewrite Hinv, ln_Rinv by done.
  pose proof (ln_le_minus_1 (q / u) Hpos) as Hln.
  assert (Hmul : u * ln (q / u) <= u * (q / u - 1))
    by (apply Rmult_le_compat_l; lra).
  replace (u * (q / u - 1)) with (q - u) in Hmul by (field; lra).
  lra.
Qed.

Lemma Rsum_uniform_terms u (probs : list R) :
  0 < u → (∀ q, q ∈ probs → q > 0) →
  INR (length probs) * u - Rsum probs
  <= Rsum ((λ q, u * ln (u / q)) <$> probs).
Proof.
  intros Hu. induction probs as [|q rest IH]; intros Hpos.
  - unfold Rsum. cbn. lra.
  - rewrite fmap_cons, !Rsum_cons.
    change (length (q :: rest)) with (S (length rest)). rewrite S_INR.
    assert (Hq : q > 0) by (apply Hpos, elem_of_cons; by left).
    pose proof (uniform_term_lower u q Hu Hq).
    assert (Hrest : ∀ q', q' ∈ rest → q' > 0)
      by (intros q' ?; apply Hpos, elem_of_cons; by right).
    specialize (IH Hrest). lra.
Qed.

Lemma Rsum_scaled (l : list R) c : Rsum ((λ p, p / c) <$> l) = Rsum l / c.
Proof.
  induction l as [|x l IH].
  - unfold Rsum. cbn. lra.
  - rewrite fmap_cons, !Rsum_cons, IH. lra.
Qed.

Lemma Rsum_constant (l : list R) p :
  (∀ x, x ∈ l → x = p) → Rsum l = INR (length l) * p.
Proof.
  induction l as [|x l IH]; intros Hl.
  - unfold Rsum. cbn. lra.
  - rewrite Rsum_cons. change (length (x :: l)) with (S (length l)).
    rewrite S_INR, (Hl x) by (apply elem_of_cons; by left).
    rewrite IH; [lra|]. intros y ?. apply Hl, elem_of_cons. by right.
Qed.

(** X25. The divergence that the Bregman check computes from the mid
    prices (the sum of u * ln (u / q_i) over the implied probabilities
    q_i = mid_i / sum of mids, with u = 1 / n) is never negative, and
    it is zero when all the mid prices are equal: such a market passes
    no positive threshold. *)
Theorem divergence_is_never_negative (midPrices : list R) klDiv :
  let priceSum := fold_left Rplus midPrices 0 in
  let impliedProbs := (λ p, p / priceSum) <$> midPrices in
  priceSum ≠ 0 →
  klLoop (1 / INR (length midPrices)) impliedProbs 0 = Some klDiv →
  klDiv >= 0
  ∧ ((∀ p q, p ∈ midPrices → q ∈ midPrices → p = q) → klDiv = 0).
Proof.
  intros priceSum impliedProbs Hsum [Hpos ->]%klLoop_Some.
  assert (Hn : (0 < length midPrices)%nat).
  { destruct midPrices; [|cbn; lia]. by destruct Hsum. }
  assert (Hnr : 0 < INR (length midPrices)) by (by apply lt_0_INR).
  assert (Hu : 0 < 1 / INR (length midPrices))
    by (apply Rdiv_lt_0_compat; lra).
  assert (Hone : Rsum impliedProbs = 1).
  { unfold impliedProbs. rewrite Rsum_scaled.
    unfold priceSum in *. rewrite fold_left_Rplus in *.
    field. lra. }
  split.
  - pose proof (Rsum_uniform_terms _ impliedProbs Hu Hpos) as Hle.
    rewrite Hone in Hle. unfold impliedProbs in Hle at 1.
    rewrite length_fmap in Hle.
    replace (INR (length midPrices) * (1 / INR (length midPrices))) with 1
      in Hle by (field; lra).
    lra.
  - intros Hsame.
    assert (Hzero : ∀ q, q ∈ impliedProbs →
              1 / INR (length midPrices)
              * ln (1 / INR (length midPrices) / q) = 0).
    { intros q (p & -> & Hp)%list_elem_of_fmap.
      assert (Hall : priceSum = INR (length midPrices) * p).
      { unfold priceSum. rewrite fold_left_Rplus, Rplus_0_l.
        apply Rsum_constant. intros x Hx. by apply Hsame. }
      assert (Hp0 : p ≠ 0).
      { intros ->. rewrite Rmult_0_r in Hall. done. }
      replace (1 / INR (length midPrices) / (p / priceSum)) with 1.
      - rewrite ln_1. lra.
      - rewrite Hall. field. split; lra. }
    assert (Hsumzero : ∀ l : list R,
              (∀ q, q ∈ l → 1 / INR (length midPrices)
                              * ln (1 / INR (length midPrices) / q) = 0) →
              Rsum ((λ q, 1 / INR (length midPrices)
                          * ln (1 / INR (length midPrices) / q)) <$> l) = 0).
    { induction l as [|q l IH]; intros Hl.
      - done.
      - rewrite fmap_cons, Rsum_cons.
        rewrite (Hl q) by (apply elem_of_cons; by left).
        rewrite IH; [lra|]. intros q' ?. apply Hl, elem_of_cons. by right. }
    rewrite (Hsumzero impliedProbs Hzero). lra.
Qed.

Lemma divergence_is_never_negative_witness :
  ∃ klDiv,
    klLoop (1 / INR 2) ((λ p, p / (0 + 0.8 + 0.2)) <$> [0.8; 0.2]) 0
    = Some klDiv
    ∧ klDiv >= 0.
Proof.
  destruct (klLoop (1 / INR 2) ((λ p, p / (0 + 0.8 + 0.2)) <$> [0.8; 0.2]) 0)
    as [klDiv|] eqn:E.
  - exists klDiv. split; [done|].
    apply (divergence_is_never_negative [0.8; 0.2] klDiv); [cbn; lra|exact E].
  - exfalso. cbn in E. rewrite !decide_False in E by lra. done.
Defined.

End Divergence.

(* ===================================================================== *)
(** * Base strategy: the metrics after recording PnLs                     *)
(* ===================================================================== *)

Section Metrics.
Import BaseStrategy MetricsSpec ArbSpec.

Lemma Rsum_app (l l' : list R) : Rsum (l ++ l') = Rsum l + Rsum l'.
Proof.
  induction l as [|x l IH]; cbn [app].
  - unfold Rsum at 2. cbn [foldr]. lra.
  - rewrite !Rsum_cons, IH. lra.
Qed.

Lemma replay_snoc pnls pnl :
  replay (pnls ++ [pnl]) = recordPnl (replay pnls) pnl.
Proof. unfold replay. by rewrite fold_left_app. Qed.

Lemma recordPnl_fields st pnl :
  let st' := recordPnl st pnl in
  let total := totalPnl (metrics st) + pnl in
  let peak := if decide (total > peakPnl st) then total else peakPnl st in
  enabled st' = enabled st
  ∧ pnlHistory st' = pnlHistory st ++ [pnl]
  ∧ peakPnl st' = peak
  ∧ totalTrades (metrics st') = totalTrades (metrics st)
  ∧ totalPnl (metrics st') = total
  ∧ winningTrades (metrics st')
    = (if decide (pnl > 0) then S (winningTrades (metrics st))
       else winningTrades (metrics st))
  ∧ losingTrades (metrics st')
    = (if decide (pnl < 0) then S (losingTrades (metrics st))
       else losingTrades (metrics st))
  ∧ maxDrawdown (metrics st')
    = (if decide (peak - total > maxDrawdown (metrics st))
       then peak - total else maxDrawdown (metrics st)).
Proof.
  unfold recordPnl, updateSharpe.
  cbn [pnlHistory metrics enabled peakPnl totalTrades winningTrades
       losingTrades totalPnl sharpeRatio maxDrawdown].
  destruct (decide (length (pnlHistory st ++ [pnl]) < 2)%nat);
    cbn [pnlHistory metrics enabled peakPnl totalTrades winningTrades
         losingTrades totalPnl sharpeRatio maxDrawdown];
    (split_and!; try done; repeat case_decide; first [done|lra]).
Qed.

Lemma recordPnl_sharpe st pnl :
  let st' := recordPnl st pnl in
  let history := pnlHistory st ++ [pnl] in
  (length history < 2)%nat
  ∧ sharpeRatio (metrics st') = sharpeRatio (metrics st)
  ∨ (2 ≤ length history)%nat
    ∧ (sharpeRatio (metrics st') = 0
       ∨ ∃ stdDev, stdDev > 0
           ∧ sharpeRatio (metrics st')
             = Rsum history / INR (length history) / stdDev).
Proof.
  unfold recordPnl, updateSharpe.
  cbn [pnlHistory metrics enabled peakPnl totalTrades winningTrades
       losingTrades totalPnl sharpeRatio maxDrawdown].
  case_decide as Hlen; [by left|]. right. split; [lia|].
  cbn [metrics sharpeRatio].
  case_decide as Hstd; [|by left]. right. eexists. split; [exact Hstd|].
  change (fold_left (λ a b : R, a + b) (pnlHistory st ++ [pnl]) 0)
    with (fold_left Rplus (pnlHistory st ++ [pnl]) 0).
  rewrite fold_left_Rplus. by rewrite Rplus_0_l.
Qed.

(** X26. After a newly constructed strategy has recorded any list of
    PnLs: the history is that list and the total PnL its sum; the
    winning and losing counts are the numbers of positive and negative
    entries (a zero PnL counts as neither) and the trade count is
    untouched; the peak is at least zero and at least the total; the
    maximum drawdown is at least zero and at least the current
    drawdown peak - total; the Sharpe ratio stays zero until two PnLs
    are recorded and never has the sign opposite to the total PnL. *)
Theorem recorded_pnl_metrics pnls :
  let st := replay pnls in
  let m := metrics st in
  enabled st = true
  ∧ pnlHistory st = pnls
  ∧ totalTrades m = 0%nat
  ∧ totalPnl m = Rsum pnls
  ∧ winningTrades m = length (filter (λ p, p > 0) pnls)
  ∧ losingTrades m = length (filter (λ p, p < 0) pnls)
  ∧ 0 <= peakPnl st ∧ totalPnl m <= peakPnl st
  ∧ 0 <= maxDrawdown m ∧ peakPnl st - totalPnl m <= maxDrawdown m
  ∧ ((length pnls < 2)%nat → sharpeRatio m = 0)
  ∧ 0 <= sharpeRatio m * totalPnl m.
Proof.
  induction pnls as [|pnl pnls IH] using rev_ind.
  - cbn. split_and!; first [done|lra].
  - cbv zeta in IH.
    destruct IH as (Hen & Hhist & Htrades & Htotal & Hwin & Hlose & Hpeak0
                    & Hpeak & Hdd0 & Hdd & Hsharpe0 & Hsharpe).
    rewrite replay_snoc.
    pose proof (recordPnl_fields (replay pnls) pnl) as Hf.
    cbv zeta in Hf.
    destruct Hf as (Hen' & Hhist' & Hpeak' & Htrades' & Htotal' & Hwin'
                    & Hlose' & Hdd').
    assert (Hsum : Rsum (pnls ++ [pnl]) = Rsum pnls + pnl).
    { rewrite Rsum_app. unfold Rsum at 2. cbn [foldr]. lra. }
    cbv zeta. split_and!.
    + congruence.
    + by rewrite Hhist', Hhist.
    + congruence.
    + rewrite Htotal', Htotal, Hsum. lra.
    + rewrite Hwin', Hwin, filter_app, length_app.
      destruct (decide (pnl > 0)) as [Hp|Hp].
      * rewrite filter_cons_True by exact Hp. cbn. lia.
      * rewrite filter_cons_False by exact Hp. cbn. lia.
    + rewrite Hlose', Hlose, filter_app, length_app.
      destruct (decide (pnl < 0)) as [Hp|Hp].
      * rewrite filter_cons_True by exact Hp. cbn. lia.
      * rewrite filter_cons_False by exact Hp. cbn. lia.
    + rewrite Hpeak'. clear -Hpeak0. case_decide; lra.
    + rewrite Hpeak', Htotal'. clear. case_decide; lra.
    + rewrite Hdd'. clear -Hdd0. repeat case_decide; lra.
    + rewrite Hpeak', Htotal', Hdd'. clear. repeat case_decide; lra.
    + rewrite length_app. cbn [length]. intros Hlen.
      destruct (recordPnl_sharpe (replay pnls) pnl) as [[_ ->]|[Hge _]].
      * apply Hsharpe0. lia.
      * rewrite Hhist, length_app in Hge. cbn [length] in Hge. lia.
    + rewrite Htotal', Htotal.
      destruct (recordPnl_sharpe (replay pnls) pnl)
        as [[Hlt ->]|[Hge [->|(stdDev & Hstd & ->)]]].
      * rewrite Hhist, length_app in Hlt. cbn [length] in Hlt.
        rewrite Hsharpe0 by lia. lra.
      * lra.
      * rewrite Hhist, Hsum.
        assert (Hn : 0 < INR (length (pnls ++ [pnl]))).
        { apply lt_0_INR. rewrite length_app. cbn. lia. }
        set (n := INR (length (pnls ++ [pnl]))) in *.
        set (total := Rsum pnls + pnl).
        replace (total / n / stdDev * total)
          with ((total * total) * (/ n * / stdDev)) by (field; lra).
        apply Rmult_le_pos; [nra|].
        apply Rmult_le_pos; left; by apply Rinv_0_lt_compat.
Qed.

End Metrics.

(* ===================================================================== *)
(** * Market data: subscriptions and the order-book cache                 *)
(* ===================================================================== *)

Section MarketDataCache.
Import MarketData MarketDataSpec.

Lemma settle_fold fetch l : ∀ acc,
  subscriptions (fold_left (settle fetch) l acc).1 = subscriptions acc.1
  ∧ (∀ tok, orderBooks (fold_left (settle fetch) l acc).1 !! tok
            = if decide (tok ∈ l)
              then match fetch tok with
                   | Some book => Some book
                   | None => orderBooks acc.1 !! tok
                   end
              else orderBooks acc.1 !! tok)
  ∧ (fold_left (settle fetch) l acc).2 = acc.2 ++ omap (answered fetch) l.
Proof.
  induction l as [|t l IH]; intros acc; cbn [fold_left].
  - split_and!; [done| |by rewrite app_nil_r].
    intros tok. rewrite decide_False; [done|]. apply not_elem_of_nil.
  - destruct (IH (settle fetch acc t)) as (Hs & Hb & Ha).
    rewrite Hs, Ha. setoid_rewrite Hb. clear IH Hs Hb Ha.
    unfold settle, answered. cbn [omap list_omap].
    destruct (fetch t) as [book|] eqn:Ht; cbn [fst snd subscriptions
      orderBooks fmap option_fmap option_map].
    + split_and!; [done| |by rewrite <- app_assoc].
      intros tok. destruct (decide (tok ∈ l)) as [Hin|Hnot].
      * rewrite decide_True by (apply elem_of_cons; by right).
        destruct (fetch tok) eqn:Htok; [done|].
        destruct (decide (tok = t)) as [->|Hne]; [congruence|].
        by rewrite lookup_insert_ne.
      * destruct (decide (tok = t)) as [->|Hne].
        -- rewrite decide_True by (apply elem_of_cons; by left).
           by rewrite lookup_insert_eq, Ht.
        -- rewrite lookup_insert_ne by done. rewrite decide_False; [done|].
           intros [?|?]%elem_of_cons; done.
    + split_and!; [done| |done].
      intros tok. destruct (decide (tok ∈ l)) as [Hin|Hnot].
      * by rewrite decide_True by (apply elem_of_cons; by right).
      * destruct (decide (tok = t)) as [->|Hne].
        -- rewrite decide_True by (apply elem_of_cons; by left).
           by rewrite Ht.
        -- rewrite decide_False; [done|].
           intros [?|?]%elem_of_cons; done.
Qed.

(** X27. In whatever order the requests of a poll settle, afterwards
    the cache holds, for every subscribed token the exchange answered
    for, the book it answered with, and for every other token what it
    held before; each answer is announced once with
    [orderbook_update], carrying the book that is then cached; a
    failed request announces nothing; the subscriptions are as they
    were. *)
Theorem poll_caches_what_it_announces fetch settleOrder md :
  settleOrder (subscriptions md) ≡ₚ subscriptions md →
  let out := poll fetch settleOrder md in
  subscriptions out.1 = subscriptions md
  ∧ (∀ tok, getOrderBook out.1 tok
            = if decide (tok ∈ subscriptions md)
              then match fetch tok with
                   | Some book => Some book
                   | None => getOrderBook md tok
                   end
              else getOrderBook md tok)
  ∧ out.2 ≡ₚ omap (answered fetch) (subscriptions md)
  ∧ Forall (λ update, getOrderBook out.1 update.1 = Some update.2) out.2.
Proof.
  intros Hperm out. subst out. unfold poll, getOrderBook.
  destruct (decide (length (subscriptions md) = 0%nat)) as [Hnil|_].
  { apply nil_length_inv in Hnil. rewrite Hnil. cbn [fst snd omap list_omap].
    split_and!; [done| |done|constructor].
    intros tok. rewrite decide_False; [done|]. apply not_elem_of_nil. }
  destruct (settle_fold fetch (settleOrder (subscriptions md)) (md, []))
    as (Hs & Hb & Ha).
  cbn [fst snd app] in *.
  assert (Hbooks : ∀ tok,
    orderBooks (fold_left (settle fetch) (settleOrder (subscriptions md))
                  (md, [])).1 !! tok
    = if decide (tok ∈ subscriptions md)
      then match fetch tok with
           | Some book => Some book
           | None => orderBooks md !! tok
           end
      else orderBooks md !! tok).
  { intros tok. rewrite Hb.
    destruct (decide (tok ∈ subscriptions md)) as [Hin|Hnot].
    - rewrite decide_True; [done|]. by rewrite Hperm.
    - rewrite decide_False; [done|]. by rewrite Hperm. }
  split_and!; [done|done|by rewrite Ha, Hperm|].
  rewrite Ha. apply Forall_forall.
  intros [tok book] (t & Ht & Hanswer)%list_elem_of_omap.
  unfold answered in Hanswer. destruct (fetch t) as [b|] eqn:Hfetch; [|done].
  injection Hanswer as <- <-. cbn [fst snd]. rewrite Hbooks.
  rewrite decide_True by (by rewrite <- Hperm). by rewrite Hfetch.
Qed.

Lemma poll_caches_what_it_announces_witness :
  getOrderBook (poll Scenario.fetchA reverse Scenario.twoTokens).1 "token-a"
  = Some Sample.bookA
  ∧ getOrderBook (poll Scenario.fetchA reverse Scenario.twoTokens).1 "token-b"
    = None.
Proof.
  destruct (poll_caches_what_it_announces Scenario.fetchA reverse
              Scenario.twoTokens) as (_ & H & _).
  - apply reverse_Permutation.
  - split; rewrite H; reflexivity.
Defined.

Lemma Set_add_fold ids : ∀ s tok,
  tok ∈ fold_left Set_add ids s ↔ tok ∈ s ∨ tok ∈ ids.
Proof.
  induction ids as [|i ids IH]; intros s tok; cbn [fold_left].
  - rewrite elem_of_nil. tauto.
  - rewrite IH, elem_of_cons. unfold Set_add. case_bool_decide as Hin.
    + split; [tauto|]. intros [?|[->|?]]; auto.
    + rewrite elem_of_app, list_elem_of_singleton. tauto.
Qed.

Lemma Set_add_fold_NoDup ids : ∀ s,
  NoDup s → NoDup (fold_left Set_add ids s).
Proof.
  induction ids as [|i ids IH]; intros s Hnd; cbn [fold_left]; [done|].
  apply IH. unfold Set_add. case_bool_decide as Hin; [done|].
  apply NoDup_app. split_and!; [done| |apply NoDup_singleton].
  by intros x Hx ->%list_elem_of_singleton.
Qed.

Lemma unsubscribe_fold ids : ∀ md tok,
  (tok ∈ subscriptions (unsubscribe md ids)
   ↔ tok ∈ subscriptions md ∧ tok ∉ ids)
  ∧ getOrderBook (unsubscribe md ids) tok
    = (if decide (tok ∈ ids) then None else getOrderBook md tok).
Proof.
  unfold unsubscribe, getOrderBook.
  induction ids as [|i ids IH]; intros md tok; cbn [fold_left].
  - split; [rewrite elem_of_nil; tauto|].
    rewrite decide_False; [done|]. apply not_elem_of_nil.
  - destruct (IH (mk (Set_delete (subscriptions md) i)
                     (delete i (orderBooks md))) tok) as [Hs Hb].
    rewrite Hs, Hb. cbn [subscriptions orderBooks]. unfold Set_delete.
    rewrite list_elem_of_filter, not_elem_of_cons. split; [tauto|].
    destruct (decide (tok ∈ ids)) as [Hin|Hnot].
    + rewrite decide_True; [done|]. apply elem_of_cons. by right.
    + destruct (decide (tok = i)) as [->|Hne].
      * rewrite lookup_delete_eq.
        rewrite decide_True; [done|]. apply elem_of_cons. by left.
      * rewrite lookup_delete_ne by done. rewrite decide_False; [done|].
        intros [?|?]%elem_of_cons; done.
Qed.

(** X28. Subscriptions are a set: after [subscribe] a token is
    subscribed exactly when it was before or is among the tokens given,
    none is held twice, and the cache is untouched; after
    [unsubscribe] the tokens given are no longer subscribed and their
    cached books are gone, so [getOrderBook] answers null for them,
    while the other tokens keep their subscription and their book. *)
Theorem subscriptions_and_cache md ids tok :
  (tok ∈ subscriptions (subscribe md ids)
   ↔ tok ∈ subscriptions md ∨ tok ∈ ids)
  ∧ (NoDup (subscriptions md) → NoDup (subscriptions (subscribe md ids)))
  ∧ getOrderBook (subscribe md ids) tok = getOrderBook md tok
  ∧ (tok ∈ subscriptions (unsubscribe md ids)
     ↔ tok ∈ subscriptions md ∧ tok ∉ ids)
  ∧ getOrderBook (unsubscribe md ids) tok
    = (if decide (tok ∈ ids) then None else getOrderBook md tok).
Proof.
  destruct (unsubscribe_fold ids md tok) as [Hs Hb].
  split_and!; [|apply Set_add_fold_NoDup|done|exact Hs|exact Hb].
  unfold subscribe. cbn [subscriptions]. apply Set_add_fold.
Qed.

End MarketDataCache.

(* ===================================================================== *)
(** * Engine: from signals to orders                                      *)
(* ===================================================================== *)

Section Engine.
Import TradingBot EngineSpec.

Lemma collectSignals_confident bot tok book :
  Forall (confidentSignal bot tok book)
    (collectSignals (strategies bot) tok book).
Proof.
  apply Forall_forall. intros signal. unfold collectSignals.
  intros (strategy & Hsig & Hin)%list_elem_of_bind.
  destruct (enabled strategy) eqn:Hen; [|by apply elem_of_nil in Hsig].
  destruct (evaluate strategy tok book) as [sigs|] eqn:Heval;
    [|by apply elem_of_nil in Hsig].
  apply list_elem_of_filter in Hsig as [Hconf Hsig].
  split; [done|]. by exists strategy, sigs.
Qed.

Lemma signalsAnnounced_app l l' :
  signalsAnnounced (l ++ l') = signalsAnnounced l ++ signalsAnnounced l'.
Proof. apply omap_app. Qed.

Lemma signalsAnnounced_services es :
  signalsAnnounced (ServiceEvent <$> es) = [].
Proof. induction es as [|e es IH]; [done|]. by cbn. Qed.

Lemma executeSignals_spec B clockAt dryRun client signals : ∀ i tr,
  let out := executeSignals B clockAt dryRun client i signals tr in
  signalsAnnounced (announced out)
  = signalsAnnounced (announced tr) ++ signals
  ∧ (∃ placed, placed `sublist_of` signals
       ∧ called out
         = called tr
           ++ (OrderManager.PlaceOrderCall <$> (orderOf <$> placed)))
  ∧ (dryRun = true →
     called out = called tr
     ∧ OrderManager.store (world out) = OrderManager.store (world tr)).
Proof.
  induction signals as [|signal signals IH]; intros i tr;
    cbn [executeSignals].
  - split_and!; [by rewrite app_nil_r| |done].
    exists []. split; [done|]. by rewrite app_nil_r.
  - destruct (IH (S i) (executeSignal B (clockAt i) dryRun client tr signal))
      as (Hann & (placed & Hsub & Hcalled) & Hdry).
    clear IH. cbv zeta.
    destruct (submitOrder_effects B (clockAt i) dryRun client (world tr)
                (orderOf signal)) as (Hc & _ & Hstore & _).
    set (tr1 := executeSignal B (clockAt i) dryRun client tr signal) in *.
    assert (Ha1 : signalsAnnounced (announced tr1)
                  = signalsAnnounced (announced tr) ++ [signal]).
    { unfold tr1, executeSignal. cbn [announced].
      rewrite !signalsAnnounced_app, signalsAnnounced_services.
      by rewrite app_nil_r. }
    assert (Hc1 : called tr1
                  = called tr
                    ++ (if RiskManager.allowed
                             (RiskManager.checkOrder B (clockAt i)
                                (OrderManager.riskManager (world tr))
                                (OrderManager.store (world tr))
                                (orderOf signal)).1.1
                           && negb dryRun
                        then [OrderManager.PlaceOrderCall (orderOf signal)]
                        else [])).
    { unfold tr1, executeSignal. cbn [called]. by rewrite Hc. }
    assert (Hs1 : dryRun = true →
                  OrderManager.store (world tr1)
                  = OrderManager.store (world tr)).
    { intros Hd. unfold tr1, executeSignal. cbn [world]. by apply Hstore. }
    split_and!.
    + rewrite Hann, Ha1. by rewrite <- app_assoc.
    + rewrite Hcalled, Hc1.
      destruct (RiskManager.allowed _ && negb dryRun).
      * exists (signal :: placed). split; [by constructor|].
        by rewrite <- app_assoc.
      * exists placed. split; [by constructor|]. by rewrite app_nil_r.
    + intros Hd. destruct (Hdry Hd) as [Hcalled' Hstore'].
      rewrite Hstore', Hs1 by done. split; [|done].
      rewrite Hcalled', Hc1, Hd, andb_false_r. by rewrite app_nil_r.
Qed.

(** X29. One run of [evaluateStrategies], taken on its own, announces
    with [strategy_signal], in order, exactly the signals of the
    enabled strategies whose confidence is above one half (none when
    the risk manager is halted, in which case nothing at all happens);
    the exchange is asked to place only orders made from those
    signals, each at most once and in their order, and nothing else;
    in dry-run mode it is not called and the store is left as it
    is. *)
Theorem engine_places_only_confident_signals
    B clockAt dryRun client bot w tok book :
  let signals := collectSignals (strategies bot) tok book in
  let tr := evaluateStrategies B clockAt dryRun client bot w tok book in
  Forall (confidentSignal bot tok book) signals
  ∧ (if RiskManager.isHalted (OrderManager.riskManager w)
     then tr = mkTrace w [] []
     else signalsAnnounced (announced tr) = signals)
  ∧ ordersPlaced (called tr) `sublist_of` (orderOf <$> signals)
  ∧ called tr = OrderManager.PlaceOrderCall <$> ordersPlaced (called tr)
  ∧ (if dryRun
     then called tr = []
          ∧ OrderManager.store (world tr) = OrderManager.store w
     else True).
Proof.
  intros signals tr. subst tr. unfold evaluateStrategies.
  assert (Hplaced : ∀ l : list OrderRequest.t,
            ordersPlaced (OrderManager.PlaceOrderCall <$> l) = l).
  { induction l as [|o l IH]; [done|]. rewrite fmap_cons.
    unfold ordersPlaced in *. cbn [omap list_omap]. by f_equal. }
  split; [apply collectSignals_confident|].
  destruct (RiskManager.isHalted (OrderManager.riskManager w)).
  { split_and!; [done|apply sublist_nil_l|done|by destruct dryRun]. }
  fold signals.
  destruct (executeSignals_spec B clockAt dryRun client signals 0
              (mkTrace w [] [])) as (Hann & (placed & Hsub & Hcalled) & Hdry).
  cbn [announced called world app] in *.
  rewrite Hcalled, Hplaced. split_and!; [done| |done|].
  - by apply fmap_sublist.
  - destruct dryRun; [|done]. destruct (Hdry eq_refl) as [Hc Hs].
    by rewrite <- Hcalled.
Qed.

(** The gate is strict: of the two signals of the sample strategy, the
    one with confidence 0.5 is dropped. *)
Example engine_drops_the_unsure_signal tok book :
  collectSignals (strategies Scenario.oneStrategyBot) tok book
  = [TradeSignal.mk "token-1" BUY 0.9 0.5 10 "sure"].
Proof.
  unfold collectSignals, Scenario.oneStrategyBot, Scenario.twoSignals.
  cbn [strategies mbind list_bind enabled evaluate].
  rewrite filter_cons_True by (cbn [TradeSignal.confidence]; lra).
  rewrite filter_cons_False by (cbn [TradeSignal.confidence]; lra).
  by rewrite filter_nil, app_nil_r.
Qed.

Lemma addTokens_known bot md ids :
  filter (λ id, id ∉ tokenIds bot) ids = [] →
  addTokens bot md ids = (bot, md).
Proof. intros Hnil. unfold addTokens. by rewrite Hnil. Qed.

Lemma addTokens_new bot md ids :
  filter (λ id, id ∉ tokenIds bot) ids ≠ [] →
  addTokens bot md ids
  = (mk (strategies bot) (running bot)
       (tokenIds bot ++ filter (λ id, id ∉ tokenIds bot) ids),
     MarketData.subscribe md (filter (λ id, id ∉ tokenIds bot) ids)).
Proof.
  intros Hsome. unfold addTokens. rewrite decide_False; [done|].
  intros Hlen. by apply nil_length_inv in Hlen.
Qed.

(** X30. [addTokens] tracks every token given: afterwards the bot's
    list holds the tokens it held, in their order, followed by those
    of the tokens given that it did not hold, and these are the tokens
    newly subscribed with the market data service.  Adding the same
    tokens again changes nothing.  The list stays free of repetitions
    provided the tokens given are: a token that the bot did not hold
    and that occurs twice among them is listed twice. *)
Theorem added_tokens_are_tracked bot md ids :
  let out := addTokens bot md ids in
  tokenIds out.1 = tokenIds bot ++ filter (λ id, id ∉ tokenIds bot) ids
  ∧ (∀ tok, tok ∈ tokenIds out.1 ↔ tok ∈ tokenIds bot ∨ tok ∈ ids)
  ∧ (∀ tok, tok ∈ MarketData.subscriptions out.2
            ↔ tok ∈ MarketData.subscriptions md
              ∨ (tok ∈ ids ∧ tok ∉ tokenIds bot))
  ∧ addTokens out.1 out.2 ids = out
  ∧ (NoDup (tokenIds bot) → NoDup ids → NoDup (tokenIds out.1)).
Proof.
  intros out. subst out.
  assert (Hnew : ∀ tok, tok ∈ filter (λ id, id ∉ tokenIds bot) ids
                        ↔ tok ∈ ids ∧ tok ∉ tokenIds bot).
  { intros tok. rewrite list_elem_of_filter. tauto. }
  assert (Hagain : ∀ known : list string,
            (∀ tok, tok ∈ ids → tok ∈ known) →
            filter (λ id, id ∉ known) ids = []).
  { intros known Hknown. apply elem_of_nil_inv.
    intros tok [Hnot Hin]%list_elem_of_filter. by apply Hnot, Hknown. }
  destruct (decide (filter (λ id, id ∉ tokenIds bot) ids = []))
    as [Hnil|Hsome].
  - rewrite !(addTokens_known bot md ids Hnil). cbn [fst snd].
    rewrite Hnil, app_nil_r.
    assert (Hall : ∀ tok, tok ∈ ids → tok ∈ tokenIds bot).
    { intros tok Hin. destruct (decide (tok ∈ tokenIds bot)); [done|].
      assert (Htok : tok ∈ filter (λ id, id ∉ tokenIds bot) ids)
        by (by apply Hnew).
      rewrite Hnil in Htok. by apply elem_of_nil in Htok. }
    split_and!; [done| | |by apply addTokens_known|done].
    + intros tok. split; [by left|]. intros [?|?]; [done|by apply Hall].
    + intros tok. split; [by left|].
      intros [?|[Hin Hnot]]; [done|]. by apply Hall in Hin.
  - rewrite !(addTokens_new bot md ids Hsome).
    cbn [fst snd tokenIds strategies running].
    split_and!; [done| | | |].
    + intros tok. rewrite elem_of_app, Hnew.
      destruct (decide (tok ∈ tokenIds bot)); tauto.
    + intros tok. unfold MarketData.subscribe.
      cbn [MarketData.subscriptions]. by rewrite Set_add_fold, Hnew.
    + apply addTokens_known. cbn [tokenIds]. apply Hagain.
      intros tok Hin. apply elem_of_app.
      destruct (decide (tok ∈ tokenIds bot)); [by left|].
      right. by apply Hnew.
    + intros Hnd Hids. apply NoDup_app. split_and!; [done| |].
      * intros tok Hin [_ Hnot]%Hnew. done.
      * by apply NoDup_filter.
Qed.

End Engine.
